(** * Route/time correspondence engine of the video-sync viewer

    Shallow embedding of [src/syncview/dev/svscript.js]: the projection of
    a point onto the route, the cumulative distance table, the two
    interpolation functions between playback time and distance along the
    route, the per-frame marker sync and the landmark label.

    Numbers.  A JavaScript number is modelled by [num]: a rational, or
    one of the three special values [NaN], [+Infinity], [-Infinity]; the
    special values follow IEEE-754 as JavaScript does, so that [0/0] is
    [NaN] and every comparison with [NaN] is false.  There is one zero.
    Arithmetic on finite values comes in two forms.  The operations
    [+ - * /] are exact; the functions named as in the source use them,
    and they carry the statements that rest on the order of the tests,
    on comparisons and on the special values.  The operations [add_fl],
    [sub_fl], [mul_fl], [div_fl] round every result with a rounding
    function [round], of which [binary64] is the one of the browser; the
    functions with the suffix [_fl] use them, and they carry the
    statements about computed values.

    Exceptions.  Reading a property of [undefined] throws a [TypeError];
    functions that can do so return a [completion], [Throw] on a throw. *)

From Stdlib Require Import String.
From Stdlib Require Import QArith Qabs Qminmax Qround Qpower Lqa Lia List Bool Arith
  Permutation.
Import ListNotations.

(* ================================================================== *)
(** * JavaScript numbers *)
(* ================================================================== *)

Inductive num : Type :=
| NaN
| NInf
| Fin (q : Q)
| PInf.

Declare Scope num_scope.
Delimit Scope num_scope with num.
Bind Scope num_scope with num.

Definition zero : num := Fin 0.
Definition one : num := Fin 1.

Definition is_NaN (x : num) : bool :=
  match x with NaN => true | _ => false end.

Definition is_finite (x : num) : bool :=
  match x with Fin _ => true | _ => false end.

(** Strict comparison of rationals, from the non-strict one. *)
Definition Qlt_bool (a b : Q) : bool := negb (Qle_bool b a).

Definition neg (x : num) : num :=
  match x with
  | NaN => NaN
  | NInf => PInf
  | Fin q => Fin (- q)
  | PInf => NInf
  end.

Definition add (x y : num) : num :=
  match x, y with
  | NaN, _ | _, NaN => NaN
  | PInf, NInf | NInf, PInf => NaN
  | PInf, _ | _, PInf => PInf
  | NInf, _ | _, NInf => NInf
  | Fin a, Fin b => Fin (a + b)
  end.

Definition sub (x y : num) : num := add x (neg y).

(** An infinity of sign [s] (true: positive) times or divided by a finite
    [q]; the sign flips when [q] is negative. *)
Definition inf_of_sign (s : bool) : num := if s then PInf else NInf.

Definition mul (x y : num) : num :=
  match x, y with
  | NaN, _ | _, NaN => NaN
  | Fin a, Fin b => Fin (a * b)
  | PInf, PInf | NInf, NInf => PInf
  | PInf, NInf | NInf, PInf => NInf
  | PInf, Fin q | Fin q, PInf =>
      if Qeq_bool q 0 then NaN else inf_of_sign (Qlt_bool 0 q)
  | NInf, Fin q | Fin q, NInf =>
      if Qeq_bool q 0 then NaN else inf_of_sign (Qlt_bool q 0)
  end.

Definition div (x y : num) : num :=
  match x, y with
  | NaN, _ | _, NaN => NaN
  | Fin a, Fin b =>
      if Qeq_bool b 0
      then (if Qeq_bool a 0 then NaN else inf_of_sign (Qlt_bool 0 a))
      else Fin (a / b)
  | Fin _, PInf | Fin _, NInf => Fin 0
  | PInf, Fin q => inf_of_sign (Qle_bool 0 q)
  | NInf, Fin q => inf_of_sign (Qlt_bool q 0)
  | PInf, PInf | PInf, NInf | NInf, PInf | NInf, NInf => NaN
  end.

(** [x < y] and [x <= y]; false as soon as one side is [NaN]. *)
Definition ltb (x y : num) : bool :=
  match x, y with
  | NaN, _ | _, NaN => false
  | NInf, NInf => false
  | NInf, _ => true
  | _, NInf => false
  | PInf, _ => false
  | Fin _, PInf => true
  | Fin a, Fin b => Qlt_bool a b
  end.

Definition leb (x y : num) : bool :=
  match x, y with
  | NaN, _ | _, NaN => false
  | NInf, _ => true
  | _, NInf => false
  | _, PInf => true
  | PInf, _ => false
  | Fin a, Fin b => Qle_bool a b
  end.

Definition gtb (x y : num) : bool := ltb y x.
Definition geb (x y : num) : bool := leb y x.

(** [Math.max], [Math.min], [Math.abs]. *)
Definition max (x y : num) : num :=
  match x, y with
  | NaN, _ | _, NaN => NaN
  | _, _ => if leb x y then y else x
  end.

Definition min (x y : num) : num :=
  match x, y with
  | NaN, _ | _, NaN => NaN
  | _, _ => if leb x y then x else y
  end.

Definition abs (x : num) : num :=
  match x with
  | NaN => NaN
  | NInf | PInf => PInf
  | Fin q => Fin (Qabs q)
  end.

(** [x ** 2]. *)
Definition pow2 (x : num) : num := mul x x.

Infix "+" := add : num_scope.
Infix "-" := sub : num_scope.
Infix "*" := mul : num_scope.
Infix "/" := div : num_scope.
Infix "<?" := ltb (at level 70, no associativity) : num_scope.
Infix "<=?" := leb (at level 70, no associativity) : num_scope.
Infix ">?" := gtb (at level 70, no associativity) : num_scope.
Infix ">=?" := geb (at level 70, no associativity) : num_scope.

(** [x === y] on numbers: the same numeric value; [NaN] equals nothing. *)
Definition num_eq (x y : num) : Prop :=
  match x, y with
  | Fin a, Fin b => (a == b)%Q
  | PInf, PInf | NInf, NInf => True
  | _, _ => False
  end.

Infix "===" := num_eq (at level 70, no associativity) : num_scope.

(* ================================================================== *)
(** * Exceptions *)
(* ================================================================== *)

(** The outcome of a call: a value, or a thrown exception.  The only
    exception the modelled code raises itself is the [TypeError] of
    reading a property of [undefined]. *)
Inductive completion (A : Type) : Type :=
| Normal (a : A)
| Throw.

Arguments Normal {A} a.
Arguments Throw {A}.

Definition bind {A B} (c : completion A) (k : A -> completion B) : completion B :=
  match c with
  | Normal a => k a
  | Throw => Throw
  end.

Notation "x <- c ;; k" := (bind c (fun x => k))
  (at level 61, c at next level, right associativity).

(** [o.f] where [o] may be [undefined]. *)
Definition prop {A B} (o : option A) (f : A -> B) : completion B :=
  match o with
  | Some a => Normal (f a)
  | None => Throw
  end.

(* ================================================================== *)
(** * Data model *)
(* ================================================================== *)

(** A coordinate pair [[lat, lon]]: [p[0]] is [fst p], [p[1]] is [snd p]. *)
Definition point : Type := (num * num)%type.

(** An element of [timePoints]. *)
Record anchor : Type := mkAnchor {
  time : num;
  lat : num;
  lon : num;
  dist : num
}.

(** An element of [landmarks]. *)
Record landmark : Type := mkLandmark {
  lm_time : num;
  lm_lat : num;
  lm_lon : num;
  lm_description : string
}.

(** [arr[i]] and [arr.at(-1)]; [None] is [undefined]. *)
Definition idx {A} (l : list A) (i : nat) : option A := nth_error l i.

Definition at_last {A} (l : list A) : option A :=
  match l with
  | [] => None
  | x :: l' => Some (last l' x)
  end.

Local Open Scope num_scope.

(* ================================================================== *)
(** * Time <-> distance interpolation *)
(* ================================================================== *)

(** The [for] loop of [distanceToTime]: [prev] is [timePoints[i-1]], the
    head of [rest] is [timePoints[i]]. *)
Fixpoint scanDist (prev : anchor) (rest : list anchor) (d : num) : option num :=
  match rest with
  | [] => None
  | next :: rest' =>
      if (d >=? dist prev) && (d <=? dist next)
      then
        let frac := (d - dist prev) / (dist next - dist prev) in
        Some (time prev + frac * (time next - time prev))
      else scanDist next rest' d
  end.

Definition distanceToTime (timePoints : list anchor) (d : num) : num :=
  match timePoints with
  | [] | [_] => zero
  | first :: rest =>
      match scanDist first rest d with
      | Some t => t
      | None =>
          let lastA := last rest first in
          if d <? dist first then time first
          else if d >? dist lastA then time lastA
          else zero
      end
  end.

(** The [for] loop of [interpolateDistanceForTime]. *)
Fixpoint scanTime (prev : anchor) (rest : list anchor) (t : num) : option num :=
  match rest with
  | [] => None
  | next :: rest' =>
      if (t >=? time prev) && (t <=? time next)
      then
        let frac := (t - time prev) / (time next - time prev) in
        Some (dist prev + frac * (dist next - dist prev))
      else scanTime next rest' t
  end.

Definition interpolateDistanceForTime (timePoints : list anchor) (t : num)
  : completion num :=
  t0 <- prop (idx timePoints 0) time ;;
  if t <=? t0 then prop (idx timePoints 0) dist else
  tn <- prop (at_last timePoints) time ;;
  if t >=? tn then prop (at_last timePoints) dist else
  if (length timePoints <? 2)%nat then Normal zero else
  match timePoints with
  | [] => Throw
  | first :: rest =>
      match scanTime first rest t with
      | Some d => Normal d
      | None =>
          if t <? time first then Normal (dist first)
          else if t >? tn then prop (at_last timePoints) dist
          else Normal zero
      end
  end.

(* ------------------------------------------------------------------ *)
(** ** The same functions in rounded arithmetic *)

Section Rounded.

(** [round q] is the number stored for the exact result [q] of one
    operation on finite operands: the nearest binary64 value in the
    browser, an infinity when [q] is out of range. *)
Variable round : Q -> num.

Definition rounded (x : num) : num :=
  match x with
  | Fin q => round q
  | _ => x
  end.

Definition add_fl (x y : num) : num := rounded (x + y).
Definition sub_fl (x y : num) : num := rounded (x - y).
Definition mul_fl (x y : num) : num := rounded (x * y).
Definition div_fl (x y : num) : num := rounded (x / y).

(** [distanceToTime] with every operation rounded. *)
Fixpoint scanDist_fl (prev : anchor) (rest : list anchor) (d : num) : option num :=
  match rest with
  | [] => None
  | next :: rest' =>
      if (d >=? dist prev) && (d <=? dist next)
      then
        let frac := div_fl (sub_fl d (dist prev)) (sub_fl (dist next) (dist prev)) in
        Some (add_fl (time prev) (mul_fl frac (sub_fl (time next) (time prev))))
      else scanDist_fl next rest' d
  end.

Definition distanceToTime_fl (timePoints : list anchor) (d : num) : num :=
  match timePoints with
  | [] | [_] => zero
  | first :: rest =>
      match scanDist_fl first rest d with
      | Some t => t
      | None =>
          let lastA := last rest first in
          if d <? dist first then time first
          else if d >? dist lastA then time lastA
          else zero
      end
  end.

(** [interpolateDistanceForTime] with every operation rounded. *)
Fixpoint scanTime_fl (prev : anchor) (rest : list anchor) (t : num) : option num :=
  match rest with
  | [] => None
  | next :: rest' =>
      if (t >=? time prev) && (t <=? time next)
      then
        let frac := div_fl (sub_fl t (time prev)) (sub_fl (time next) (time prev)) in
        Some (add_fl (dist prev) (mul_fl frac (sub_fl (dist next) (dist prev))))
      else scanTime_fl next rest' t
  end.

Definition interpolateDistanceForTime_fl (timePoints : list anchor) (t : num)
  : completion num :=
  t0 <- prop (idx timePoints 0) time ;;
  if t <=? t0 then prop (idx timePoints 0) dist else
  tn <- prop (at_last timePoints) time ;;
  if t >=? tn then prop (at_last timePoints) dist else
  if (length timePoints <? 2)%nat then Normal zero else
  match timePoints with
  | [] => Throw
  | first :: rest =>
      match scanTime_fl first rest t with
      | Some d => Normal d
      | None =>
          if t <? time first then Normal (dist first)
          else if t >? tn then prop (at_last timePoints) dist
          else Normal zero
      end
  end.

End Rounded.

(* ================================================================== *)
(** * Route geometry *)
(* ================================================================== *)

(** Reading a number out of an array of numbers for arithmetic: an index
    out of range reads [undefined], which arithmetic and comparisons turn
    into [NaN]. *)
Definition num_at (l : list num) (i : nat) : num := nth i l NaN.

(** Reading a route vertex at an index the loop keeps within bounds. *)
Definition pt_at (l : list point) (i : nat) : point := nth i l (NaN, NaN).

(** What [pointToSegmentDistance] returns. *)
Record segDistance : Type := mkSegDistance {
  seg_dist : num;
  seg_frac : num
}.

(** What [findNearestPointOnRoute] returns; [near_point] is [undefined]
    when the route is empty. *)
Record nearest : Type := mkNearest {
  near_point : option point;
  near_dist : num
}.

Section Host.

(** The two host functions the geometry calls: [Math.sqrt] on the
    non-negative rationals (an exact rational model has no square roots
    of its own), and Leaflet's [map.distance]. *)
Variable Qsqrt : Q -> Q.
Variable map_distance : point -> point -> num.

Definition sqrt (x : num) : num :=
  match x with
  | NaN | NInf => NaN
  | PInf => PInf
  | Fin q => if Qlt_bool q 0 then NaN else Fin (Qsqrt q)
  end.

Definition pointToSegmentDistance (p a b : point) : segDistance :=
  let x := snd p in let y := fst p in
  let x1 := snd a in let y1 := fst a in
  let x2 := snd b in let y2 := fst b in
  let A := x - x1 in let B := y - y1 in
  let C := x2 - x1 in let D := y2 - y1 in
  let dot := A * C + B * D in
  let lenSq := C * C + D * D in
  let frac := max zero (min one (dot / lenSq)) in
  let projX := x1 + frac * C in
  let projY := y1 + frac * D in
  let dist := sqrt (pow2 (x - projX) + pow2 (y - projY)) * Fin 111320 in
  {| seg_dist := dist; seg_frac := frac |}.

(** The cumulative distance table of [loadData]: starts as [[0]], then
    one [push] per vertex from index 1 on. *)
Definition pushCumulative (routeCoords : list point) (cumulativeDist : list num)
    (i : nat) : list num :=
  let d := map_distance (pt_at routeCoords (i - 1)) (pt_at routeCoords i) in
  cumulativeDist ++ [num_at cumulativeDist (i - 1) + d].

Definition buildCumulativeDist (routeCoords : list point) : list num :=
  fold_left (pushCumulative routeCoords)
            (seq 1 (length routeCoords - 1)) [zero].

(** One iteration of the loop of [findNearestDistanceOnRoute]; the
    accumulator is [(nearestDist, bestCumDist)]. *)
Definition nearestDistanceStep (routeCoords : list point)
    (cumulativeDist : list num) (position : point)
    (acc : num * num) (i : nat) : num * num :=
  let '(nearestDist, bestCumDist) := acc in
  let a := pt_at routeCoords (i - 1) in
  let b := pt_at routeCoords i in
  let d := pointToSegmentDistance (fst position, snd position) a b in
  if seg_dist d <? nearestDist
  then (seg_dist d,
        num_at cumulativeDist (i - 1)
        + seg_frac d * (num_at cumulativeDist i - num_at cumulativeDist (i - 1)))
  else (nearestDist, bestCumDist).

Definition findNearestDistanceOnRoute (routeCoords : list point)
    (cumulativeDist : list num) (position : point) : num :=
  snd (fold_left (nearestDistanceStep routeCoords cumulativeDist position)
                 (seq 1 (length routeCoords - 1)) (PInf, zero)).

(** One iteration of the loop of [findNearestPointOnRoute]; the
    accumulator is [(nearestDist, bestPoint, bestCumDist)]. *)
Definition nearestPointStep (routeCoords : list point)
    (cumulativeDist : list num) (position : point)
    (acc : num * option point * num) (i : nat) : num * option point * num :=
  let '(nearestDist, bestPoint, bestCumDist) := acc in
  let a := pt_at routeCoords (i - 1) in
  let b := pt_at routeCoords i in
  let d := pointToSegmentDistance (fst position, snd position) a b in
  if seg_dist d <? nearestDist
  then
    let latN := fst a + seg_frac d * (fst b - fst a) in
    let lonN := snd a + seg_frac d * (snd b - snd a) in
    (seg_dist d, Some (latN, lonN),
     num_at cumulativeDist (i - 1)
     + seg_frac d * (num_at cumulativeDist i - num_at cumulativeDist (i - 1)))
  else (nearestDist, bestPoint, bestCumDist).

Definition findNearestPointOnRoute (routeCoords : list point)
    (cumulativeDist : list num) (position : point) : nearest :=
  let '(_, bestPoint, bestCumDist) :=
    fold_left (nearestPointStep routeCoords cumulativeDist position)
              (seq 1 (length routeCoords - 1))
              (PInf, idx routeCoords 0, zero) in
  {| near_point := bestPoint; near_dist := bestCumDist |}.

End Host.

(** The [while] loop of [getPositionAtDistance]: the first index [i >= 1]
    with [cumulativeDist[i] >= targetDist] fails the loop test, and so
    does [cumulativeDist.length].  [fuel] bounds the number of tests. *)
Fixpoint scanCumulative (cumulativeDist : list num) (targetDist : num)
    (i fuel : nat) : nat :=
  match fuel with
  | O => i
  | S fuel' =>
      if (i <? length cumulativeDist)%nat && (num_at cumulativeDist i <? targetDist)
      then scanCumulative cumulativeDist targetDist (S i) fuel'
      else i
  end.

(** [None] is the [undefined] that [routeCoords[0]] and
    [routeCoords.at(-1)] read from an empty route. *)
Definition getPositionAtDistance (routeCoords : list point)
    (cumulativeDist : list num) (targetDist : num) : completion (option point) :=
  if (length routeCoords <? 2)%nat then Normal (idx routeCoords 0) else
  let i := scanCumulative cumulativeDist targetDist 1 (length cumulativeDist) in
  if (length cumulativeDist <=? i)%nat then Normal (at_last routeCoords) else
  let a := idx routeCoords (i - 1) in
  let b := idx routeCoords i in
  let segDist := num_at cumulativeDist i - num_at cumulativeDist (i - 1) in
  let segFrac := (targetDist - num_at cumulativeDist (i - 1)) / segDist in
  a0 <- prop a fst ;;
  b0 <- prop b fst ;;
  a1 <- prop a snd ;;
  b1 <- prop b snd ;;
  Normal (Some (a0 + segFrac * (b0 - a0), a1 + segFrac * (b1 - a1))).

Section RoundedPosition.

Variable round : Q -> num.

(** [getPositionAtDistance] with every operation rounded. *)
Definition getPositionAtDistance_fl (routeCoords : list point)
    (cumulativeDist : list num) (targetDist : num) : completion (option point) :=
  if (length routeCoords <? 2)%nat then Normal (idx routeCoords 0) else
  let i := scanCumulative cumulativeDist targetDist 1 (length cumulativeDist) in
  if (length cumulativeDist <=? i)%nat then Normal (at_last routeCoords) else
  let a := idx routeCoords (i - 1) in
  let b := idx routeCoords i in
  let segDist :=
    sub_fl round (num_at cumulativeDist i) (num_at cumulativeDist (i - 1)) in
  let segFrac :=
    div_fl round (sub_fl round targetDist (num_at cumulativeDist (i - 1))) segDist in
  a0 <- prop a fst ;;
  b0 <- prop b fst ;;
  a1 <- prop a snd ;;
  b1 <- prop b snd ;;
  Normal (Some (add_fl round a0 (mul_fl round segFrac (sub_fl round b0 a0)),
                add_fl round a1 (mul_fl round segFrac (sub_fl round b1 a1)))).

End RoundedPosition.

(* ================================================================== *)
(** * Global state, loading, visualization, per-frame sync *)
(* ================================================================== *)

(** The [labelDisplay] element. *)
Record labelBox : Type := mkLabelBox {
  innerText : string;
  opacity : num
}.

(** The global variables of the script and the pieces of the page and of
    the map that the modelled functions write.  [marker] is [None] while
    the variable is [null]; otherwise it holds the coordinate last given
    to the marker, which is [None] when that was [undefined]. *)
Record state : Type := mkState {
  routeCoords : list point;
  cumulativeDist : list num;
  timePoints : list anchor;
  landmarks : list landmark;
  initialDist : num;
  initialPos : option point;
  marker : option (option point);
  player : bool;
  autoPanEnabled : bool;
  mapCenter : option point;
  labelDisplay : option labelBox
}.

(** An element of [data.linkedPoints]: [p.time] after [Number(...)], and
    [p.position]. *)
Record linkedPoint : Type := mkLinkedPoint {
  lp_time : num;
  lp_position : point
}.

(** The loaded project file.  [coordinates] is
    [data.geojson.features[0].geometry.coordinates], pairs [[lon, lat]];
    an absent optional member is [None]. *)
Record projectData : Type := mkProjectData {
  coordinates : list point;
  linkedPoints : option (list linkedPoint);
  data_landmarks : option (list landmark);
  startPosition : option point
}.

(** [x || []]. *)
Definition or_empty {A} (o : option (list A)) : list A :=
  match o with Some l => l | None => [] end.

(** [timePoints.sort((a, b) => a.time - b.time)]: a stable sort; [a] goes
    after [b] when the comparator is positive. *)
Fixpoint insertByTime (a : anchor) (l : list anchor) : list anchor :=
  match l with
  | [] => [a]
  | b :: l' =>
      if time a - time b >? zero then b :: insertByTime a l' else a :: b :: l'
  end.

Definition sortByTime (l : list anchor) : list anchor :=
  fold_right insertByTime [] l.

Section HostState.

Variable Qsqrt : Q -> Q.
Variable map_distance : point -> point -> num.

Definition loadData (st : state) (data : projectData) : state :=
  (* route *)
  let routeCoords' := map (fun c => (snd c, fst c)) (coordinates data) in
  let cumulativeDist' := buildCumulativeDist map_distance routeCoords' in
  let nearestDistance := findNearestDistanceOnRoute Qsqrt routeCoords' cumulativeDist' in
  let nearestPoint := findNearestPointOnRoute Qsqrt routeCoords' cumulativeDist' in
  (* linked points *)
  let sorted :=
    sortByTime
      (map (fun p =>
              {| time := lp_time p;
                 lat := fst (lp_position p);
                 lon := snd (lp_position p);
                 dist := nearestDistance (fst (lp_position p), snd (lp_position p)) |})
           (or_empty (linkedPoints data))) in
  (* landmarks *)
  let landmarks' := or_empty (data_landmarks data) in
  (* force timePoints[0] to match landmark[0] *)
  let timePoints' :=
    match landmarks', sorted with
    | lm0 :: _, tp0 :: rest =>
        let near := nearestPoint (lm_lat lm0, lm_lon lm0) in
        {| time := lm_time lm0; lat := lat tp0; lon := lon tp0;
           dist := near_dist near |} :: rest
    | _, _ => sorted
    end in
  (* start position *)
  let '(initialPos', initialDist') :=
    match startPosition data with
    | Some sp => (Some (fst sp, snd sp), nearestDistance (fst sp, snd sp))
    | None =>
        match landmarks' with
        | lm0 :: _ =>
            (Some (lm_lat lm0, lm_lon lm0), nearestDistance (lm_lat lm0, lm_lon lm0))
        | [] =>
            match timePoints' with
            | tp0 :: _ => (Some (lat tp0, lon tp0), dist tp0)
            | [] => (idx routeCoords' 0, zero)
            end
        end
    end in
  {| routeCoords := routeCoords';
     cumulativeDist := cumulativeDist';
     timePoints := timePoints';
     landmarks := landmarks';
     initialDist := initialDist';
     initialPos := initialPos';
     marker := marker st;
     player := player st;
     autoPanEnabled := autoPanEnabled st;
     mapCenter := mapCenter st;
     labelDisplay := labelDisplay st |}.

(** The start point and the writes of [setupVisualization]; drawing the
    landmarks and the route changes nothing modelled here. *)
Definition setupVisualization (st : state) : state :=
  let '(startPoint, initialDist') :=
    match landmarks st with
    | lm0 :: _ =>
        (Some (lm_lat lm0, lm_lon lm0),
         near_dist (findNearestPointOnRoute Qsqrt (routeCoords st) (cumulativeDist st)
                                            (lm_lat lm0, lm_lon lm0)))
    | [] => (idx (routeCoords st) 0, zero)
    end in
  {| routeCoords := routeCoords st;
     cumulativeDist := cumulativeDist st;
     timePoints := timePoints st;
     landmarks := landmarks st;
     initialDist := initialDist';
     initialPos := initialPos st;
     marker := Some startPoint;
     player := player st;
     autoPanEnabled := autoPanEnabled st;
     mapCenter := startPoint;
     labelDisplay := labelDisplay st |}.

End HostState.

(** [typeof x === 'number'] for a value of the number type. *)
Definition typeof_number (x : num) : bool := true.

Definition within2 (currentTime : num) (l : landmark) : bool :=
  let offset := zero in
  let correctedTime := currentTime - offset in
  abs (lm_time l - correctedTime) <? Fin 2.

(** [updateLabel] on the label element; [find] is [Array.prototype.find]. *)
Definition updateLabelBox (lms : list landmark) (currentTime : num)
    (box : labelBox) : labelBox :=
  match lms with
  | [] => {| innerText := innerText box; opacity := zero |}
  | _ =>
      match find (within2 currentTime) lms with
      | Some lm => {| innerText := lm_description lm; opacity := one |}
      | None => {| innerText := innerText box; opacity := zero |}
      end
  end.

Definition set_labelDisplay (st : state) (box : option labelBox) : state :=
  {| routeCoords := routeCoords st;
     cumulativeDist := cumulativeDist st;
     timePoints := timePoints st;
     landmarks := landmarks st;
     initialDist := initialDist st;
     initialPos := initialPos st;
     marker := marker st;
     player := player st;
     autoPanEnabled := autoPanEnabled st;
     mapCenter := mapCenter st;
     labelDisplay := box |}.

Definition updateLabel (st : state) (currentTime : num) : state :=
  match labelDisplay st with
  | None => st
  | Some box =>
      set_labelDisplay st (Some (updateLabelBox (landmarks st) currentTime box))
  end.

(** The distance [d] that one frame of [syncMarker] uses at time [t]. *)
Definition syncDistance (st : state) (t : num) : completion num :=
  match landmarks st with
  | lm0 :: _ =>
      if typeof_number (lm_time lm0) && (t <? lm_time lm0)
      then Normal (initialDist st)
      else interpolateDistanceForTime (timePoints st) t
  | [] => interpolateDistanceForTime (timePoints st) t
  end.

(** One frame of [syncMarker]; [t] is [player.getCurrentTime()]. *)
Definition syncMarker (st : state) (t : num) : completion state :=
  match player st, marker st, routeCoords st with
  | false, _, _ | _, None, _ | _, _, [] => Normal st
  | true, Some _, _ :: _ =>
      d <- syncDistance st t ;;
      pos <- getPositionAtDistance (routeCoords st) (cumulativeDist st) d ;;
      Normal
        (updateLabel
           {| routeCoords := routeCoords st;
              cumulativeDist := cumulativeDist st;
              timePoints := timePoints st;
              landmarks := landmarks st;
              initialDist := initialDist st;
              initialPos := initialPos st;
              marker := Some pos;
              player := player st;
              autoPanEnabled := autoPanEnabled st;
              mapCenter := if autoPanEnabled st then pos else mapCenter st;
              labelDisplay := labelDisplay st |}
           t)
  end.

(** The frames of the sync loop after one another; [ts] are the playback
    times the player reports, frame by frame. *)
Fixpoint runFrames (st : state) (ts : list num) : completion state :=
  match ts with
  | [] => Normal st
  | t :: ts' => st' <- syncMarker st t ;; runFrames st' ts'
  end.

(** The player states that the [onStateChange] listener of
    [onPlayerReady] tells apart: [YT.PlayerState.PLAYING],
    [YT.PlayerState.PAUSED], and every other state. *)
Inductive playerState : Type :=
| PLAYING
| PAUSED
| otherPlayerState.

(** The [onStateChange] listener: playing turns the automatic panning of
    the map on, pausing turns it off. *)
Definition onStateChange (st : state) (e : playerState) : state :=
  let set_autoPan (b : bool) :=
    {| routeCoords := routeCoords st;
       cumulativeDist := cumulativeDist st;
       timePoints := timePoints st;
       landmarks := landmarks st;
       initialDist := initialDist st;
       initialPos := initialPos st;
       marker := marker st;
       player := player st;
       autoPanEnabled := b;
       mapCenter := mapCenter st;
       labelDisplay := labelDisplay st |} in
  match e with
  | PLAYING => set_autoPan true
  | PAUSED => set_autoPan false
  | otherPlayerState => st
  end.

(* ================================================================== *)
(** * A host for running examples *)
(* ================================================================== *)

(** A square root on the non-negative rationals, rounded down to six
    decimals of the square root of numerator times denominator. *)
Definition QsqrtDigits (q : Q) : Q :=
  Z.sqrt (Qnum q * Zpos (Qden q) * 1000000000000) # (Qden q * 1000000).

(** A planar distance in the manner of [pointToSegmentDistance]; it
    stands for Leaflet's [map.distance] when an example is run. *)
Definition flatDistance (a b : point) : num :=
  sqrt QsqrtDigits (pow2 (fst a - fst b) + pow2 (snd a - snd b)) * Fin 111320.

(** The scenario of the specification: two anchors, times 0 and 10,
    distances 0 and 100000. *)
Definition scenarioAnchors : list anchor :=
  [ {| time := Fin 0; lat := Fin 0; lon := Fin 0; dist := Fin 0 |};
    {| time := Fin 10; lat := Fin 1; lon := Fin 0; dist := Fin 100000 |} ].

(** Two anchors recorded at the same time 5, at distances 0 and 100. *)
Definition equalTimeAnchors : list anchor :=
  [ {| time := Fin 5; lat := Fin 0; lon := Fin 0; dist := Fin 0 |};
    {| time := Fin 5; lat := Fin 1; lon := Fin 0; dist := Fin 100 |} ].

(** A route whose first two vertices coincide. *)
Definition stalledRoute : list point := [(Fin 0, Fin 0); (Fin 0, Fin 0)].

(** A single landmark at time 5. *)
Definition landmarkAt5 : landmark :=
  {| lm_time := Fin 5; lm_lat := Fin 1; lm_lon := Fin 0; lm_description := "gate" |}.

(** The route of the scenario as [loadData] stores it, [[lat, lon]]
    pairs, and a cumulative distance table for it, 111320 per degree. *)
Definition scenarioRoute : list point :=
  [(Fin 0, Fin 0); (Fin 1, Fin 0); (Fin 2, Fin 0)].

Definition scenarioTable : list num := [Fin 0; Fin 111320; Fin 222640].

(** The route of the specification's scenario, [[lon, lat]] pairs along
    a meridian. *)
Definition scenarioCoordinates : list point :=
  [(Fin 0, Fin 0); (Fin 0, Fin 1); (Fin 0, Fin 2)].

(** A project whose first landmark, at time 15, is later than the second
    of its linked points, at times 0, 10 and 20. *)
Definition lateLandmarkData : projectData :=
  {| coordinates := scenarioCoordinates;
     linkedPoints :=
       Some [ {| lp_time := Fin 0; lp_position := (Fin 0, Fin 0) |};
              {| lp_time := Fin 10; lp_position := (Fin 1, Fin 0) |};
              {| lp_time := Fin 20; lp_position := (Fin 2, Fin 0) |} ];
     data_landmarks :=
       Some [ {| lm_time := Fin 15; lm_lat := Fin (3 # 2); lm_lon := Fin 0;
                 lm_description := "bridge" |} ];
     startPosition := None |}.

(** A project with a start position at latitude 1 and a landmark at
    latitude 2. *)
Definition startPositionData : projectData :=
  {| coordinates := scenarioCoordinates;
     linkedPoints := None;
     data_landmarks :=
       Some [ {| lm_time := Fin 5; lm_lat := Fin 2; lm_lon := Fin 0;
                 lm_description := "gate" |} ];
     startPosition := Some (Fin 1, Fin 0) |}.

(** The state before a project is loaded into a page whose player
    exists. *)
Definition readyState : state :=
  {| routeCoords := []; cumulativeDist := []; timePoints := []; landmarks := [];
     initialDist := zero; initialPos := None; marker := None; player := true;
     autoPanEnabled := true; mapCenter := None;
     labelDisplay := Some {| innerText := "idle"; opacity := zero |} |}.

(** A state with the scenario's route, table and anchors, a landmark at
    time 5, a player and a marker. *)
Definition scenarioState : state :=
  {| routeCoords := scenarioRoute; cumulativeDist := scenarioTable;
     timePoints := scenarioAnchors; landmarks := [landmarkAt5];
     initialDist := zero; initialPos := None;
     marker := Some (Some (Fin 1, Fin 0)); player := true;
     autoPanEnabled := true; mapCenter := None;
     labelDisplay := Some {| innerText := "idle"; opacity := zero |} |}.

(** A project without landmarks whose linked points come out of order. *)
Definition unsortedData : projectData :=
  {| coordinates := scenarioCoordinates;
     linkedPoints :=
       Some [ {| lp_time := Fin 10; lp_position := (Fin 1, Fin 0) |};
              {| lp_time := Fin 0; lp_position := (Fin 0, Fin 0) |};
              {| lp_time := Fin 20; lp_position := (Fin 2, Fin 0) |} ];
     data_landmarks := None;
     startPosition := None |}.

(** A project without landmarks whose linked points come in order. *)
Definition orderedData : projectData :=
  {| coordinates := scenarioCoordinates;
     linkedPoints :=
       Some [ {| lp_time := Fin 0; lp_position := (Fin 0, Fin 0) |};
              {| lp_time := Fin 10; lp_position := (Fin 1, Fin 0) |};
              {| lp_time := Fin 20; lp_position := (Fin 2, Fin 0) |} ];
     data_landmarks := None;
     startPosition := None |}.

(** The state before anything is loaded. *)
Definition initialState : state :=
  {| routeCoords := []; cumulativeDist := []; timePoints := []; landmarks := [];
     initialDist := zero; initialPos := None; marker := None; player := false;
     autoPanEnabled := true; mapCenter := None;
     labelDisplay := Some {| innerText := "idle"; opacity := zero |} |}.

(* ------------------------------------------------------------------ *)
(** ** The rounding of the browser *)

(** The exponent of a positive rational [a]: the greatest [k] with
    [2 ^ k <= a]. *)
Definition log2floor (a : Q) : Z :=
  let k := (Z.log2 (Qnum a) - Z.log2 (Zpos (Qden a)))%Z in
  if Qle_bool (2 ^ k) a then k else (k - 1)%Z.

(** The nearest integer, the even one of two at the same distance. *)
Definition nearestEven (x : Q) : Z :=
  let f := Qfloor x in
  let r := (x - inject_Z f)%Q in
  if Qlt_bool r (1 # 2) then f
  else if Qlt_bool (1 # 2) r then (f + 1)%Z
  else if Z.even f then f else (f + 1)%Z.

(** Rounding to binary64: 53 significant bits, exponents down to the
    subnormal spacing [2 ^ -1074], an infinity from [2 ^ 1024] on. *)
Definition binary64 (q : Q) : num :=
  if Qeq_bool q 0 then Fin 0 else
  let a := Qabs q in
  let e := Z.max (log2floor a - 52) (-1074) in
  let m := nearestEven (a / 2 ^ e) in
  let r := (inject_Z m * 2 ^ e)%Q in
  if Qle_bool (2 ^ 1024) r then inf_of_sign (Qlt_bool 0 q)
  else Fin (if Qlt_bool q 0 then - r else r).

(** The relative and the absolute error of [binary64], its smallest
    normal value and its largest finite value. *)
Definition binary64_u : Q := 2 ^ (-53).
Definition binary64_eta : Q := 2 ^ (-1075).
Definition binary64_normal : Q := 2 ^ (-1022).
Definition binary64_max : Q := (2 ^ 53 - 1) * 2 ^ 971.

(** Two anchors at the times [2 ^ 53] and [2 ^ 53 + 2], 100 apart in
    distance. *)
Definition largeTimeAnchors : list anchor :=
  [ {| time := Fin 9007199254740992; lat := Fin 0; lon := Fin 0; dist := Fin 0 |};
    {| time := Fin 9007199254740994; lat := Fin 1; lon := Fin 0; dist := Fin 100 |} ].

(* ================================================================== *)
(** * Predicates used by the statements *)
(* ================================================================== *)

(** Non-decreasing times along the list, as a sort by [a.time - b.time]
    leaves them. *)
Fixpoint sortedFrom (prev : anchor) (rest : list anchor) : bool :=
  match rest with
  | [] => true
  | next :: rest' => (time prev <=? time next) && sortedFrom next rest'
  end.

Definition sortedByTime (l : list anchor) : bool :=
  match l with
  | [] => true
  | first :: rest => sortedFrom first rest
  end.

(** The pair [(l[i], l[i+1])] brackets [t] by time: the test of the loop
    of [interpolateDistanceForTime]. *)
Definition bracketsTime (t : num) (prev next : anchor) : bool :=
  (t >=? time prev) && (t <=? time next).

(** The interpolation of the distance between two anchors. *)
Definition lerpDist (prev next : anchor) (t : num) : num :=
  dist prev + ((t - time prev) / (time next - time prev)) * (dist next - dist prev).

(** Strictly increasing values of a field [f] along the list. *)
Fixpoint increasingFrom (f : anchor -> num) (prev : anchor) (rest : list anchor)
  : bool :=
  match rest with
  | [] => true
  | next :: rest' => (f prev <? f next) && increasingFrom f next rest'
  end.

Definition strictlyIncreasing (f : anchor -> num) (l : list anchor) : bool :=
  match l with
  | [] => true
  | first :: rest => increasingFrom f first rest
  end.

(** An anchor whose time and distance are finite numbers. *)
Definition finiteAnchor (a : anchor) : bool :=
  is_finite (time a) && is_finite (dist a).

(** A coordinate pair of finite numbers. *)
Definition finitePoint (p : point) : bool :=
  is_finite (fst p) && is_finite (snd p).

(** A cumulative distance table: finite, non-negative and non-decreasing
    entries. *)
Definition cumulativeOK (cum : list num) : Prop :=
  forall i j, (i <= j < length cum)%nat ->
    exists a b, num_at cum i = Fin a /\ num_at cum j = Fin b /\ (0 <= a <= b)%Q.

(** The host's distance between two finite points is finite and not
    negative. *)
Definition distanceOK (map_distance : point -> point -> num) : Prop :=
  forall a b, finitePoint a = true -> finitePoint b = true ->
    exists q, map_distance a b = Fin q /\ (0 <= q)%Q.

(** The same coordinates, as numbers. *)
Definition point_eq (p q : point) : Prop :=
  fst p === fst q /\ snd p === snd q.

(** [|landmark.time - t| < 2]. *)
Definition closeInTime (t : num) (l : landmark) : bool :=
  abs (lm_time l - t) <? Fin 2.

(** The marker coordinate after a frame. *)
Definition markerAfter (c : completion state) : completion (option (option point)) :=
  st <- c ;; Normal (marker st).

(** Non-decreasing values of a field [f] along the list. *)
Fixpoint nondecreasingFrom (f : anchor -> num) (prev : anchor) (rest : list anchor)
  : bool :=
  match rest with
  | [] => true
  | next :: rest' => (f prev <=? f next) && nondecreasingFrom f next rest'
  end.

Definition nonDecreasing (f : anchor -> num) (l : list anchor) : bool :=
  match l with
  | [] => true
  | first :: rest => nondecreasingFrom f first rest
  end.

(** The anchor with time and distance exchanged. *)
Definition swapAnchor (a : anchor) : anchor :=
  {| time := dist a; lat := lat a; lon := lon a; dist := time a |}.

(** The point at fraction [f] of the way from [a] to [b]. *)
Definition lerpPoint (a b : point) (f : num) : point :=
  (fst a + f * (fst b - fst a), snd a + f * (snd b - snd a)).

(** A cumulative distance table that starts at 0 with finite, strictly
    increasing entries: no segment of the route has length zero. *)
Definition strictCumulative (cum : list num) : Prop :=
  num_at cum 0 = zero /\
  forall i, (S i < length cum)%nat ->
    exists a b, num_at cum i = Fin a /\ num_at cum (S i) = Fin b /\ (a < b)%Q.

(** A projection onto the route: the start of the route at distance 0,
    or a point of a segment together with the cumulative distance at the
    same fraction of that segment. *)
Definition onRoute (route : list point) (cum : list num)
    (bp : option point) (bc : num) : Prop :=
  (bp = idx route 0 /\ bc = zero) \/
  exists (i : nat) (f : Q),
    (1 <= i < length route)%nat /\ (0 <= f <= 1)%Q /\
    bp = Some (lerpPoint (pt_at route (i - 1)) (pt_at route i) (Fin f)) /\
    bc = num_at cum (i - 1) + Fin f * (num_at cum i - num_at cum (i - 1)).

(** The anchor that [loadData] makes of a linked point, on a given route
    and table. *)
Definition anchorOfLinkedPoint (Qsqrt : Q -> Q) (route : list point)
    (cum : list num) (p : linkedPoint) : anchor :=
  {| time := lp_time p;
     lat := fst (lp_position p);
     lon := snd (lp_position p);
     dist := findNearestDistanceOnRoute Qsqrt route cum
               (fst (lp_position p), snd (lp_position p)) |}.

(** The route that [loadData] stores for a project. *)
Definition routeOf (data : projectData) : list point :=
  map (fun c => (snd c, fst c)) (coordinates data).

(** The state without the stored start position. *)
Definition forgetInitialPos (st : state) : state :=
  {| routeCoords := routeCoords st;
     cumulativeDist := cumulativeDist st;
     timePoints := timePoints st;
     landmarks := landmarks st;
     initialDist := initialDist st;
     initialPos := None;
     marker := marker st;
     player := player st;
     autoPanEnabled := autoPanEnabled st;
     mapCenter := mapCenter st;
     labelDisplay := labelDisplay st |}.

(** The project with another start position, or none. *)
Definition withStartPosition (data : projectData) (sp : option point) : projectData :=
  {| coordinates := coordinates data;
     linkedPoints := linkedPoints data;
     data_landmarks := data_landmarks data;
     startPosition := sp |}.

(** A function applied to the value of a completion. *)
Definition cmap {A B} (f : A -> B) (c : completion A) : completion B :=
  match c with
  | Normal a => Normal (f a)
  | Throw => Throw
  end.

(** A rounding whose error on results up to [big] in magnitude is at
    most the relative [u] plus the absolute [eta]: binary64 with
    [u = 2^-53], [eta = 2^-1075] and [big] the largest finite value. *)
Definition roundsWithin (round : Q -> num) (u eta big : Q) : Prop :=
  forall x, (Qabs x <= big)%Q ->
    exists y, round x = Fin y /\ (Qabs (y - x) <= u * Qabs x + eta)%Q.

(** Every value of the field [f] is at most [M] in magnitude. *)
Definition magnitudeWithin (f : anchor -> num) (M : Q) (l : list anchor) : bool :=
  forallb (fun a => abs (f a) <=? Fin M) l.

(** Consecutive values of the field [f] grow by at least [g]. *)
Fixpoint gapsFrom (f : anchor -> num) (g : Q) (prev : anchor) (rest : list anchor)
  : bool :=
  match rest with
  | [] => true
  | next :: rest' => (Fin g <=? f next - f prev) && gapsFrom f g next rest'
  end.

Definition gapsAtLeast (f : anchor -> num) (g : Q) (l : list anchor) : bool :=
  match l with
  | [] => true
  | first :: rest => gapsFrom f g first rest
  end.

(** Between consecutive anchors the distance changes by at most [L] per
    unit of time. *)
Fixpoint slopesFrom (L : Q) (prev : anchor) (rest : list anchor) : bool :=
  match rest with
  | [] => true
  | next :: rest' =>
      (abs (dist next - dist prev) <=? Fin L * (time next - time prev))
      && slopesFrom L next rest'
  end.

Definition slopesWithin (L : Q) (l : list anchor) : bool :=
  match l with
  | [] => true
  | first :: rest => slopesFrom L first rest
  end.

(** A coordinate pair of finite numbers of magnitude at most [C]. *)
Definition pointWithin (C : Q) (p : point) : bool :=
  (abs (fst p) <=? Fin C) && (abs (snd p) <=? Fin C).

(** A cumulative distance table that starts at 0 with finite entries,
    each at least [g] above the one before. *)
Definition gappedCumulative (g : Q) (cum : list num) : Prop :=
  num_at cum 0 = zero /\
  forall i, (S i < length cum)%nat ->
    exists a b, num_at cum i = Fin a /\ num_at cum (S i) = Fin b /\ (g <= b - a)%Q.

(* ================================================================== *)
(** * Order facts on numbers *)
(* ================================================================== *)

Lemma Qlt_bool_iff (a b : Q) : Qlt_bool a b = true <-> (a < b)%Q.
Proof.
  unfold Qlt_bool. rewrite negb_true_iff.
  split; intro H.
  - apply Qnot_le_lt. intro Hle. apply Qle_bool_iff in Hle. congruence.
  - destruct (Qle_bool b a) eqn:E; [|reflexivity].
    apply Qle_bool_iff in E. exfalso. apply (Qlt_not_le _ _ H E).
Qed.

Lemma Qle_bool_false_iff (a b : Q) : Qle_bool a b = false <-> (b < a)%Q.
Proof.
  rewrite <- Qlt_bool_iff. unfold Qlt_bool.
  destruct (Qle_bool a b); simpl; intuition congruence.
Qed.

Lemma Qlt_bool_false_iff (a b : Q) : Qlt_bool a b = false <-> (b <= a)%Q.
Proof.
  unfold Qlt_bool. rewrite negb_false_iff. apply Qle_bool_iff.
Qed.

(** Turns boolean comparisons of rationals, in the goal and in the
    hypotheses, into propositions for [lra]. *)
Ltac qbool :=
  repeat match goal with
  | H : Qle_bool _ _ = true |- _ => apply Qle_bool_iff in H
  | H : Qle_bool _ _ = false |- _ => apply Qle_bool_false_iff in H
  | H : Qlt_bool _ _ = true |- _ => apply Qlt_bool_iff in H
  | H : Qlt_bool _ _ = false |- _ => apply Qlt_bool_false_iff in H
  | H : Qeq_bool _ _ = true |- _ => apply Qeq_bool_iff in H
  | H : Qeq_bool _ _ = false |- _ => apply Qeq_bool_neq in H
  | |- Qle_bool _ _ = true => apply Qle_bool_iff
  | |- Qle_bool _ _ = false => apply Qle_bool_false_iff
  | |- Qlt_bool _ _ = true => apply Qlt_bool_iff
  | |- Qlt_bool _ _ = false => apply Qlt_bool_false_iff
  | |- Qeq_bool _ _ = true => apply Qeq_bool_iff
  end.

(** Case analysis on the numbers of an order fact, closing the cases by
    computation or by linear arithmetic on the rationals. *)
Ltac num_order :=
  unfold geb, gtb in *;
  repeat match goal with x : num |- _ => destruct x end;
  simpl in *; try discriminate; try reflexivity; try tauto;
  qbool; try lra.

Lemma ltb_leb (x y : num) : (x <? y) = true -> (x <=? y) = true.
Proof. intros; num_order. Qed.

Lemma ltb_not_geb (x y : num) : (x <? y) = true -> (x >=? y) = false.
Proof. intros; num_order. Qed.

Lemma leb_not_gtb (x y : num) : (x <=? y) = true -> (x >? y) = false.
Proof. intros; num_order. Qed.

Lemma leb_false_gtb (x y : num) :
  is_NaN x = false -> is_NaN y = false -> (x <=? y) = false -> (x >? y) = true.
Proof. intros; num_order. Qed.

Lemma leb_not_NaN_l (x y : num) : (x <=? y) = true -> is_NaN x = false.
Proof. intros; num_order. Qed.

Lemma leb_not_NaN_r (x y : num) : (x <=? y) = true -> is_NaN y = false.
Proof. intros; num_order. Qed.

Lemma ltb_not_NaN_l (x y : num) : (x <? y) = true -> is_NaN x = false.
Proof. intros; num_order. Qed.

Lemma ltb_not_NaN_r (x y : num) : (x <? y) = true -> is_NaN y = false.
Proof. intros; num_order. Qed.

Lemma ltb_irrefl (x : num) : (x <? x) = false.
Proof. num_order. Qed.

Lemma leb_total (x y : num) :
  is_NaN x = false -> is_NaN y = false -> (x <=? y) = true \/ (y <=? x) = true.
Proof.
  intros Hx Hy. destruct (x <=? y) eqn:E; [now left|right].
  apply ltb_leb. exact (leb_false_gtb _ _ Hx Hy E).
Qed.

Lemma leb_trans (x y z : num) :
  (x <=? y) = true -> (y <=? z) = true -> (x <=? z) = true.
Proof. intros; num_order. Qed.

Lemma ltb_leb_trans (x y z : num) :
  (x <? y) = true -> (y <=? z) = true -> (x <? z) = true.
Proof. intros; num_order. Qed.

(* ================================================================== *)
(** * The two interpolation functions *)
(* ================================================================== *)

Lemma sortedFrom_not_NaN (rest : list anchor) (prev next : anchor) :
  sortedFrom prev (next :: rest) = true ->
  is_NaN (time prev) = false /\ is_NaN (time next) = false.
Proof.
  simpl. intros H. apply andb_true_iff in H. destruct H as [H _].
  split; [exact (leb_not_NaN_l _ _ H) | exact (leb_not_NaN_r _ _ H)].
Qed.

Lemma last_shift {A} (x y : A) (l : list A) :
  last (y :: l) x = last l y.
Proof.
  revert x y. induction l as [|z l IH]; intros; [reflexivity|].
  change (last (y :: z :: l) x) with (last (z :: l) x).
  rewrite IH. symmetry. apply IH.
Qed.

Lemma leb_refl (x : num) : is_NaN x = false -> (x <=? x) = true.
Proof. intros; num_order. Qed.

Lemma sortedFrom_last (rest : list anchor) (prev : anchor) :
  sortedFrom prev rest = true -> is_NaN (time prev) = false ->
  (time prev <=? time (last rest prev)) = true.
Proof.
  revert prev. induction rest as [|next rest IH]; intros prev Hs Hn.
  - simpl. apply leb_refl. exact Hn.
  - simpl in Hs. apply andb_true_iff in Hs. destruct Hs as [Hle Hs].
    rewrite last_shift. eapply leb_trans; [exact Hle|].
    apply IH; [exact Hs | exact (leb_not_NaN_r _ _ Hle)].
Qed.

(** The loop of [interpolateDistanceForTime] stops at the first pair, in
    list order, that brackets [t], and such a pair exists when [t] lies
    strictly between the first and the last time. *)
Lemma scanTime_first_bracket (rest : list anchor) :
  forall (prev : anchor) (t : num),
    sortedFrom prev rest = true ->
    (time prev <? t) = true ->
    (t <? time (last rest prev)) = true ->
    exists (i : nat) (p n : anchor),
      idx (prev :: rest) i = Some p /\
      idx (prev :: rest) (S i) = Some n /\
      bracketsTime t p n = true /\
      (forall j p' n', (j < i)%nat ->
         idx (prev :: rest) j = Some p' -> idx (prev :: rest) (S j) = Some n' ->
         bracketsTime t p' n' = false) /\
      scanTime prev rest t = Some (lerpDist p n t).
Proof.
  induction rest as [|next rest IH]; intros prev t Hs Hlo Hhi.
  - simpl in Hhi. exfalso.
    pose proof (ltb_leb _ _ Hlo) as H1. pose proof (ltb_not_geb _ _ Hhi) as H2.
    unfold geb in H2. congruence.
  - rewrite last_shift in Hhi.
    destruct (sortedFrom_not_NaN _ _ _ Hs) as [Hnp Hnn].
    simpl in Hs. apply andb_true_iff in Hs. destruct Hs as [Hle Hs].
    destruct (bracketsTime t prev next) eqn:Hb.
    + exists 0%nat, prev, next. repeat split; try reflexivity; try assumption.
      * intros j p' n' Hj. lia.
      * simpl. unfold bracketsTime in Hb. rewrite Hb. reflexivity.
    + assert (Hnext : (time next <? t) = true).
      { unfold bracketsTime in Hb. apply andb_false_iff in Hb.
        destruct Hb as [Hb|Hb].
        - pose proof (ltb_leb _ _ Hlo) as H1. unfold geb in Hb. congruence.
        - apply (leb_false_gtb t (time next)); auto.
          exact (ltb_not_NaN_r _ _ Hlo). }
      destruct (IH next t Hs Hnext Hhi) as (i & p & n & Hp & Hn & Hbr & Hmin & Hscan).
      exists (S i), p, n. repeat split; try assumption.
      * intros j p' n' Hj Hp' Hn'. destruct j as [|j].
        -- simpl in Hp', Hn'. inversion Hp'; inversion Hn'; subst. exact Hb.
        -- apply (Hmin j); [lia|exact Hp'|exact Hn'].
      * simpl. unfold bracketsTime in Hb. rewrite Hb. exact Hscan.
Qed.

(** C1 (as amended).  On a non-empty anchor list sorted ascending by time,
    [interpolateDistanceForTime] returns the first anchor's distance when
    [t] is at or before the first anchor's time; the last anchor's
    distance when [t] is at or after the last anchor's time and not at or
    before the first anchor's time; and, when [t] lies strictly between
    the two, the linear interpolation
    [prev.dist + ((t - prev.time) / (next.time - prev.time)) * (next.dist - prev.dist)]
    over the first consecutive pair with [prev.time <= t <= next.time].
    On the anchors [(0, 0)], [(10, 100000)] the distance at time 5 is
    50000. *)
Theorem interpolateDistanceForTime_cases
    (first : anchor) (rest : list anchor) (t : num)
    (Hsorted : sortedByTime (first :: rest) = true) :
  let tps := first :: rest in
  let lastA := last rest first in
  ((t <=? time first) = true ->
     interpolateDistanceForTime tps t = Normal (dist first)) /\
  ((t <=? time first) = false -> (t >=? time lastA) = true ->
     interpolateDistanceForTime tps t = Normal (dist lastA)) /\
  ((time first <? t) = true -> (t <? time lastA) = true ->
     exists (i : nat) (prev next : anchor),
       idx tps i = Some prev /\ idx tps (S i) = Some next /\
       bracketsTime t prev next = true /\
       (forall j p n, (j < i)%nat -> idx tps j = Some p -> idx tps (S j) = Some n ->
          bracketsTime t p n = false) /\
       interpolateDistanceForTime tps t = Normal (lerpDist prev next t)) /\
  (exists r, interpolateDistanceForTime scenarioAnchors (Fin 5) = Normal r /\
             r === Fin 50000).
Proof.
  intros tps lastA. repeat split.
  - intros H. unfold interpolateDistanceForTime, tps. simpl. rewrite H. reflexivity.
  - intros H1 H2. unfold interpolateDistanceForTime, tps. simpl.
    rewrite H1. fold lastA. rewrite H2. reflexivity.
  - intros Hlo Hhi.
    destruct (scanTime_first_bracket rest first t Hsorted Hlo Hhi)
      as (i & p & n & Hp & Hn & Hbr & Hmin & Hscan).
    exists i, p, n. repeat split; try assumption.
    unfold interpolateDistanceForTime, tps. simpl. fold lastA.
    assert (H1 : (t <=? time first) = false).
    { pose proof (ltb_not_geb _ _ Hlo) as H. exact H. }
    assert (H2 : (t >=? time lastA) = false) by exact (ltb_not_geb _ _ Hhi).
    rewrite H1, H2.
    destruct rest as [|next rest'].
    + simpl in Hscan. discriminate.
    + change (length (first :: next :: rest') <? 2)%nat with false.
      cbv iota. rewrite Hscan. reflexivity.
  - eexists. split; [vm_compute; reflexivity|]. vm_compute. reflexivity.
Qed.

Lemma interpolateDistanceForTime_cases_witness :
  sortedByTime scenarioAnchors = true /\
  interpolateDistanceForTime scenarioAnchors (Fin 12) = Normal (Fin 100000).
Proof.
  split; [reflexivity|].
  apply (interpolateDistanceForTime_cases
           {| time := Fin 0; lat := Fin 0; lon := Fin 0; dist := Fin 0 |}
           [ {| time := Fin 10; lat := Fin 1; lon := Fin 0; dist := Fin 100000 |} ]
           (Fin 12) eq_refl); reflexivity.
Defined.

(** C1 as first stated fails: the list is sorted ascending by time and
    [t = 5] is at or after the last anchor's time, yet the result is the
    first anchor's distance 0, not the last anchor's distance 100. *)
Lemma interpolateDistanceForTime_last_clamp_counterexample :
  sortedByTime equalTimeAnchors = true /\
  (Fin 5 >=? Fin 5) = true /\
  interpolateDistanceForTime equalTimeAnchors (Fin 5) = Normal (Fin 0) /\
  interpolateDistanceForTime equalTimeAnchors (Fin 5) <> Normal (Fin 100).
Proof.
  repeat split; try reflexivity. vm_compute. discriminate.
Qed.

(** C3.  On the empty anchor list [distanceToTime] returns 0 for every
    query, but [interpolateDistanceForTime] throws for every query: it
    reads [timePoints[0].time] before its own length test. *)
Theorem empty_anchors_interpolate_throws (q : num) :
  distanceToTime [] q = zero /\
  interpolateDistanceForTime [] q = Throw.
Proof. split; reflexivity. Qed.

(** C10.  On a list of exactly one anchor, [distanceToTime] returns 0 for
    every query distance, while [interpolateDistanceForTime] returns that
    anchor's distance for every query time (numbers, not [NaN]). *)
Theorem single_anchor_asymmetry (a : anchor) (d t : num)
    (Ht : is_NaN t = false) (Ha : is_NaN (time a) = false) :
  distanceToTime [a] d = zero /\
  interpolateDistanceForTime [a] t = Normal (dist a).
Proof.
  split; [reflexivity|].
  unfold interpolateDistanceForTime. simpl.
  destruct (t <=? time a) eqn:E; [reflexivity|].
  pose proof (leb_false_gtb _ _ Ht Ha E) as H.
  unfold gtb in H. apply ltb_leb in H. unfold geb. rewrite H. reflexivity.
Qed.

Lemma single_anchor_asymmetry_witness :
  let a := {| time := Fin 4; lat := Fin 0; lon := Fin 0; dist := Fin 70 |} in
  distanceToTime [a] (Fin 70) = zero /\
  interpolateDistanceForTime [a] (Fin 9) = Normal (Fin 70).
Proof.
  exact (single_anchor_asymmetry
           {| time := Fin 4; lat := Fin 0; lon := Fin 0; dist := Fin 70 |}
           (Fin 70) (Fin 9) eq_refl eq_refl).
Defined.

(* ------------------------------------------------------------------ *)
(** ** Round trip between distance and time *)

Lemma is_finite_Fin (x : num) : is_finite x = true -> exists q, x = Fin q.
Proof. destruct x; simpl; intros H; try discriminate. now exists q. Qed.

Lemma div_Fin (a b : Q) : ~ (b == 0)%Q -> Fin a / Fin b = Fin (a / b).
Proof.
  intros Hb. simpl. destruct (Qeq_bool b 0) eqn:E; [|reflexivity].
  apply Qeq_bool_iff in E. contradiction.
Qed.

(** The interpolation fraction of a value strictly above the lower end
    and at most the upper end lies in (0, 1]. *)
Lemma frac_bounds (lo hi x : Q) :
  (lo < x)%Q -> (x <= hi)%Q ->
  (0 < (x - lo) / (hi - lo) /\ (x - lo) / (hi - lo) <= 1)%Q.
Proof.
  intros H1 H2.
  assert (Hpos : (0 < hi - lo)%Q) by lra.
  split.
  - apply Qlt_shift_div_l; [exact Hpos|lra].
  - apply Qle_shift_div_r; [exact Hpos|lra].
Qed.

Lemma frac_lt_1 (lo hi x : Q) :
  (lo < x)%Q -> (x < hi)%Q -> ((x - lo) / (hi - lo) < 1)%Q.
Proof.
  intros H1 H2. apply Qlt_shift_div_r; lra.
Qed.

Lemma increasingFrom_last (f : anchor -> num) (rest : list anchor) :
  forall prev, increasingFrom f prev rest = true ->
    rest <> [] -> (f prev <? f (last rest prev)) = true.
Proof.
  induction rest as [|next rest IH]; intros prev Hs Hne; [congruence|].
  simpl in Hs. apply andb_true_iff in Hs. destruct Hs as [Hlt Hs].
  rewrite last_shift. destruct rest as [|next' rest'].
  - exact Hlt.
  - eapply ltb_leb_trans; [exact Hlt|]. apply ltb_leb.
    apply IH; [exact Hs|discriminate].
Qed.

Lemma add_Fin (a b : Q) : Fin a + Fin b = Fin (a + b).
Proof. reflexivity. Qed.
Lemma sub_Fin (a b : Q) : Fin a - Fin b = Fin (a - b).
Proof. reflexivity. Qed.
Lemma mul_Fin (a b : Q) : Fin a * Fin b = Fin (a * b).
Proof. reflexivity. Qed.
Lemma leb_Fin (a b : Q) : (Fin a <=? Fin b) = Qle_bool a b.
Proof. reflexivity. Qed.
Lemma ltb_Fin (a b : Q) : (Fin a <? Fin b) = Qlt_bool a b.
Proof. reflexivity. Qed.
Lemma geb_Fin (a b : Q) : (Fin a >=? Fin b) = Qle_bool b a.
Proof. reflexivity. Qed.
Lemma gtb_Fin (a b : Q) : (Fin a >? Fin b) = Qlt_bool b a.
Proof. reflexivity. Qed.

Create Rewrite HintDb num_fin.
#[local] Hint Rewrite add_Fin sub_Fin mul_Fin leb_Fin ltb_Fin geb_Fin gtb_Fin : num_fin.

Lemma forallb_last {A} (P : A -> bool) (rest : list A) :
  forall prev, forallb P (prev :: rest) = true -> P (last rest prev) = true.
Proof.
  induction rest as [|next rest IH]; intros prev H.
  - cbn [forallb] in H. apply andb_true_iff in H. tauto.
  - rewrite last_shift. apply IH.
    cbn [forallb] in H |- *. apply andb_true_iff in H. tauto.
Qed.

Lemma increasingFrom_last_le (f : anchor -> num) (rest : list anchor) (prev : anchor) :
  increasingFrom f prev rest = true -> is_NaN (f prev) = false ->
  (f prev <=? f (last rest prev)) = true.
Proof.
  intros Hs Hn. destruct rest as [|next rest].
  - apply leb_refl. exact Hn.
  - apply ltb_leb. apply increasingFrom_last; [exact Hs|discriminate].
Qed.

Lemma scan_round_trip (rest : list anchor) :
  forall (prev : anchor) (dq : Q),
    forallb finiteAnchor (prev :: rest) = true ->
    increasingFrom time prev rest = true ->
    increasingFrom dist prev rest = true ->
    (dist prev <? Fin dq) = true ->
    (Fin dq <=? dist (last rest prev)) = true ->
    exists tq rq : Q,
      scanDist prev rest (Fin dq) = Some (Fin tq) /\
      (time prev <? Fin tq) = true /\
      (Fin tq <=? time (last rest prev)) = true /\
      ((Fin dq <? dist (last rest prev)) = true ->
       (Fin tq <? time (last rest prev)) = true) /\
      scanTime prev rest (Fin tq) = Some (Fin rq) /\
      (rq == dq)%Q.
Proof.
  induction rest as [|next rest IH]; intros prev dq Hfin Ht Hd Hlo Hhi.
  - cbn [last] in Hhi. exfalso. pose proof (ltb_not_geb _ _ Hlo) as H.
    unfold geb in H. congruence.
  - rewrite last_shift in *.
    cbn [forallb] in Hfin. apply andb_true_iff in Hfin. destruct Hfin as [Hfp Hfin].
    pose proof Hfin as Hfin'.
    cbn [forallb] in Hfin'. apply andb_true_iff in Hfin'. destruct Hfin' as [Hfn _].
    cbn [increasingFrom] in Ht, Hd.
    apply andb_true_iff in Ht. destruct Ht as [Ht1 Ht].
    apply andb_true_iff in Hd. destruct Hd as [Hd1 Hd].
    unfold finiteAnchor in Hfp, Hfn.
    apply andb_true_iff in Hfp. destruct Hfp as [Hfpt Hfpd].
    apply andb_true_iff in Hfn. destruct Hfn as [Hfnt Hfnd].
    destruct (is_finite_Fin _ Hfpt) as [pt Ept].
    destruct (is_finite_Fin _ Hfpd) as [pd Epd].
    destruct (is_finite_Fin _ Hfnt) as [nt Ent].
    destruct (is_finite_Fin _ Hfnd) as [nd End'].
    cbn [scanDist scanTime].
    rewrite Ept, Epd, Ent, End' in *.
    autorewrite with num_fin in Ht1, Hd1, Hlo |- *.
    qbool.
    destruct (Qle_bool dq nd) eqn:Hle.
    + qbool.
      assert (Hpd : (Qle_bool pd dq) = true) by (qbool; lra).
      rewrite Hpd. cbn [andb].
      rewrite div_Fin by lra.
      autorewrite with num_fin.
      destruct (frac_bounds _ _ _ Hlo Hle) as [Hf0 Hf1].
      set (f := ((dq - pd) / (nd - pd))%Q) in *.
      set (tq := (pt + f * (nt - pt))%Q).
      assert (Htq : (pt < tq /\ tq <= nt)%Q) by (unfold tq; split; nra).
      exists tq, (pd + (tq - pt) / (nt - pt) * (nd - pd))%Q.
      pose proof (forallb_last finiteAnchor rest next Hfin) as Hfl.
      unfold finiteAnchor in Hfl. apply andb_true_iff in Hfl.
      destruct Hfl as [Hflt Hfld].
      destruct (is_finite_Fin _ Hflt) as [lt Elt].
      destruct (is_finite_Fin _ Hfld) as [ld Eld].
      pose proof (increasingFrom_last_le time rest next Ht) as Hlt.
      rewrite Ent, Elt in Hlt. specialize (Hlt eq_refl).
      rewrite Elt, Eld in *. autorewrite with num_fin in *. qbool.
      repeat split.
      * qbool. tauto.
      * qbool. lra.
      * intros Hdl. qbool. destruct rest as [|next' rest'].
        -- cbn [last] in Elt, Eld. rewrite Ent in Elt. rewrite End' in Eld.
           injection Elt as <-. injection Eld as <-.
           pose proof (frac_lt_1 _ _ _ Hlo Hdl) as Hf. fold f in Hf. unfold tq. nra.
        -- pose proof (increasingFrom_last time (next' :: rest') next Ht) as Hs.
           rewrite Ent, Elt in Hs. autorewrite with num_fin in Hs.
           assert (Hne : next' :: rest' <> []) by discriminate.
           specialize (Hs Hne). qbool. lra.
      * assert (H1 : Qle_bool pt tq = true) by (qbool; lra).
        assert (H2 : Qle_bool tq nt = true) by (qbool; tauto).
        rewrite H1, H2. cbn [andb]. rewrite div_Fin by lra.
        autorewrite with num_fin. reflexivity.
      * unfold tq, f. field. split; lra.
    + rewrite andb_false_r. qbool.
      assert (Hlo' : (dist next <? Fin dq) = true)
        by (rewrite End'; autorewrite with num_fin; qbool; exact Hle).
      destruct (IH next dq Hfin Ht Hd Hlo' Hhi)
        as (tq & rq & Hsd & Htlo & Hthi & Hstrict & Hst & Hrq).
      exists tq, rq. rewrite Ent in Htlo. autorewrite with num_fin in Htlo. qbool.
      repeat split; try assumption.
      * autorewrite with num_fin. qbool. lra.
      * autorewrite with num_fin.
        assert (H2 : Qle_bool tq nt = false) by (qbool; exact Htlo).
        rewrite H2, andb_false_r. exact Hst.
Qed.

(* ------------------------------------------------------------------ *)
(** ** Exchanging time and distance *)

(** Takes the finite time and distance out of a finite anchor. *)
Ltac finite_anchor H t d Et Ed :=
  let H1 := fresh in let H2 := fresh in
  unfold finiteAnchor in H; apply andb_true_iff in H; destruct H as [H1 H2];
  destruct (is_finite_Fin _ H1) as [t Et];
  destruct (is_finite_Fin _ H2) as [d Ed]; clear H1 H2.

(** [distanceToTime] scans by distance as [interpolateDistanceForTime]
    scans by time. *)
Lemma scanDist_swap (rest : list anchor) :
  forall prev x,
    scanDist prev rest x = scanTime (swapAnchor prev) (map swapAnchor rest) x.
Proof.
  induction rest as [|next rest IH]; intros prev x; [reflexivity|].
  cbn [scanDist scanTime map swapAnchor time dist]. rewrite IH. reflexivity.
Qed.

Lemma scanTime_swap (rest : list anchor) :
  forall prev x,
    scanTime prev rest x = scanDist (swapAnchor prev) (map swapAnchor rest) x.
Proof.
  induction rest as [|next rest IH]; intros prev x; [reflexivity|].
  cbn [scanDist scanTime map swapAnchor time dist]. rewrite IH. reflexivity.
Qed.

Lemma last_map_swap (rest : list anchor) :
  forall prev, last (map swapAnchor rest) (swapAnchor prev) = swapAnchor (last rest prev).
Proof.
  induction rest as [|next rest IH]; intros prev; [reflexivity|].
  cbn [map]. rewrite !last_shift. apply IH.
Qed.

Lemma increasingFrom_swap (f : anchor -> num) (rest : list anchor) :
  forall prev,
    increasingFrom f (swapAnchor prev) (map swapAnchor rest)
    = increasingFrom (fun a => f (swapAnchor a)) prev rest.
Proof.
  induction rest as [|next rest IH]; intros prev; [reflexivity|].
  cbn [map increasingFrom]. rewrite IH. reflexivity.
Qed.

Lemma forallb_finite_swap (l : list anchor) :
  forallb finiteAnchor (map swapAnchor l) = forallb finiteAnchor l.
Proof.
  induction l as [|a l IH]; [reflexivity|]. cbn [map forallb]. rewrite IH.
  f_equal. unfold finiteAnchor, swapAnchor. cbn [time dist]. apply andb_comm.
Qed.

Lemma scanDist_fl_swap (round : Q -> num) (rest : list anchor) :
  forall prev x,
    scanDist_fl round prev rest x
    = scanTime_fl round (swapAnchor prev) (map swapAnchor rest) x.
Proof.
  induction rest as [|next rest IH]; intros prev x; [reflexivity|].
  cbn [scanDist_fl scanTime_fl map swapAnchor time dist]. rewrite IH. reflexivity.
Qed.

Lemma gapsFrom_swap (f : anchor -> num) (g : Q) (rest : list anchor) :
  forall prev,
    gapsFrom f g (swapAnchor prev) (map swapAnchor rest)
    = gapsFrom (fun a => f (swapAnchor a)) g prev rest.
Proof.
  induction rest as [|next rest IH]; intros prev; [reflexivity|].
  cbn [map gapsFrom]. rewrite IH. reflexivity.
Qed.

Lemma magnitudeWithin_swap (f : anchor -> num) (M : Q) (l : list anchor) :
  magnitudeWithin f M (map swapAnchor l)
  = magnitudeWithin (fun a => f (swapAnchor a)) M l.
Proof.
  unfold magnitudeWithin. induction l as [|a l IH]; [reflexivity|].
  cbn [map forallb]. rewrite IH. reflexivity.
Qed.

(** Gaps of at least a positive [g] make the values strictly increasing. *)
Lemma gapsFrom_increasing (f : anchor -> num) (g : Q) (rest : list anchor) :
  (0 < g)%Q ->
  forall prev, gapsFrom f g prev rest = true -> increasingFrom f prev rest = true.
Proof.
  intros Hg. induction rest as [|next rest IH]; intros prev H; [reflexivity|].
  cbn [gapsFrom increasingFrom] in *. apply andb_true_iff in H. destruct H as [H1 H2].
  rewrite (IH _ H2), andb_true_r.
  destruct (f prev) as [| |p|], (f next) as [| |n|]; try discriminate; try reflexivity.
  autorewrite with num_fin in H1 |- *. qbool. lra.
Qed.

(* ------------------------------------------------------------------ *)
(** ** Rounding errors of the interpolation *)

Lemma Qabs_le_iff (x y : Q) : (Qabs x <= y)%Q <-> (- y <= x /\ x <= y)%Q.
Proof. apply Qabs_Qle_condition. Qed.

Lemma Qmult_within (x y A B : Q) :
  (- A <= x /\ x <= A -> - B <= y /\ y <= B ->
   - (A * B) <= x * y /\ x * y <= A * B)%Q.
Proof. intros [H1 H2] [H3 H4]. split; nra. Qed.

(** The quotient of two rounded differences [a'] and [b'] against the
    exact fraction [a / b] in [[0, 1]]. *)
Lemma quotient_error (u eta a b a' b' : Q) :
  (0 <= u /\ u <= 1 # 16 -> 0 <= eta -> eta <= u * b ->
   0 <= a /\ a <= b -> 0 < b ->
   - (u * a + eta) <= a' - a /\ a' - a <= u * a + eta ->
   - (u * b + eta) <= b' - b /\ b' - b <= u * b + eta ->
   0 < b' /\ - (5 * u) <= a' / b' - a / b /\ a' / b' - a / b <= 5 * u)%Q.
Proof.
  intros Hu He Heb Ha Hb Ha' Hb'.
  assert (Hb'pos : (0 < b')%Q) by nra.
  split; [exact Hb'pos|].
  assert (Hub : (0 <= u * b)%Q) by nra.
  assert (Hua : (0 <= u * a /\ u * a <= u * b)%Q) by nra.
  assert (Huub : (0 <= u * (u * b) /\ u * (u * b) <= (1 # 16) * (u * b))%Q) by nra.
  assert (E : (a' / b' - a / b == (a' * b - a * b') / (b * b'))%Q) by (field; lra).
  rewrite E.
  assert (Hbb : (0 < b * b')%Q) by nra.
  split.
  - apply Qle_shift_div_l; [exact Hbb|]. nra.
  - apply Qle_shift_div_r; [exact Hbb|]. nra.
Qed.

Section RoundingError.

Variable round : Q -> num.
Variables u eta big : Q.
Hypothesis Hround : roundsWithin round u eta big.
Hypothesis Hu : (0 <= u /\ u <= 1 # 16)%Q.
Hypothesis Heta : (0 <= eta /\ eta <= u)%Q.

(** The rounding of a result of magnitude at most [M]. *)
Lemma round_within (x M : Q) :
  (- M <= x /\ x <= M)%Q -> (M <= big)%Q ->
  exists y, round x = Fin y /\
    (- (u * M + eta) <= y - x /\ y - x <= u * M + eta)%Q.
Proof.
  intros Hx HM.
  assert (Ha : (Qabs x <= M)%Q) by (apply Qabs_le_iff; exact Hx).
  destruct (Hround x) as (y & Hy & He); [lra|].
  exists y. split; [exact Hy|].
  apply Qabs_le_iff in He.
  assert (Hm : (u * Qabs x <= u * M)%Q) by nra.
  lra.
Qed.

(** The rounding of a non-negative result. *)
Lemma round_within_pos (x : Q) :
  (0 <= x)%Q -> (x <= big)%Q ->
  exists y, round x = Fin y /\
    (- (u * x + eta) <= y - x /\ y - x <= u * x + eta)%Q.
Proof.
  intros Hx HM. apply round_within; [lra|exact HM].
Qed.

(** One interpolation [v0 + (x - p0) / (p1 - p0) * (v1 - v0)] with its
    six operations rounded, for [x] between [p0] and [p1]. *)
Lemma lerp_fl_error (g P V p0 p1 x v0 v1 : Q) :
  (0 < g)%Q -> (eta <= u * g)%Q -> (g <= p1 - p0)%Q ->
  (p0 <= x /\ x <= p1)%Q ->
  (- P <= p0 /\ p1 <= P)%Q -> (2 * P <= big)%Q ->
  (- V <= v0 /\ v0 <= V)%Q -> (- V <= v1 /\ v1 <= V)%Q ->
  (5 * V + 3 <= big)%Q ->
  exists r,
    add_fl round (Fin v0)
      (mul_fl round
         (div_fl round (sub_fl round (Fin x) (Fin p0)) (sub_fl round (Fin p1) (Fin p0)))
         (sub_fl round (Fin v1) (Fin v0))) = Fin r /\
    (Qabs (r - (v0 + (x - p0) / (p1 - p0) * (v1 - v0))) <= 32 * (u * V + eta))%Q.
Proof.
  intros Hg Hetag Hgap Hx HP HbigP Hv0 Hv1 HbigV.
  destruct Hu as [Hu0 Hu1]. destruct Heta as [He0 He1].
  set (a := (x - p0)%Q). set (b := (p1 - p0)%Q).
  assert (Ha : (0 <= a /\ a <= b)%Q) by (unfold a, b; lra).
  assert (Hb : (0 < b)%Q) by (unfold b; lra).
  assert (HbP : (b <= 2 * P)%Q) by (unfold b; lra).
  assert (Hetab : (eta <= u * b)%Q) by (unfold b; nra).
  assert (HV : (0 <= V)%Q) by lra.
  destruct (round_within_pos a) as (a' & Ea & Ha'); [lra|lra|].
  destruct (round_within_pos b) as (b' & Eb & Hb'); [lra|lra|].
  destruct (quotient_error u eta a b a' b') as (Hb'pos & Hq); try assumption; try lra.
  set (F := (a / b)%Q) in *.
  assert (HF : (0 <= F /\ F <= 1)%Q).
  { unfold F. split; [apply Qle_shift_div_l | apply Qle_shift_div_r]; lra. }
  set (q := (a' / b')%Q) in *.
  destruct (round_within q 2) as (f' & Ef & Hf'); [lra|lra|].
  set (c := (v1 - v0)%Q).
  destruct (round_within c (2 * V)) as (c' & Ec & Hc'); [unfold c; lra|lra|].
  assert (HuV : (0 <= u * V /\ u * V <= (1 # 16) * V)%Q) by nra.
  assert (Hue : (0 <= u * eta /\ u * eta <= (1 # 16) * eta)%Q) by nra.
  assert (Hfe : (- (8 * u) <= f' - F /\ f' - F <= 8 * u)%Q) by lra.
  assert (Hfb : (- (3 # 2) <= f' /\ f' <= 3 # 2)%Q) by lra.
  assert (Hcb : (- ((17 # 8) * V + eta) <= c' /\ c' <= (17 # 8) * V + eta)%Q)
    by (unfold c in *; lra).
  pose proof (Qmult_within f' c' _ _ Hfb Hcb) as Hpr.
  destruct (round_within (f' * c') (4 * V + 2 * eta)) as (m' & Em & Hm'); [lra|lra|].
  destruct (round_within (v0 + m') (5 * V + 3 * eta)) as (r & Er & Hr); [lra|lra|].
  exists r. split.
  - unfold add_fl, mul_fl, div_fl, sub_fl. rewrite !sub_Fin. cbn [rounded].
    fold a b c. rewrite Ea, Eb, Ec. rewrite div_Fin by lra. cbn [rounded].
    fold q. rewrite Ef. rewrite mul_Fin. cbn [rounded]. rewrite Em.
    rewrite add_Fin. cbn [rounded]. exact Er.
  - apply Qabs_le_iff. fold a b F c.
    pose proof (Qmult_within (f' - F) c' _ _ Hfe Hcb) as H1.
    assert (Hcc : (- (2 * (u * V) + eta) <= c' - c /\ c' - c <= 2 * (u * V) + eta)%Q)
      by lra.
    assert (H2 : (- (2 * (u * V) + eta) <= F * (c' - c)
                  /\ F * (c' - c) <= 2 * (u * V) + eta)%Q) by nra.
    assert (E : (r - (v0 + F * c)
                 == (r - (v0 + m')) + (m' - f' * c') + ((f' - F) * c' + F * (c' - c)))%Q)
      by ring.
    rewrite E. lra.
Qed.

End RoundingError.

Lemma magnitude_Fin (q M : Q) :
  (abs (Fin q) <=? Fin M) = true -> (- M <= q /\ q <= M)%Q.
Proof.
  cbn [abs]. autorewrite with num_fin. intros H. qbool.
  apply Qabs_le_iff. exact H.
Qed.

Section ScanError.

Variable round : Q -> num.
Variables u eta big : Q.
Hypothesis Hround : roundsWithin round u eta big.
Hypothesis Hu : (0 <= u /\ u <= 1 # 16)%Q.
Hypothesis Heta : (0 <= eta /\ eta <= u)%Q.
Variable g : Q.
Hypothesis Hg : (0 < g)%Q.
Hypothesis Hetag : (eta <= u * g)%Q.

(** The rounded scan by time takes the branch of the exact scan and
    returns its value up to the error of one interpolation. *)
Lemma scanTime_fl_error (P V : Q) (rest : list anchor) :
  (2 * P <= big)%Q -> (5 * V + 3 <= big)%Q ->
  forall (prev : anchor) (t : Q),
    rest <> [] ->
    forallb finiteAnchor (prev :: rest) = true ->
    gapsFrom time g prev rest = true ->
    magnitudeWithin time P (prev :: rest) = true ->
    magnitudeWithin dist V (prev :: rest) = true ->
    (time prev <=? Fin t) = true ->
    (Fin t <=? time (last rest prev)) = true ->
    exists r e : Q,
      scanTime_fl round prev rest (Fin t) = Some (Fin r) /\
      scanTime prev rest (Fin t) = Some (Fin e) /\
      (Qabs (r - e) <= 32 * (u * V + eta))%Q.
Proof.
  intros HbigP HbigV.
  induction rest as [|next rest IH]; intros prev t Hne Hfin Hgap HmP HmV Hlo Hhi;
    [congruence|].
  rewrite last_shift in Hhi.
  cbn [forallb] in Hfin. apply andb_true_iff in Hfin. destruct Hfin as [Hfp Hfin].
  pose proof Hfin as Hfin'.
  cbn [forallb] in Hfin'. apply andb_true_iff in Hfin'. destruct Hfin' as [Hfn _].
  pose proof (forallb_last finiteAnchor rest next Hfin) as Hfl.
  finite_anchor Hfp pt pd Ept Epd. finite_anchor Hfn nt nd Ent End'.
  finite_anchor Hfl zt zd Elt Eld.
  cbn [gapsFrom] in Hgap. apply andb_true_iff in Hgap. destruct Hgap as [Hg1 Hgap].
  unfold magnitudeWithin in HmP, HmV. cbn [forallb] in HmP, HmV.
  apply andb_true_iff in HmP. destruct HmP as [HPp HmP].
  apply andb_true_iff in HmV. destruct HmV as [HVp HmV].
  pose proof HmP as HmP'. pose proof HmV as HmV'.
  cbn [forallb] in HmP', HmV'.
  apply andb_true_iff in HmP'. destruct HmP' as [HPn _].
  apply andb_true_iff in HmV'. destruct HmV' as [HVn _].
  assert (IHn : forall t, rest <> [] ->
            (time next <=? Fin t) = true -> (Fin t <=? time (last rest next)) = true ->
            exists r e : Q,
              scanTime_fl round next rest (Fin t) = Some (Fin r) /\
              scanTime next rest (Fin t) = Some (Fin e) /\
              (Qabs (r - e) <= 32 * (u * V + eta))%Q)
    by (intros; apply IH; assumption).
  clear IH.
  cbn [scanTime scanTime_fl].
  rewrite Ept, Epd, Ent, End', ?Elt in *.
  apply magnitude_Fin in HPp, HPn, HVp, HVn.
  autorewrite with num_fin in Hg1, Hlo, Hhi |- *. qbool.
  destruct (Qlt_le_dec nt t) as [Hlate|Hearly].
  - assert (E1 : Qle_bool t nt = false) by (qbool; exact Hlate).
    rewrite E1, !andb_false_r.
    assert (Hne' : rest <> []).
    { intros ->. cbn [last] in Elt. rewrite Ent in Elt. injection Elt as <-. lra. }
    apply IHn; [exact Hne'| |]; autorewrite with num_fin; qbool; lra.
  - assert (E1 : Qle_bool pt t = true) by (qbool; exact Hlo).
    assert (E1' : Qle_bool t nt = true) by (qbool; exact Hearly).
    rewrite E1, E1'. cbn [andb]. rewrite div_Fin by lra. autorewrite with num_fin.
    destruct (lerp_fl_error round u eta big Hround Hu Heta g P V pt nt t pd nd)
      as (r & Hr & Herr); try assumption; try lra.
    exists r. eexists. split; [rewrite Hr; reflexivity|]. split; [reflexivity|].
    exact Herr.
Qed.

End ScanError.

(* ------------------------------------------------------------------ *)
(** ** The exact interpolation changes by at most the steepest slope *)

Lemma scanTime_lipschitz (L : Q) (rest : list anchor) :
  forall (prev : anchor) (t t' : Q),
    rest <> [] ->
    forallb finiteAnchor (prev :: rest) = true ->
    increasingFrom time prev rest = true ->
    slopesFrom L prev rest = true ->
    (time prev <=? Fin t) = true -> (t <= t')%Q ->
    (Fin t' <=? time (last rest prev)) = true ->
    exists r r' : Q,
      scanTime prev rest (Fin t) = Some (Fin r) /\
      scanTime prev rest (Fin t') = Some (Fin r') /\
      (Qabs (r' - r) <= L * (t' - t))%Q /\
      (Fin t === time prev -> Fin r === dist prev) /\
      (Fin t' === time (last rest prev) -> Fin r' === dist (last rest prev)).
Proof.
  induction rest as [|next rest IH]; intros prev t t' Hne Hfin Ht Hs Hlo Htt Hhi;
    [congruence|].
  rewrite last_shift in *.
  cbn [forallb] in Hfin. apply andb_true_iff in Hfin. destruct Hfin as [Hfp Hfin].
  pose proof Hfin as Hfin'.
  cbn [forallb] in Hfin'. apply andb_true_iff in Hfin'. destruct Hfin' as [Hfn _].
  pose proof (forallb_last finiteAnchor rest next Hfin) as Hfl.
  finite_anchor Hfp pt pd Ept Epd. finite_anchor Hfn nt nd Ent End'.
  finite_anchor Hfl zt zd Elt Eld.
  cbn [increasingFrom slopesFrom] in Ht, Hs.
  apply andb_true_iff in Ht. destruct Ht as [Ht1 Ht].
  apply andb_true_iff in Hs. destruct Hs as [Hs1 Hs].
  pose proof (increasingFrom_last_le time rest next Ht) as Hnz.
  assert (IHn : forall t t', rest <> [] ->
            (time next <=? Fin t) = true -> (t <= t')%Q ->
            (Fin t' <=? time (last rest next)) = true ->
            exists r r' : Q,
              scanTime next rest (Fin t) = Some (Fin r) /\
              scanTime next rest (Fin t') = Some (Fin r') /\
              (Qabs (r' - r) <= L * (t' - t))%Q /\
              (Fin t === time next -> Fin r === dist next) /\
              (Fin t' === time (last rest next) -> Fin r' === dist (last rest next)))
    by (intros; apply IH; assumption).
  assert (Hlast : rest = [] -> zt = nt /\ zd = nd).
  { intros ->. cbn [last] in Elt, Eld. rewrite Ent in Elt. rewrite End' in Eld.
    injection Elt as <-. injection Eld as <-. split; reflexivity. }
  assert (Hstrict : rest <> [] -> (nt < zt)%Q).
  { intros Hr. pose proof (increasingFrom_last time rest next Ht Hr) as H.
    rewrite Ent, Elt in H. autorewrite with num_fin in H. qbool. exact H. }
  clear IH.
  cbn [scanTime].
  rewrite Ept, Epd, Ent, End', ?Elt, ?Eld in *. specialize (Hnz eq_refl).
  autorewrite with num_fin in Hs1. cbn [abs] in Hs1.
  autorewrite with num_fin in Ht1, Hs1, Hlo, Hhi, Hnz |- *. qbool.
  apply Qabs_le_iff in Hs1.
  cbn [num_eq].
  destruct (Qlt_le_dec nt t) as [Hlate|Hearly].
  - (* both after the first pair *)
    assert (E1 : Qle_bool t nt = false) by (qbool; exact Hlate).
    assert (E2 : Qle_bool t' nt = false) by (qbool; lra).
    rewrite E1, E2, !andb_false_r.
    assert (Hne' : rest <> []).
    { intros E. destruct (Hlast E) as [-> _]. lra. }
    destruct (IHn t t' Hne') as (r & r' & H1 & H2 & H3 & H4 & H5);
      [autorewrite with num_fin; qbool; lra | exact Htt
       | autorewrite with num_fin; qbool; exact Hhi |].
    exists r, r'. repeat split; try assumption. intros E. lra.
  - assert (E1 : Qle_bool pt t = true) by (qbool; exact Hlo).
    assert (E1' : Qle_bool t nt = true) by (qbool; exact Hearly).
    rewrite E1, E1'. cbn [andb]. rewrite div_Fin by lra. autorewrite with num_fin.
    set (f := ((t - pt) / (nt - pt))%Q).
    assert (Ef : (f * (nt - pt) == t - pt)%Q) by (unfold f; field; lra).
    assert (Hf : (0 <= f /\ f <= 1)%Q).
    { unfold f. split; [apply Qle_shift_div_l | apply Qle_shift_div_r]; lra. }
    destruct (Qlt_le_dec nt t') as [Hlate'|Hearly'].
    + (* [t] in the first pair, [t'] after it *)
      assert (E2 : Qle_bool t' nt = false) by (qbool; exact Hlate').
      rewrite E2, andb_false_r.
      assert (Hne' : rest <> []).
      { intros E. destruct (Hlast E) as [-> _]. lra. }
      destruct (IHn nt t' Hne') as (r & r' & H1 & H2 & H3 & H4 & H5);
        [autorewrite with num_fin; qbool; lra | lra
         | autorewrite with num_fin; qbool; exact Hhi |].
      cbn [num_eq] in H4, H5. specialize (H4 ltac:(reflexivity)).
      apply Qabs_le_iff in H3.
      exists (pd + f * (nd - pd))%Q, r'.
      split; [reflexivity|]. split; [exact H2|]. split; [|split].
      * apply Qabs_le_iff.
        assert (E : (r' - (pd + f * (nd - pd))
                     == (r' - r) + (r - nd) + (1 - f) * (nd - pd))%Q) by ring.
        rewrite E.
        assert (Hx : (- (L * (nt - t)) <= (1 - f) * (nd - pd)
                      /\ (1 - f) * (nd - pd) <= L * (nt - t))%Q).
        { assert (EL : (L * (f * (nt - pt)) == L * (t - pt))%Q)
            by (rewrite Ef; reflexivity).
          assert (E3 : (L * (nt - t) == (1 - f) * (L * (nt - pt)))%Q) by lra.
          rewrite E3. split; nra. }
        rewrite H4. lra.
      * intros E. assert (E0 : (f == 0)%Q) by nra. rewrite E0. ring.
      * exact H5.
    + (* both in the first pair *)
      assert (E2 : Qle_bool pt t' = true) by (qbool; lra).
      assert (E2' : Qle_bool t' nt = true) by (qbool; exact Hearly').
      rewrite E2, E2'. cbn [andb]. rewrite div_Fin by lra. autorewrite with num_fin.
      set (f' := ((t' - pt) / (nt - pt))%Q).
      assert (Ef' : (f' * (nt - pt) == t' - pt)%Q) by (unfold f'; field; lra).
      assert (Hf' : (f <= f' /\ f' <= 1)%Q) by (split; nra).
      exists (pd + f * (nd - pd))%Q, (pd + f' * (nd - pd))%Q.
      split; [reflexivity|]. split; [reflexivity|]. split; [|split].
      * apply Qabs_le_iff.
        assert (E : (pd + f' * (nd - pd) - (pd + f * (nd - pd))
                     == (f' - f) * (nd - pd))%Q) by ring.
        rewrite E.
        assert (EL : (L * (f * (nt - pt)) == L * (t - pt))%Q)
          by (rewrite Ef; reflexivity).
        assert (EL' : (L * (f' * (nt - pt)) == L * (t' - pt))%Q)
          by (rewrite Ef'; reflexivity).
        assert (E3 : (L * (t' - t) == (f' - f) * (L * (nt - pt)))%Q) by lra.
        rewrite E3. split; nra.
      * intros E. assert (E0 : (f == 0)%Q) by nra. rewrite E0. ring.
      * intros E. destruct rest as [|next' rest'].
        -- destruct (Hlast eq_refl) as [Hz1 Hz2]. subst zt zd.
           assert (E0 : (f' == 1)%Q) by nra. rewrite E0. ring.
        -- assert (Hn : (nt < zt)%Q) by (apply Hstrict; discriminate). lra.
Qed.

(* ------------------------------------------------------------------ *)
(** ** The round trip under rounding *)

Section RoundTripError.

Variable round : Q -> num.
Variables u eta big : Q.
Hypothesis Hround : roundsWithin round u eta big.
Hypothesis Hu : (0 <= u /\ u <= 1 # 16)%Q.
Hypothesis Heta : (0 <= eta /\ eta <= u)%Q.
Variable g : Q.
Hypothesis Hg : (0 < g)%Q.
Hypothesis Hetag : (eta <= u * g)%Q.

(** The rounded scan by distance against the exact one. *)
Lemma scanDist_fl_error (P V : Q) (rest : list anchor) (prev : anchor) (d : Q) :
  (2 * P <= big)%Q -> (5 * V + 3 <= big)%Q ->
  rest <> [] ->
  forallb finiteAnchor (prev :: rest) = true ->
  gapsFrom dist g prev rest = true ->
  magnitudeWithin dist P (prev :: rest) = true ->
  magnitudeWithin time V (prev :: rest) = true ->
  (dist prev <=? Fin d) = true ->
  (Fin d <=? dist (last rest prev)) = true ->
  exists r e : Q,
    scanDist_fl round prev rest (Fin d) = Some (Fin r) /\
    scanDist prev rest (Fin d) = Some (Fin e) /\
    (Qabs (r - e) <= 32 * (u * V + eta))%Q.
Proof.
  intros HbigP HbigV Hne Hfin Hgap HmP HmV Hlo Hhi.
  rewrite scanDist_fl_swap, scanDist_swap.
  apply (scanTime_fl_error round u eta big Hround Hu Heta g Hg Hetag P V);
    try assumption.
  - intros E. apply map_eq_nil in E. contradiction.
  - change (swapAnchor prev :: map swapAnchor rest) with (map swapAnchor (prev :: rest)).
    rewrite forallb_finite_swap. exact Hfin.
  - rewrite gapsFrom_swap. exact Hgap.
  - change (swapAnchor prev :: map swapAnchor rest) with (map swapAnchor (prev :: rest)).
    rewrite magnitudeWithin_swap. exact HmP.
  - change (swapAnchor prev :: map swapAnchor rest) with (map swapAnchor (prev :: rest)).
    rewrite magnitudeWithin_swap. exact HmV.
  - rewrite last_map_swap. exact Hhi.
Qed.

(** The rounded [interpolateDistanceForTime] against the exact one at
    the same finite time: the same branch, and an error only where it
    interpolates. *)
Lemma interpolate_fl_error (T D : Q) (first : anchor) (rest : list anchor) (s : Q) :
  (2 * T <= big)%Q -> (5 * D + 3 <= big)%Q ->
  forallb finiteAnchor (first :: rest) = true ->
  gapsFrom time g first rest = true ->
  magnitudeWithin time T (first :: rest) = true ->
  magnitudeWithin dist D (first :: rest) = true ->
  exists r e : Q,
    interpolateDistanceForTime_fl round (first :: rest) (Fin s) = Normal (Fin r) /\
    interpolateDistanceForTime (first :: rest) (Fin s) = Normal (Fin e) /\
    (Qabs (r - e) <= 32 * (u * D + eta))%Q.
Proof.
  intros HbigT HbigD Hfin Hgap HmT HmD.
  pose proof (forallb_last finiteAnchor rest first Hfin) as Hfl.
  pose proof Hfin as Hfin0.
  cbn [forallb] in Hfin0. apply andb_true_iff in Hfin0. destruct Hfin0 as [Hff _].
  finite_anchor Hff ft fd Eft Efd. finite_anchor Hfl zt zd Ezt Ezd.
  assert (HD0 : (0 <= D)%Q).
  { unfold magnitudeWithin in HmD. cbn [forallb] in HmD.
    apply andb_true_iff in HmD. destruct HmD as [H _]. rewrite Efd in H.
    apply magnitude_Fin in H. lra. }
  assert (Hzero : forall x : Q, (Qabs (x - x) <= 32 * (u * D + eta))%Q).
  { intros x. apply Qabs_le_iff. destruct Hu, Heta. split; nra. }
  unfold interpolateDistanceForTime_fl, interpolateDistanceForTime.
  cbn [idx nth_error prop bind at_last]. rewrite Eft, Efd, Ezt, Ezd. unfold geb.
  autorewrite with num_fin.
  destruct (Qle_bool s ft) eqn:E1; [exists fd, fd; auto|].
  destruct (Qle_bool zt s) eqn:E2; [exists zd, zd; auto|].
  qbool.
  destruct rest as [|next rest'].
  { exfalso. cbn [last] in Ezt. rewrite Eft in Ezt. injection Ezt as <-. lra. }
  change (length (first :: next :: rest') <? 2)%nat with false. cbv iota.
  destruct (scanTime_fl_error round u eta big Hround Hu Heta g Hg Hetag T D
              (next :: rest') HbigT HbigD first s) as (r & e & H1 & H2 & H3);
    try assumption; try discriminate.
  - rewrite Eft. autorewrite with num_fin. qbool. lra.
  - rewrite Ezt. autorewrite with num_fin. qbool. lra.
  - exists r, e. rewrite H1, H2. auto.
Qed.

End RoundTripError.

(** The exact [interpolateDistanceForTime] moves by at most [L] times
    the distance in time from a time [tq] within the anchors' range. *)
Lemma interpolate_lipschitz (L : Q) (first : anchor) (rest : list anchor) (s tq : Q) :
  rest <> [] ->
  forallb finiteAnchor (first :: rest) = true ->
  increasingFrom time first rest = true ->
  slopesFrom L first rest = true ->
  (time first <=? Fin tq) = true ->
  (Fin tq <=? time (last rest first)) = true ->
  exists e q : Q,
    interpolateDistanceForTime (first :: rest) (Fin s) = Normal (Fin e) /\
    scanTime first rest (Fin tq) = Some (Fin q) /\
    (0 <= L)%Q /\
    (Qabs (e - q) <= L * Qabs (s - tq))%Q.
Proof.
  intros Hne Hfin Htime Hslope Hlo Hhi.
  pose proof (forallb_last finiteAnchor rest first Hfin) as Hfl.
  pose proof Hfin as Hfin0.
  cbn [forallb] in Hfin0. apply andb_true_iff in Hfin0. destruct Hfin0 as [Hff _].
  finite_anchor Hff ft fd Eft Efd. finite_anchor Hfl zt zd Ezt Ezd.
  pose proof (increasingFrom_last time rest first Htime Hne) as Hfz.
  rewrite Eft in Hfz, Hlo. rewrite Ezt in Hfz, Hhi.
  autorewrite with num_fin in Hfz, Hlo, Hhi. qbool.
  assert (Hlip : forall a b : Q, (ft <= a)%Q -> (a <= b)%Q -> (b <= zt)%Q ->
            exists r r' : Q,
              scanTime first rest (Fin a) = Some (Fin r) /\
              scanTime first rest (Fin b) = Some (Fin r') /\
              (Qabs (r' - r) <= L * (b - a))%Q /\
              ((a == ft)%Q -> (r == fd)%Q) /\ ((b == zt)%Q -> (r' == zd)%Q)).
  { intros a b Ha Hab Hb.
    destruct (scanTime_lipschitz L rest first a b Hne Hfin Htime Hslope)
      as (r & r' & H1 & H2 & H3 & H4 & H5).
    - rewrite Eft. autorewrite with num_fin. qbool. exact Ha.
    - exact Hab.
    - rewrite Ezt. autorewrite with num_fin. qbool. exact Hb.
    - rewrite Eft, Efd in H4. rewrite Ezt, Ezd in H5. cbn [num_eq] in H4, H5.
      exists r, r'. auto. }
  assert (HL : (0 <= L)%Q).
  { destruct (Hlip ft zt) as (r & r' & _ & _ & H & _); try lra.
    pose proof (Qabs_nonneg (r' - r)). nra. }
  destruct (Hlip tq tq) as (q & q' & Hq & _); try lra.
  assert (Hsame : forall x y : Q,
            scanTime first rest (Fin tq) = Some (Fin x) ->
            scanTime first rest (Fin tq) = Some (Fin y) -> x = y)
    by (intros x y Hx Hy; congruence).
  unfold interpolateDistanceForTime.
  cbn [idx nth_error prop bind at_last]. rewrite Eft, Efd, Ezt, Ezd. unfold geb.
  autorewrite with num_fin.
  destruct (Qle_bool s ft) eqn:E1.
  { (* at or before the first time *)
    qbool. destruct (Hlip ft tq) as (r & r' & H1 & H2 & H3 & H4 & _); try lra.
    rewrite (Hsame _ _ H2 Hq) in *. specialize (H4 ltac:(reflexivity)).
    exists fd, q. repeat split; try assumption; try reflexivity.
    apply Qabs_le_iff in H3. apply Qabs_le_iff.
    rewrite (Qabs_neg (s - tq)) by lra. rewrite H4 in H3. split; nra. }
  destruct (Qle_bool zt s) eqn:E2.
  { (* at or after the last time *)
    qbool. destruct (Hlip tq zt) as (r & r' & H1 & H2 & H3 & _ & H5); try lra.
    rewrite (Hsame _ _ H1 Hq) in *. specialize (H5 ltac:(reflexivity)).
    exists zd, q. repeat split; try assumption; try reflexivity.
    apply Qabs_le_iff in H3. apply Qabs_le_iff.
    rewrite (Qabs_pos (s - tq)) by lra. rewrite H5 in H3. split; nra. }
  qbool.
  destruct rest as [|next rest']; [congruence|].
  change (length (first :: next :: rest') <? 2)%nat with false. cbv iota.
  destruct (Qlt_le_dec s tq) as [Hs|Hs].
  - destruct (Hlip s tq) as (r & r' & H1 & H2 & H3 & _); try lra.
    rewrite (Hsame _ _ H2 Hq) in *. rewrite H1.
    exists r, q. repeat split; try assumption; try reflexivity.
    apply Qabs_le_iff in H3. apply Qabs_le_iff.
    rewrite (Qabs_neg (s - tq)) by lra. split; lra.
  - destruct (Hlip tq s) as (r & r' & H1 & H2 & H3 & _); try lra.
    rewrite (Hsame _ _ H1 Hq) in *. rewrite H2.
    exists r', q. repeat split; try assumption; try reflexivity.
    apply Qabs_le_iff in H3. apply Qabs_le_iff.
    rewrite (Qabs_pos (s - tq)) by lra. split; lra.
Qed.

(* ------------------------------------------------------------------ *)
(** ** The rounding of binary64 *)

Lemma nearestEven_near (x : Q) :
  (- (1 # 2) <= inject_Z (nearestEven x) - x /\ inject_Z (nearestEven x) - x <= 1 # 2)%Q.
Proof.
  unfold nearestEven.
  pose proof (Qfloor_le x) as H1. pose proof (Qlt_floor x) as H2.
  rewrite inject_Z_plus in H2. change (inject_Z 1) with 1%Q in H2.
  set (f := Qfloor x) in *.
  unfold Qlt_bool.
  destruct (Qle_bool (1 # 2) (x - inject_Z f)) eqn:A; cbn [negb].
  - apply Qle_bool_iff in A.
    destruct (Qle_bool (x - inject_Z f) (1 # 2)) eqn:B; cbn [negb].
    + apply Qle_bool_iff in B.
      destruct (Z.even f); [|rewrite inject_Z_plus]; change (inject_Z 1) with 1%Q; split; lra.
    + assert (1 # 2 < x - inject_Z f)%Q.
      { apply Qnot_le_lt. intros H. apply Qle_bool_iff in H. congruence. }
      rewrite inject_Z_plus. change (inject_Z 1) with 1%Q. split; lra.
  - assert (x - inject_Z f < 1 # 2)%Q.
    { apply Qnot_le_lt. intros H. apply Qle_bool_iff in H. congruence. }
    split; lra.
Qed.

Lemma two_pow_pos (z : Z) : (0 < 2 ^ z)%Q.
Proof. apply Qpower_0_lt. reflexivity. Qed.

Lemma two_pow_plus (n m : Z) : (2 ^ (n + m) == 2 ^ n * 2 ^ m)%Q.
Proof. apply Qpower_plus. discriminate. Qed.

Lemma two_pow_Z (z : Z) : (0 <= z)%Z -> (inject_Z (2 ^ z) == 2 ^ z)%Q.
Proof. intros H. rewrite Zpower_Qpower by exact H. reflexivity. Qed.

(** [log2floor a] is the exponent [k] with [2 ^ k <= a < 2 ^ (k + 1)]. *)
Lemma log2floor_le (a : Q) : (0 < a)%Q -> (2 ^ log2floor a <= a)%Q.
Proof.
  intros Ha. unfold log2floor.
  set (ln := Z.log2 (Qnum a)). set (ld := Z.log2 (Zpos (Qden a))).
  destruct (Qle_bool (2 ^ (ln - ld)) a) eqn:E; [apply Qle_bool_iff; exact E|].
  destruct a as [n d]. cbn [Qnum Qden] in *.
  assert (Hn : (0 < n)%Z) by (unfold Qlt in Ha; simpl in Ha; lia).
  destruct (Z.log2_spec n Hn) as [Hn1 _]. fold ln in Hn1.
  destruct (Z.log2_spec (Zpos d) eq_refl) as [_ Hd2]. fold ld in Hd2.
  assert (Hln : (0 <= ln)%Z) by apply Z.log2_nonneg.
  assert (Hld : (0 <= ld)%Z) by apply Z.log2_nonneg.
  replace (ln - ld - 1)%Z with (ln + - (Z.succ ld))%Z by lia.
  rewrite two_pow_plus, Qpower_opp.
  rewrite <- (two_pow_Z ln Hln), <- (two_pow_Z (Z.succ ld)) by lia.
  assert (H1 : (inject_Z (2 ^ ln) <= inject_Z n)%Q) by (rewrite <- Zle_Qle; exact Hn1).
  assert (H2 : (inject_Z (Zpos d) <= inject_Z (2 ^ Z.succ ld))%Q)
    by (rewrite <- Zle_Qle; lia).
  assert (H0 : (0 < inject_Z (2 ^ ln))%Q).
  { rewrite two_pow_Z by exact Hln. apply two_pow_pos. }
  assert (Hd : (0 < inject_Z (Zpos d))%Q) by reflexivity.
  assert (E2 : (n # d == inject_Z n / inject_Z (Zpos d))%Q) by apply Qmake_Qdiv.
  rewrite E2.
  apply Qle_shift_div_l; [exact Hd|].
  set (A := inject_Z (2 ^ ln)) in *. set (B := inject_Z (2 ^ Z.succ ld)) in *.
  set (N := inject_Z n) in *. set (Dn := inject_Z (Zpos d)) in *.
  assert (HB : (0 < B)%Q) by lra.
  assert (E3 : (A * / B * Dn == A * (Dn / B))%Q) by (field; lra).
  rewrite E3.
  assert (Hf : (Dn / B <= 1)%Q) by (apply Qle_shift_div_r; lra).
  assert (Hf0 : (0 <= Dn / B)%Q) by (apply Qle_shift_div_l; lra).
  nra.
Qed.

Lemma log2floor_lt (a : Q) : (0 < a)%Q -> (a < 2 ^ (log2floor a + 1))%Q.
Proof.
  intros Ha. unfold log2floor.
  set (ln := Z.log2 (Qnum a)). set (ld := Z.log2 (Zpos (Qden a))).
  destruct (Qle_bool (2 ^ (ln - ld)) a) eqn:E.
  - destruct a as [n d]. cbn [Qnum Qden] in *.
    assert (Hn : (0 < n)%Z) by (unfold Qlt in Ha; simpl in Ha; lia).
    destruct (Z.log2_spec n Hn) as [_ Hn2]. fold ln in Hn2.
    destruct (Z.log2_spec (Zpos d) eq_refl) as [Hd1 _]. fold ld in Hd1.
    assert (Hln : (0 <= ln)%Z) by apply Z.log2_nonneg.
    assert (Hld : (0 <= ld)%Z) by apply Z.log2_nonneg.
    replace (ln - ld + 1)%Z with (Z.succ ln + - ld)%Z by lia.
    rewrite two_pow_plus, Qpower_opp.
    rewrite <- (two_pow_Z (Z.succ ln)), <- (two_pow_Z ld Hld) by lia.
    assert (H1 : (inject_Z n < inject_Z (2 ^ Z.succ ln))%Q) by (rewrite <- Zlt_Qlt; exact Hn2).
    assert (H2 : (inject_Z (2 ^ ld) <= inject_Z (Zpos d))%Q)
      by (rewrite <- Zle_Qle; exact Hd1).
    assert (H0 : (0 < inject_Z (2 ^ ld))%Q).
    { rewrite two_pow_Z by exact Hld. apply two_pow_pos. }
    assert (Hd : (0 < inject_Z (Zpos d))%Q) by reflexivity.
    assert (E2 : (n # d == inject_Z n / inject_Z (Zpos d))%Q) by apply Qmake_Qdiv.
    rewrite E2.
    apply Qlt_shift_div_r; [exact Hd|].
    set (A := inject_Z (2 ^ Z.succ ln)) in *. set (B := inject_Z (2 ^ ld)) in *.
    set (N := inject_Z n) in *. set (Dn := inject_Z (Zpos d)) in *.
    assert (HA : (0 < A)%Q).
    { unfold A. rewrite two_pow_Z by lia. apply two_pow_pos. }
    assert (E3 : (A * / B * Dn == A * (Dn / B))%Q) by (field; lra).
    rewrite E3.
    assert (Hf : (1 <= Dn / B)%Q) by (apply Qle_shift_div_l; lra).
    nra.
  - replace (ln - ld - 1 + 1)%Z with (ln - ld)%Z by lia.
    apply Qnot_le_lt. intros H. apply Qle_bool_iff in H. congruence.
Qed.

Lemma binary64_roundsWithin :
  roundsWithin binary64 binary64_u binary64_eta binary64_max.
Proof.
  intros x Hx. unfold binary64.
  destruct (Qeq_bool x 0) eqn:E0.
  { apply Qeq_bool_iff in E0. exists 0%Q. split; [reflexivity|].
    rewrite E0. vm_compute. discriminate. }
  assert (Hx0 : ~ (x == 0)%Q).
  { intros H. apply Qeq_bool_iff in H. congruence. }
  set (a := Qabs x) in *.
  assert (Ha : (0 < a)%Q).
  { pose proof (Qabs_nonneg x) as H. fold a in H.
    destruct (Qle_lt_or_eq _ _ H) as [H1|H1]; [exact H1|].
    exfalso. apply Hx0.
    destruct (proj1 (Qabs_le_iff x 0)) as [A B]; [fold a; lra|].
    apply Qle_antisym; lra. }
  pose proof (log2floor_le a Ha) as Hk. set (k := log2floor a) in *.
  assert (Hk1 : (k < 1024)%Z).
  { apply (Qpower_lt_compat_l_inv 2); [|reflexivity].
    eapply Qle_lt_trans; [exact Hk|]. eapply Qle_lt_trans; [exact Hx|].
    vm_compute. reflexivity. }
  set (e := Z.max (k - 52) (-1074)).
  assert (HP : (0 < 2 ^ e)%Q) by apply two_pow_pos.
  assert (HP1 : (2 ^ e <= 2 ^ 971)%Q).
  { apply Qpower_le_compat_l; [unfold e; lia|discriminate]. }
  assert (Hhalf : (2 ^ e * (1 # 2) <= binary64_u * a + binary64_eta)%Q).
  { assert (Hu : (0 < binary64_u)%Q) by reflexivity.
    assert (He : (0 < binary64_eta)%Q) by reflexivity.
    unfold e. destruct (Z.max_spec (k - 52) (-1074)) as [[_ ->]|[_ ->]].
    - assert (E : (2 ^ (-1074) * (1 # 2) == binary64_eta)%Q) by reflexivity.
      rewrite E. nra.
    - replace (k - 52)%Z with (k + -52)%Z by lia. rewrite two_pow_plus.
      assert (E : (2 ^ k * 2 ^ (-52) * (1 # 2) == binary64_u * 2 ^ k)%Q).
      { assert (E' : (2 ^ (-52) * (1 # 2) == binary64_u)%Q) by reflexivity.
        rewrite <- E'. ring. }
      rewrite E. nra. }
  set (P := (2 ^ e)%Q) in *.
  pose proof (nearestEven_near (a / P)) as Hm.
  set (m := inject_Z (nearestEven (a / P))) in *.
  assert (Es : (a / P * P == a)%Q) by (field; lra).
  assert (Hr : (- (P * (1 # 2)) <= m * P - a /\ m * P - a <= P * (1 # 2))%Q).
  { assert (E : (m * P - a == (m - a / P) * P)%Q) by (rewrite <- Es at 1; ring).
    rewrite E. split; nra. }
  assert (Hmax : (binary64_max + 2 ^ 971 * (1 # 2) < 2 ^ 1024)%Q) by reflexivity.
  assert (Hnov : Qle_bool (2 ^ 1024) (m * P) = false).
  { destruct (Qle_bool (2 ^ 1024) (m * P)) eqn:E; [|reflexivity].
    apply Qle_bool_iff in E. exfalso.
    assert (HPh : (P * (1 # 2) <= 2 ^ 971 * (1 # 2))%Q) by lra.
    lra. }
  rewrite Hnov. eexists. split; [reflexivity|].
  apply Qabs_le_iff. unfold Qlt_bool.
  destruct (Qle_bool 0 x) eqn:Es0; cbn [negb].
  - apply Qle_bool_iff in Es0.
    assert (Ex : (x == a)%Q) by (unfold a; rewrite Qabs_pos; [reflexivity|exact Es0]).
    rewrite Ex. split; lra.
  - assert (Hneg : (x < 0)%Q).
    { apply Qnot_le_lt. intros H. apply Qle_bool_iff in H. congruence. }
    assert (Ex : (x == - a)%Q).
    { unfold a. rewrite Qabs_neg by lra. ring. }
    rewrite Ex. split; lra.
Qed.

(** The error parameters of [binary64], for gaps of at least the
    smallest normal value. *)
Lemma binary64_errors (g : Q) :
  (binary64_normal <= g)%Q ->
  (0 <= binary64_u /\ binary64_u <= 1 # 16)%Q /\
  (0 <= binary64_eta /\ binary64_eta <= binary64_u)%Q /\
  (0 < g)%Q /\ (binary64_eta <= binary64_u * g)%Q.
Proof.
  intros Hg.
  assert (Hn : (0 < binary64_normal)%Q) by reflexivity.
  assert (Hu : (0 < binary64_u)%Q) by reflexivity.
  assert (E : (binary64_eta == binary64_u * binary64_normal)%Q) by reflexivity.
  repeat split; try (vm_compute; discriminate).
  - lra.
  - rewrite E. nra.
Qed.

(* ------------------------------------------------------------------ *)
(** ** The round trip from distance to time and back *)

(** The round trip under any rounding with relative error [u] and
    absolute error [eta] on results up to [big]: the error of the time
    at distance [d] is carried through the interpolation of the distance
    with the slope [L], and the error of that interpolation is added. *)
Lemma rounded_round_trip_from_distance
    (round : Q -> num) (u eta big g T D L : Q)
    (first : anchor) (rest : list anchor) (d : Q)
    (Hround : roundsWithin round u eta big)
    (Hu : (0 <= u /\ u <= 1 # 16)%Q)
    (Heta : (0 <= eta /\ eta <= u)%Q)
    (Hg : (0 < g)%Q) (Hetag : (eta <= u * g)%Q)
    (HbigT : (5 * T + 3 <= big)%Q) (HbigD : (5 * D + 3 <= big)%Q)
    (Hlen : (2 <= length (first :: rest))%nat)
    (Hfin : forallb finiteAnchor (first :: rest) = true)
    (Htime : gapsAtLeast time g (first :: rest) = true)
    (Hdist : gapsAtLeast dist g (first :: rest) = true)
    (HT : magnitudeWithin time T (first :: rest) = true)
    (HD : magnitudeWithin dist D (first :: rest) = true)
    (HL : slopesWithin L (first :: rest) = true)
    (Hlo : (dist first <? Fin d) = true)
    (Hhi : (Fin d <? dist (last rest first)) = true) :
  exists t r : Q,
    distanceToTime_fl round (first :: rest) (Fin d) = Fin t /\
    interpolateDistanceForTime_fl round (first :: rest) (Fin t) = Normal (Fin r) /\
    (Qabs (r - d) <= 32 * (u * (D + L * T) + eta * (1 + L)))%Q.
Proof.
  cbn [gapsAtLeast slopesWithin] in Htime, Hdist, HL.
  pose proof (gapsFrom_increasing time g rest Hg first Htime) as Hti.
  pose proof (gapsFrom_increasing dist g rest Hg first Hdist) as Hdi.
  assert (Hne : rest <> []) by (intros ->; simpl in Hlen; lia).
  assert (HT0 : (0 <= T)%Q /\ (0 <= D)%Q).
  { pose proof Hfin as Hfin0.
    cbn [forallb] in Hfin0. apply andb_true_iff in Hfin0. destruct Hfin0 as [Hff _].
    finite_anchor Hff ft fd Eft Efd.
    unfold magnitudeWithin in HT, HD. cbn [forallb] in HT, HD.
    apply andb_true_iff in HT, HD. destruct HT as [H1 _], HD as [H2 _].
    rewrite Eft in H1. rewrite Efd in H2.
    apply magnitude_Fin in H1, H2. split; lra. }
  destruct HT0 as [HT0 HD0].
  (* the exact round trip *)
  destruct (scan_round_trip rest first d Hfin Hti Hdi Hlo (ltb_leb _ _ Hhi))
    as (tq & rq & Hsd & Htlo & Hthi & _ & Hst & Hrq).
  (* the time at distance [d], rounded *)
  destruct (scanDist_fl_error round u eta big Hround Hu Heta g Hg Hetag D T
              rest first d) as (t & e & Hfl & Hex & Herr);
    try assumption; try lra.
  { apply ltb_leb. exact Hlo. }
  { apply ltb_leb. exact Hhi. }
  rewrite Hsd in Hex. injection Hex as <-.
  (* the distance at that time, rounded, and the exact one *)
  destruct (interpolate_fl_error round u eta big Hround Hu Heta g Hg Hetag T D
              first rest t) as (r & x & Hr & Hx & Herr2);
    try assumption; try lra.
  destruct (interpolate_lipschitz L first rest t tq Hne Hfin Hti HL
              (ltb_leb _ _ Htlo) Hthi) as (x' & q & Hx' & Hq & HL0 & Hlip).
  rewrite Hx in Hx'. injection Hx' as <-.
  rewrite Hst in Hq. injection Hq as <-.
  exists t, r. split; [|split; [exact Hr|]].
  - destruct rest as [|next rest']; [congruence|].
    unfold distanceToTime_fl. rewrite Hfl. reflexivity.
  - assert (Hstep : (L * Qabs (t - tq) <= L * (32 * (u * T + eta)))%Q) by nra.
    apply Qabs_le_iff in Herr2, Hlip. apply Qabs_le_iff. split; lra.
Qed.

(** C2 (as amended).  The round trip in binary64, where each of its
    twelve operations is rounded.  For at least two anchors with finite
    times of magnitude at most [T] and distances of magnitude at most
    [D], consecutive times and consecutive distances at least [g] apart
    for a [g] not below the smallest normal value, the distance changing
    by at most [L] per unit of time, and every [d] strictly between the
    first and the last distance: the time at distance [d] and the
    distance at that time are finite numbers, and the latter is [d] up
    to [32 * (2^-53 * (D + L * T) + 2^-1075 * (1 + L))]. *)
Theorem distance_time_round_trip
    (g T D L : Q) (first : anchor) (rest : list anchor) (d : Q)
    (Hg : (binary64_normal <= g)%Q)
    (HbigT : (5 * T + 3 <= binary64_max)%Q) (HbigD : (5 * D + 3 <= binary64_max)%Q)
    (Hlen : (2 <= length (first :: rest))%nat)
    (Hfin : forallb finiteAnchor (first :: rest) = true)
    (Htime : gapsAtLeast time g (first :: rest) = true)
    (Hdist : gapsAtLeast dist g (first :: rest) = true)
    (HT : magnitudeWithin time T (first :: rest) = true)
    (HD : magnitudeWithin dist D (first :: rest) = true)
    (HL : slopesWithin L (first :: rest) = true)
    (Hlo : (dist first <? Fin d) = true)
    (Hhi : (Fin d <? dist (last rest first)) = true) :
  exists t r : Q,
    distanceToTime_fl binary64 (first :: rest) (Fin d) = Fin t /\
    interpolateDistanceForTime_fl binary64 (first :: rest) (Fin t) = Normal (Fin r) /\
    (Qabs (r - d)
     <= 32 * (binary64_u * (D + L * T) + binary64_eta * (1 + L)))%Q.
Proof.
  destruct (binary64_errors g Hg) as (Hu & Heta & Hg0 & Hetag).
  exact (rounded_round_trip_from_distance binary64 binary64_u binary64_eta binary64_max
           g T D L first rest d binary64_roundsWithin Hu Heta Hg0 Hetag
           HbigT HbigD Hlen Hfin Htime Hdist HT HD HL Hlo Hhi).
Qed.

Lemma distance_time_round_trip_witness :
  exists t r : Q,
    distanceToTime_fl binary64 scenarioAnchors (Fin 25000) = Fin t /\
    interpolateDistanceForTime_fl binary64 scenarioAnchors (Fin t) = Normal (Fin r) /\
    (Qabs (r - 25000)
     <= 32 * (binary64_u * (100000 + 10000 * 10) + binary64_eta * (1 + 10000)))%Q.
Proof.
  apply (distance_time_round_trip 10 10 100000 10000
           {| time := Fin 0; lat := Fin 0; lon := Fin 0; dist := Fin 0 |}
           [ {| time := Fin 10; lat := Fin 1; lon := Fin 0; dist := Fin 100000 |} ]
           25000);
    first [ reflexivity | simpl; lia | vm_compute; discriminate ].
Defined.

(** C2 as first stated fails when two anchors share a time: the list is
    sorted ascending by time, the distances 0 and 100 increase strictly,
    50 lies strictly between them, and the round trip returns 0. *)
Lemma round_trip_equal_times_counterexample :
  (2 <= length equalTimeAnchors)%nat /\
  sortedByTime equalTimeAnchors = true /\
  strictlyIncreasing dist equalTimeAnchors = true /\
  (Fin 0 <? Fin 50) = true /\ (Fin 50 <? Fin 100) = true /\
  exists r,
    interpolateDistanceForTime equalTimeAnchors
      (distanceToTime equalTimeAnchors (Fin 50)) = Normal r /\
    r === Fin 0 /\ ~ (r === Fin 50).
Proof.
  split; [simpl; lia|]. repeat split; try reflexivity.
  eexists. split; [vm_compute; reflexivity|].
  split; vm_compute; [reflexivity | discriminate].
Qed.

(** The tolerance of the round trip cannot do without the times and the
    slope.  With binary64, the anchors at the times [2 ^ 53] and
    [2 ^ 53 + 2] and the distances 0 and 100, and [d = 25]: the time
    [2 ^ 53 + 1/2] rounds to [2 ^ 53], the first anchor's time, and the
    round trip returns the distance 0. *)
Example round_trip_large_times :
  strictlyIncreasing time largeTimeAnchors = true /\
  strictlyIncreasing dist largeTimeAnchors = true /\
  exists t r : Q,
    distanceToTime_fl binary64 largeTimeAnchors (Fin 25) = Fin t /\
    interpolateDistanceForTime_fl binary64 largeTimeAnchors (Fin t) = Normal (Fin r) /\
    (t == 9007199254740992)%Q /\ (r == 0)%Q.
Proof.
  split; [reflexivity|]. split; [reflexivity|].
  eexists. eexists. split; [vm_compute; reflexivity|].
  split; [vm_compute; reflexivity|]. split; reflexivity.
Qed.

(* ================================================================== *)
(** * Projection onto the route *)
(* ================================================================== *)

Lemma add_NaN_r (x : num) : x + NaN = NaN.
Proof. destruct x; reflexivity. Qed.

Lemma sub_NaN_r (x : num) : x - NaN = NaN.
Proof. destruct x; reflexivity. Qed.

(** [Math.max(0, Math.min(1, q))] is [NaN] or a finite number in [0, 1]. *)
Lemma clamp_unit (q : num) :
  max zero (min one q) = NaN \/
  exists f, max zero (min one q) = Fin f /\ (0 <= f <= 1)%Q.
Proof.
  destruct q as [| |q|]; simpl; auto.
  - right. exists 0%Q. split; [reflexivity|lra].
  - right. destruct (Qle_bool 1 q) eqn:E1; simpl.
    + exists 1%Q. split; [reflexivity|lra].
    + destruct (Qle_bool 0 q) eqn:E0; simpl; qbool.
      * exists q. split; [reflexivity|lra].
      * exists 0%Q. split; [reflexivity|lra].
  - right. exists 1%Q. split; [reflexivity|lra].
Qed.

Section Projection.

Variable Qsqrt : Q -> Q.

(** A segment whose distance to the point wins a comparison has a
    finite projection fraction in [0, 1]. *)
Lemma seg_frac_unit (p a b : point) (nearestDist : num) :
  (seg_dist (pointToSegmentDistance Qsqrt p a b) <? nearestDist) = true ->
  exists f, seg_frac (pointToSegmentDistance Qsqrt p a b) = Fin f /\ (0 <= f <= 1)%Q.
Proof.
  unfold pointToSegmentDistance. cbn [seg_dist seg_frac].
  match goal with
  | |- context [max zero (min one ?q)] =>
      destruct (clamp_unit q) as [Hnan | Hfin]
  end.
  - rewrite Hnan. cbn [mul]. rewrite !add_NaN_r, !sub_NaN_r. cbn. discriminate.
  - intros _. exact Hfin.
Qed.

End Projection.

(** An invariant indexed by the loop counter holds after a [for] loop
    over [start, start + len). *)
Lemma fold_left_seq_invariant {A} (P : nat -> A -> Prop) (f : A -> nat -> A)
    (len : nat) :
  forall (start : nat) (a : A),
    P start a ->
    (forall i acc, (start <= i < start + len)%nat -> P i acc -> P (S i) (f acc i)) ->
    P (start + len)%nat (fold_left f (seq start len) a).
Proof.
  induction len as [|len IH]; intros start a H0 Hstep.
  - simpl. rewrite Nat.add_0_r. exact H0.
  - simpl. replace (start + S len)%nat with (S start + len)%nat by lia.
    apply IH.
    + apply Hstep; [lia|exact H0].
    + intros i acc Hi. apply Hstep. lia.
Qed.

Section Cumulative.

Variable map_distance : point -> point -> num.
Hypothesis Hdistance : distanceOK map_distance.

Lemma pushCumulative_ok (routeCoords : list point) (cum : list num) (i : nat) :
  Forall (fun p => finitePoint p = true) routeCoords ->
  (1 <= i < length routeCoords)%nat ->
  length cum = i -> cumulativeOK cum ->
  length (pushCumulative map_distance routeCoords cum i) = S i /\
  cumulativeOK (pushCumulative map_distance routeCoords cum i).
Proof.
  intros Hroute Hi Hlen Hok. unfold pushCumulative.
  split; [rewrite length_app; simpl; lia|].
  unfold cumulativeOK, num_at in *.
  assert (Hp : forall k, (k < length routeCoords)%nat ->
                         finitePoint (pt_at routeCoords k) = true).
  { intros k Hk. rewrite Forall_forall in Hroute. apply Hroute.
    unfold pt_at. apply nth_In. exact Hk. }
  destruct (Hdistance (pt_at routeCoords (i - 1)) (pt_at routeCoords i))
    as (dq & Hdq & Hdpos); [apply Hp; lia | apply Hp; lia |].
  destruct (Hok (i - 1)%nat (i - 1)%nat) as (q & q' & Hq & Hq' & Hqpos); [lia|].
  rewrite Hdq, Hq. cbn [add].
  intros k j Hkj. rewrite length_app in Hkj. simpl in Hkj.
  destruct (Nat.eq_dec j (length cum)) as [Ej|Ej].
  - subst j. rewrite (app_nth2 cum _ NaN (Nat.le_refl _)).
    rewrite Nat.sub_diag. cbn [nth].
    destruct (Nat.eq_dec k (length cum)) as [Ek|Ek].
    + subst k. rewrite (app_nth2 cum _ NaN (Nat.le_refl _)).
      rewrite Nat.sub_diag. cbn [nth].
      exists (q + dq)%Q, (q + dq)%Q. repeat split; lra.
    + rewrite app_nth1 by lia.
      destruct (Hok k (i - 1)%nat) as (a & b & Ha & Hb & Hab); [lia|].
      rewrite Hq in Hb. injection Hb as <-.
      exists a, (q + dq)%Q. repeat split; try assumption; lra.
  - rewrite !app_nth1 by lia. apply Hok. lia.
Qed.

Lemma buildCumulativeDist_ok (routeCoords : list point) :
  Forall (fun p => finitePoint p = true) routeCoords ->
  length (buildCumulativeDist map_distance routeCoords)
  = (1 + (length routeCoords - 1))%nat /\
  cumulativeOK (buildCumulativeDist map_distance routeCoords).
Proof.
  intros Hroute. unfold buildCumulativeDist.
  apply (fold_left_seq_invariant
           (fun i acc => length acc = i /\ cumulativeOK acc)).
  - split; [reflexivity|].
    intros i j Hij. simpl in Hij. assert (i = 0%nat) by lia. assert (j = 0%nat) by lia.
    subst. exists 0%Q, 0%Q. repeat split; try reflexivity; lra.
  - intros i acc Hi [Hlen Hok].
    apply pushCumulative_ok; try assumption. lia.
Qed.

End Cumulative.

Lemma at_last_nth {A} (l : list A) (d : A) :
  l <> [] -> at_last l = Some (nth (length l - 1) l d).
Proof.
  destruct l as [|x l]; [congruence|]. intros _. unfold at_last. f_equal.
  revert x. induction l as [|y l IH]; intros x; [reflexivity|].
  rewrite last_shift. rewrite IH. simpl. rewrite Nat.sub_0_r. reflexivity.
Qed.

(** C8.  For every query point and every route of finite points, with the
    cumulative distance table built from it by a distance function that
    is finite and non-negative: the projection fraction of every segment
    that wins the comparison of distances is a number in [0, 1], and the
    cumulative distance returned by [findNearestDistanceOnRoute] is a
    finite number between 0 and the last entry of the table. *)
Theorem findNearestDistanceOnRoute_in_range
    (Qsqrt : Q -> Q) (map_distance : point -> point -> num)
    (route : list point) (p : point)
    (Hdistance : distanceOK map_distance)
    (Hroute : Forall (fun q => finitePoint q = true) route) :
  let cum := buildCumulativeDist map_distance route in
  (forall a b nearestDist,
      (seg_dist (pointToSegmentDistance Qsqrt p a b) <? nearestDist) = true ->
      exists f, seg_frac (pointToSegmentDistance Qsqrt p a b) = Fin f /\
                (0 <= f <= 1)%Q) /\
  exists r total,
    findNearestDistanceOnRoute Qsqrt route cum p = Fin r /\
    at_last cum = Some (Fin total) /\
    (0 <= r <= total)%Q.
Proof.
  intros cum. split; [intros a b nd; apply seg_frac_unit|].
  destruct (buildCumulativeDist_ok map_distance Hdistance route Hroute) as [Hlen Hok].
  fold cum in Hlen, Hok.
  assert (Hne : cum <> []) by (intros E; rewrite E in Hlen; simpl in Hlen; lia).
  destruct (Hok (length cum - 1)%nat (length cum - 1)%nat) as (total & ? & Htot & _ & Htpos);
    [lia|].
  assert (Hinv : exists r,
             snd (fold_left (nearestDistanceStep Qsqrt route cum p)
                            (seq 1 (length route - 1)) (PInf, zero)) = Fin r /\
             (0 <= r <= total)%Q).
  { apply (fold_left_seq_invariant
             (fun (_ : nat) acc => exists r, snd acc = Fin r /\ (0 <= r <= total)%Q)
             (nearestDistanceStep Qsqrt route cum p) (length route - 1) 1 (PInf, zero)).
    - exists 0%Q. split; [reflexivity|lra].
    - intros i [nearestDist best] Hi (r & Hr & Hrange).
      unfold nearestDistanceStep.
      destruct (seg_dist _ <? nearestDist) eqn:Hcmp; [|exists r; auto].
      destruct (seg_frac_unit Qsqrt _ _ _ _ Hcmp) as (f & Hf & Hf01).
      destruct (Hok (i - 1)%nat i) as (a & b & Ha & Hb & Hab); [lia|].
      destruct (Hok i (length cum - 1)%nat) as (b' & t' & Hb' & Ht' & Hbt); [lia|].
      rewrite Hb in Hb'. injection Hb' as <-.
      rewrite Htot in Ht'. injection Ht' as <-.
      cbn [snd fst]. rewrite Hf, Ha, Hb.
      exists (a + f * (b - a))%Q. split; [reflexivity|]. nra. }
  destruct Hinv as (r & Hr & Hrange).
  exists r, total. repeat split; try tauto.
  rewrite (at_last_nth cum NaN Hne). f_equal. exact Htot.
Qed.

Lemma QsqrtDigits_nonneg (q : Q) : (0 <= QsqrtDigits q)%Q.
Proof.
  unfold QsqrtDigits, Qle. simpl. rewrite Z.mul_1_r. apply Z.sqrt_nonneg.
Qed.

Lemma Qsquare_nonneg (a : Q) : (0 <= a * a)%Q.
Proof.
  destruct (Qlt_le_dec a 0) as [H|H].
  - setoid_replace (a * a)%Q with ((- a) * (- a))%Q by ring.
    apply Qmult_le_0_compat; lra.
  - apply Qmult_le_0_compat; exact H.
Qed.

Lemma flatDistance_ok : distanceOK flatDistance.
Proof.
  intros [a0 a1] [b0 b1] Ha Hb. unfold finitePoint in *. simpl in Ha, Hb.
  apply andb_true_iff in Ha. apply andb_true_iff in Hb.
  destruct Ha as [Ha0 Ha1]. destruct Hb as [Hb0 Hb1].
  destruct (is_finite_Fin _ Ha0) as [x0 ->]. destruct (is_finite_Fin _ Ha1) as [x1 ->].
  destruct (is_finite_Fin _ Hb0) as [y0 ->]. destruct (is_finite_Fin _ Hb1) as [y1 ->].
  unfold flatDistance, pow2. cbn [fst snd]. autorewrite with num_fin.
  set (s := ((x0 - y0) * (x0 - y0) + (x1 - y1) * (x1 - y1))%Q).
  assert (Hs : (0 <= s)%Q).
  { unfold s. pose proof (Qsquare_nonneg (x0 - y0)). pose proof (Qsquare_nonneg (x1 - y1)).
    lra. }
  unfold sqrt. assert (E : Qlt_bool s 0 = false) by (qbool; exact Hs).
  rewrite E. autorewrite with num_fin.
  eexists. split; [reflexivity|].
  pose proof (QsqrtDigits_nonneg s). nra.
Qed.

Lemma findNearestDistanceOnRoute_in_range_witness :
  let route := [(Fin 0, Fin 0); (Fin 1, Fin 0); (Fin 2, Fin 0)] in
  distanceOK flatDistance /\
  exists r total,
    findNearestDistanceOnRoute QsqrtDigits route
      (buildCumulativeDist flatDistance route) (Fin (3 # 2), Fin 1) = Fin r /\
    at_last (buildCumulativeDist flatDistance route) = Some (Fin total) /\
    (0 <= r <= total)%Q.
Proof.
  split; [exact flatDistance_ok|].
  apply (findNearestDistanceOnRoute_in_range QsqrtDigits flatDistance
           [(Fin 0, Fin 0); (Fin 1, Fin 0); (Fin 2, Fin 0)] (Fin (3 # 2), Fin 1)
           flatDistance_ok).
  repeat constructor.
Defined.

Example projection_example :
  exists r, findNearestDistanceOnRoute QsqrtDigits
      [(Fin 0, Fin 0); (Fin 1, Fin 0); (Fin 2, Fin 0)]
      (buildCumulativeDist flatDistance [(Fin 0, Fin 0); (Fin 1, Fin 0); (Fin 2, Fin 0)])
      (Fin (3 # 2), Fin 1) = r /\ r === Fin 166980.
Proof. eexists. split; [reflexivity|]. vm_compute. reflexivity. Qed.

(* ================================================================== *)
(** * Position at a distance *)
(* ================================================================== *)

(** C7.  On a route of two coinciding vertices, at distance zero from
    each other, the cumulative distance table is [0, 0], and
    [getPositionAtDistance(0)] divides zero by the zero length of the
    first segment: it returns [[NaN, NaN]], which is not [route[0]]. *)
Theorem getPositionAtDistance_degenerate_start
    (map_distance : point -> point -> num)
    (Hzero : map_distance (Fin 0, Fin 0) (Fin 0, Fin 0) === zero) :
  let cum := buildCumulativeDist map_distance stalledRoute in
  (2 <= length stalledRoute)%nat /\
  Forall2 num_eq cum [zero; zero] /\
  getPositionAtDistance stalledRoute cum zero = Normal (Some (NaN, NaN)) /\
  getPositionAtDistance stalledRoute cum zero <> Normal (idx stalledRoute 0).
Proof.
  intros cum.
  destruct (map_distance (Fin 0, Fin 0) (Fin 0, Fin 0)) as [| |q|] eqn:Hd;
    simpl in Hzero; try contradiction.
  assert (Hcum : cum = [Fin 0; Fin (0 + q)]).
  { unfold cum, buildCumulativeDist, pushCumulative, stalledRoute. simpl.
    unfold pt_at. simpl. rewrite Hd. reflexivity. }
  rewrite Hcum.
  assert (Hpos : getPositionAtDistance stalledRoute [Fin 0; Fin (0 + q)] zero
                 = Normal (Some (NaN, NaN))).
  { unfold getPositionAtDistance, stalledRoute, zero.
    cbn [length Nat.ltb Nat.leb scanCumulative num_at nth andb].
    assert (E1 : Qlt_bool (0 + q) 0 = false) by (qbool; lra).
    autorewrite with num_fin. rewrite E1.
    cbn [Nat.leb Nat.sub idx nth_error nth prop bind fst snd].
    autorewrite with num_fin.
    assert (E2 : Qeq_bool (0 + q - 0) 0 = true) by (qbool; lra).
    unfold div. rewrite E2. reflexivity. }
  split; [simpl; lia|]. split; [|split].
  - repeat constructor. simpl. lra.
  - exact Hpos.
  - rewrite Hpos. discriminate.
Qed.

Lemma getPositionAtDistance_degenerate_start_witness :
  flatDistance (Fin 0, Fin 0) (Fin 0, Fin 0) === zero /\
  getPositionAtDistance stalledRoute (buildCumulativeDist flatDistance stalledRoute) zero
  = Normal (Some (NaN, NaN)).
Proof.
  split; [vm_compute; reflexivity|].
  apply (getPositionAtDistance_degenerate_start flatDistance).
  vm_compute. reflexivity.
Defined.

(** The [while] loop of [getPositionAtDistance] ends within the fuel it
    is given: the index it returns fails the loop test, and every index
    before it passed. *)
Lemma scanCumulative_spec (cum : list num) (d : num) (fuel : nat) :
  forall i, (length cum <= i + fuel)%nat ->
    let k := scanCumulative cum d i fuel in
    (i <= k)%nat /\
    (k <= Nat.max i (length cum))%nat /\
    ((k < length cum)%nat -> (num_at cum k <? d) = false) /\
    (forall j, (i <= j < k)%nat -> (num_at cum j <? d) = true).
Proof.
  induction fuel as [|fuel IH]; intros i Hfuel; cbn [scanCumulative].
  - repeat split; try lia.
  - destruct (i <? length cum)%nat eqn:Hi; cbn [andb].
    + destruct (num_at cum i <? d) eqn:Hc.
      * apply Nat.ltb_lt in Hi.
        destruct (IH (S i)) as (H1 & H2 & H3 & H4); [lia|].
        repeat split; try lia; try assumption.
        intros j Hj. destruct (Nat.eq_dec j i) as [->|Hne]; [exact Hc|].
        apply H4. lia.
      * repeat split; try lia. intros _. exact Hc.
    + apply Nat.ltb_ge in Hi. repeat split; try lia.
Qed.

Lemma getPositionAtDistance_beyond_end (route : list point) (cum : list num) (d : num) :
  (2 <= length route)%nat -> cumulativeOK cum ->
  (forall total, at_last cum = Some total -> (total <? d) = true) ->
  getPositionAtDistance route cum d = Normal (at_last route).
Proof.
  intros Hlen Hok Hd. unfold getPositionAtDistance.
  destruct (length route <? 2)%nat eqn:E; [apply Nat.ltb_lt in E; lia|].
  destruct (scanCumulative_spec cum d (length cum) 1) as (H1 & H2 & H3 & _); [lia|].
  set (k := scanCumulative cum d 1 (length cum)) in *.
  destruct (length cum <=? k)%nat eqn:Ek; [reflexivity|].
  apply Nat.leb_gt in Ek. exfalso.
  specialize (H3 Ek).
  assert (Hne : cum <> []) by (destruct cum; simpl in Ek; [lia|discriminate]).
  specialize (Hd _ (at_last_nth cum NaN Hne)).
  destruct (Hok k (length cum - 1)%nat) as (a & b & Ha & Hb & Hab); [lia|].
  unfold num_at in *. rewrite Ha in H3. rewrite Hb in Hd.
  destruct d; simpl in *; try discriminate. qbool. lra.
Qed.

(** Within a segment of positive length the position is interpolated
    between the two vertices of the segment. *)
Lemma getPositionAtDistance_segment (route : list point) (cum : list num)
    (k : nat) (dq a b x0 x1 y0 y1 : Q) :
  (1 <= k)%nat -> (k < length cum)%nat -> (k < length route)%nat ->
  (forall j, (1 <= j < k)%nat -> (num_at cum j <? Fin dq) = true) ->
  (num_at cum k <? Fin dq) = false ->
  num_at cum (k - 1) = Fin a -> num_at cum k = Fin b -> (a < b)%Q ->
  idx route (k - 1) = Some (Fin x0, Fin x1) ->
  idx route k = Some (Fin y0, Fin y1) ->
  getPositionAtDistance route cum (Fin dq)
  = Normal (Some (Fin (x0 + (dq - a) / (b - a) * (y0 - x0)),
                  Fin (x1 + (dq - a) / (b - a) * (y1 - x1)))).
Proof.
  intros Hk1 Hkc Hkr Hbefore Hat Ha Hb Hab Hp Hn.
  unfold getPositionAtDistance.
  destruct (length route <? 2)%nat eqn:E; [apply Nat.ltb_lt in E; lia|].
  destruct (scanCumulative_spec cum (Fin dq) (length cum) 1) as (H1 & H2 & H3 & H4); [lia|].
  set (k' := scanCumulative cum (Fin dq) 1 (length cum)) in *.
  assert (Hk : k' = k).
  { destruct (Nat.lt_trichotomy k' k) as [Hlt|[Heq|Hgt]]; [|exact Heq|].
    - rewrite Hbefore in H3 by lia. specialize (H3 ltac:(lia)). discriminate.
    - rewrite H4 in Hat by lia. discriminate. }
  rewrite Hk. destruct (length cum <=? k)%nat eqn:Ek; [apply Nat.leb_le in Ek; lia|].
  rewrite Hp, Hn, Ha, Hb. cbn [prop bind fst snd].
  autorewrite with num_fin. rewrite div_Fin by lra.
  autorewrite with num_fin. reflexivity.
Qed.

(* ================================================================== *)
(** * The landmark label *)
(* ================================================================== *)

Lemma within2_closeInTime (t : num) (l : landmark) :
  within2 t l = closeInTime t l.
Proof.
  unfold within2, closeInTime. destruct (lm_time l) as [| |a|], t as [| |q|];
    try reflexivity.
  unfold zero. autorewrite with num_fin. cbn [abs]. autorewrite with num_fin.
  unfold Qlt_bool. f_equal. apply Qleb_comp; [reflexivity|].
  apply Qabs_wd. ring.
Qed.

Lemma find_first_match {A} (f : A -> bool) (l : list A) :
  forall i x, nth_error l i = Some x -> f x = true ->
    (forall j y, (j < i)%nat -> nth_error l j = Some y -> f y = false) ->
    find f l = Some x.
Proof.
  induction l as [|a l IH]; intros i x Hi Hx Hmin.
  - destruct i; discriminate.
  - destruct i as [|i]; simpl in Hi |- *.
    + injection Hi as ->. rewrite Hx. reflexivity.
    + rewrite (Hmin 0%nat a) by (try lia; reflexivity).
      apply (IH i); try assumption.
      intros j y Hj Hy. apply (Hmin (S j)); [lia|exact Hy].
Qed.

Lemma find_no_match {A} (f : A -> bool) (l : list A) :
  (forall x, In x l -> f x = false) -> find f l = None.
Proof.
  induction l as [|a l IH]; intros H; [reflexivity|]. simpl.
  rewrite (H a) by (left; reflexivity). apply IH. intros x Hx. apply H. now right.
Qed.

(** C9.  With the label element present, [updateLabel(t)] shows the
    description of the first landmark, in list order, with
    [|landmark.time - t| < 2], and hides the label when no landmark is
    that close; with a single landmark at time 5 the label shows at 4.5
    and is hidden at 8. *)
Theorem updateLabel_first_match (st : state) (box : labelBox) (t : num)
    (Hbox : labelDisplay st = Some box) :
  (forall i lm,
      idx (landmarks st) i = Some lm -> closeInTime t lm = true ->
      (forall j lm', (j < i)%nat -> idx (landmarks st) j = Some lm' ->
                     closeInTime t lm' = false) ->
      labelDisplay (updateLabel st t)
      = Some {| innerText := lm_description lm; opacity := one |}) /\
  ((forall lm, In lm (landmarks st) -> closeInTime t lm = false) ->
      labelDisplay (updateLabel st t)
      = Some {| innerText := innerText box; opacity := zero |}) /\
  (landmarks st = [landmarkAt5] ->
      labelDisplay (updateLabel st (Fin (9 # 2)))
      = Some {| innerText := "gate"; opacity := one |} /\
      labelDisplay (updateLabel st (Fin 8))
      = Some {| innerText := innerText box; opacity := zero |}).
Proof.
  unfold updateLabel. rewrite Hbox. cbn [set_labelDisplay labelDisplay].
  split; [|split].
  - intros i lm Hi Hc Hmin. f_equal. unfold updateLabelBox.
    assert (Hfind : find (within2 t) (landmarks st) = Some lm).
    { apply (find_first_match _ _ i); [exact Hi| |].
      - rewrite within2_closeInTime. exact Hc.
      - intros j y Hj Hy. rewrite within2_closeInTime. apply (Hmin j); assumption. }
    rewrite Hfind. destruct (landmarks st); [destruct i; discriminate|reflexivity].
  - intros Hnone. f_equal. unfold updateLabelBox.
    rewrite find_no_match.
    + destruct (landmarks st); reflexivity.
    + intros x Hx. rewrite within2_closeInTime. apply Hnone. exact Hx.
  - intros ->. split; reflexivity.
Qed.

Lemma updateLabel_first_match_witness :
  let st := {| routeCoords := []; cumulativeDist := [zero]; timePoints := [];
               landmarks := [landmarkAt5]; initialDist := zero; initialPos := None;
               marker := None; player := false; autoPanEnabled := true;
               mapCenter := None;
               labelDisplay := Some {| innerText := "idle"; opacity := zero |} |} in
  labelDisplay (updateLabel st (Fin (9 # 2)))
  = Some {| innerText := "gate"; opacity := one |}.
Proof.
  intros st.
  exact (proj1 (proj2 (proj2
           (updateLabel_first_match st {| innerText := "idle"; opacity := zero |}
                                    (Fin (9 # 2)) eq_refl)) eq_refl)).
Defined.

(* ================================================================== *)
(** * Loading and the first frame *)
(* ================================================================== *)

Section Loading.

Variable Qsqrt : Q -> Q.
Variable map_distance : point -> point -> num.

(** C5.  After [loadData] of a project with linked points at times 0,
    10, 20 and a first landmark at time 15, the anchor times are
    15, 10, 20: the first anchor took the landmark's time after the
    sort, and the list is not sorted. *)
Theorem loadData_override_breaks_order (st : state) :
  map time (timePoints (loadData Qsqrt map_distance st lateLandmarkData))
  = [Fin 15; Fin 10; Fin 20] /\
  sortedByTime (timePoints (loadData Qsqrt map_distance st lateLandmarkData)) = false.
Proof. split; reflexivity. Qed.

(** C6 (as amended).  When the loaded data has a start position,
    [loadData] stores it as [initialPos] and its projected distance as
    [initialDist], whatever the landmarks and the linked points are; and
    when the data also has landmarks, [setupVisualization] puts the
    marker and the view at the first landmark and recomputes
    [initialDist] from it. *)
Theorem startPosition_precedence_at_load (st : state) (data : projectData)
    (sp : point) (Hsp : startPosition data = Some sp) :
  let st1 := loadData Qsqrt map_distance st data in
  initialPos st1 = Some sp /\
  initialDist st1
  = findNearestDistanceOnRoute Qsqrt (routeCoords st1) (cumulativeDist st1) sp /\
  (forall lm0 lms, data_landmarks data = Some (lm0 :: lms) ->
     let st2 := setupVisualization Qsqrt st1 in
     marker st2 = Some (Some (lm_lat lm0, lm_lon lm0)) /\
     mapCenter st2 = Some (lm_lat lm0, lm_lon lm0) /\
     initialDist st2
     = near_dist (findNearestPointOnRoute Qsqrt (routeCoords st1) (cumulativeDist st1)
                                          (lm_lat lm0, lm_lon lm0))).
Proof.
  intros st1. unfold st1, loadData. rewrite Hsp. destruct sp as [la lo].
  cbn [fst snd initialPos initialDist routeCoords cumulativeDist].
  split; [reflexivity|]. split; [reflexivity|].
  intros lm0 lms Hlm. unfold setupVisualization.
  cbn [landmarks routeCoords cumulativeDist]. rewrite Hlm. cbn [or_empty].
  cbn [marker mapCenter initialDist]. repeat split.
Qed.

(** A frame changes neither the route, nor the landmarks, nor
    [initialDist], nor the player, and keeps a marker once there is one. *)
Lemma syncMarker_preserves (st st' : state) (t : num) :
  syncMarker st t = Normal st' ->
  routeCoords st' = routeCoords st /\ cumulativeDist st' = cumulativeDist st /\
  landmarks st' = landmarks st /\ initialDist st' = initialDist st /\
  player st' = player st /\ (marker st <> None -> marker st' <> None).
Proof.
  unfold syncMarker.
  destruct (player st) eqn:Hp; [|intros H; injection H as <-; rewrite Hp; tauto].
  destruct (marker st) as [m|] eqn:Hm; [|intros H; injection H as <-; rewrite Hp; tauto].
  destruct (routeCoords st) as [|p0 route] eqn:Hr;
    [intros H; injection H as <-; rewrite Hp, Hm, Hr; tauto|].
  destruct (syncDistance st t) as [d|]; [|discriminate]. cbn [bind].
  destruct (getPositionAtDistance _ _ d) as [pos|]; [|discriminate]. cbn [bind].
  intros H. injection H as <-. unfold updateLabel. cbn [labelDisplay].
  destruct (labelDisplay st); cbn; repeat split; discriminate.
Qed.

Lemma runFrames_preserves (ts : list num) :
  forall st st', runFrames st ts = Normal st' ->
    routeCoords st' = routeCoords st /\ cumulativeDist st' = cumulativeDist st /\
    landmarks st' = landmarks st /\ initialDist st' = initialDist st /\
    player st' = player st /\ (marker st <> None -> marker st' <> None).
Proof.
  induction ts as [|t ts IH]; intros st st' H; cbn [runFrames] in H.
  - injection H as <-. tauto.
  - destruct (syncMarker st t) as [st1|] eqn:E; [|discriminate]. cbn [bind] in H.
    destruct (syncMarker_preserves st st1 t E) as (H1 & H2 & H3 & H4 & H5 & H6).
    destruct (IH st1 st' H) as (G1 & G2 & G3 & G4 & G5 & G6).
    repeat split; try congruence. auto.
Qed.

(** C4.  In every frame after [setupVisualization] with at least one
    landmark, [initialDist] is the cumulative distance of the projection
    of the first landmark onto the route; and at every playback time
    strictly before the first landmark's time the frame uses that
    distance instead of the interpolation, so the marker goes to the
    route position at that distance, whatever the time. *)
Theorem syncMarker_holds_before_first_landmark
    (st0 st : state) (lm0 : landmark) (lms : list landmark)
    (ts : list num) (t : num)
    (Hlm : landmarks st0 = lm0 :: lms)
    (Hrun : runFrames (setupVisualization Qsqrt st0) ts = Normal st)
    (Ht : (t <? lm_time lm0) = true) :
  initialDist st
  = near_dist (findNearestPointOnRoute Qsqrt (routeCoords st0) (cumulativeDist st0)
                                       (lm_lat lm0, lm_lon lm0)) /\
  syncDistance st t = Normal (initialDist st) /\
  (player st0 = true -> routeCoords st0 <> [] ->
     markerAfter (syncMarker st t)
     = pos <- getPositionAtDistance (routeCoords st0) (cumulativeDist st0)
                                    (initialDist st) ;;
       Normal (Some pos)).
Proof.
  destruct (runFrames_preserves ts _ _ Hrun) as (H1 & H2 & H3 & H4 & H5 & H6).
  unfold setupVisualization in H1, H2, H3, H4, H5, H6. rewrite Hlm in *.
  cbn [routeCoords cumulativeDist landmarks initialDist player marker] in *.
  split; [exact H4|]. split.
  - unfold syncDistance. rewrite H3, Ht. reflexivity.
  - intros Hp Hr. unfold syncMarker, syncDistance.
    rewrite H5, Hp, H1, H2, H3, Ht.
    destruct (marker st) as [m|]; [|exfalso; apply H6; [discriminate|reflexivity]].
    destruct (routeCoords st0) as [|p0 route] eqn:Er; [congruence|].
    cbn [typeof_number andb bind].
    destruct (getPositionAtDistance _ _ _) as [pos|]; [|reflexivity].
    cbn [bind markerAfter]. unfold updateLabel. cbn [labelDisplay].
    destruct (labelDisplay st); reflexivity.
Qed.

End Loading.

Lemma startPosition_precedence_at_load_witness :
  let st1 := loadData QsqrtDigits flatDistance initialState startPositionData in
  initialPos st1 = Some (Fin 1, Fin 0) /\
  marker (setupVisualization QsqrtDigits st1) = Some (Some (Fin 2, Fin 0)).
Proof.
  intros st1.
  pose proof (startPosition_precedence_at_load QsqrtDigits flatDistance initialState
                startPositionData (Fin 1, Fin 0) eq_refl) as H.
  split; [exact (proj1 H)|].
  exact (proj1 (proj2 (proj2 H) _ _ eq_refl)).
Defined.

(** C6 as first stated fails: the data has a start position at latitude
    1, which lies on the route, and after loading and setup the marker is
    at the landmark at latitude 2. *)
Lemma startPosition_not_displayed_counterexample :
  let st1 := loadData QsqrtDigits flatDistance initialState startPositionData in
  let st2 := setupVisualization QsqrtDigits st1 in
  startPosition startPositionData = Some (Fin 1, Fin 0) /\
  (exists proj,
      near_point (findNearestPointOnRoute QsqrtDigits (routeCoords st1)
                                          (cumulativeDist st1) (Fin 1, Fin 0))
      = Some proj /\ point_eq proj (Fin 1, Fin 0)) /\
  marker st2 = Some (Some (Fin 2, Fin 0)) /\
  ~ point_eq (Fin 2, Fin 0) (Fin 1, Fin 0).
Proof.
  intros st1 st2. split; [reflexivity|]. split; [|split].
  - eexists. split; [vm_compute; reflexivity|]. split; vm_compute; reflexivity.
  - reflexivity.
  - intros [H _]. vm_compute in H. discriminate.
Qed.

Lemma syncMarker_holds_before_first_landmark_witness :
  let st1 := loadData QsqrtDigits flatDistance initialState startPositionData in
  let st := setupVisualization QsqrtDigits st1 in
  runFrames st [] = Normal st /\
  (Fin 2 <? Fin 5) = true /\
  syncDistance st (Fin 2) = Normal (initialDist st).
Proof.
  intros st1 st. split; [reflexivity|]. split; [reflexivity|].
  exact (proj1 (proj2
           (syncMarker_holds_before_first_landmark QsqrtDigits st1 st
              {| lm_time := Fin 5; lm_lat := Fin 2; lm_lon := Fin 0;
                 lm_description := "gate" |} [] [] (Fin 2)
              eq_refl eq_refl eq_refl))).
Defined.

(* ================================================================== *)
(** * The sort of the linked points *)
(* ================================================================== *)

Lemma comparator_not_positive (x y : num) :
  is_NaN x = false -> is_NaN y = false ->
  (x - y >? zero) = false -> (x <=? y) = true.
Proof.
  intros Hx Hy. unfold gtb, zero. destruct x, y; simpl in *; try discriminate;
    try reflexivity; intros H; qbool; lra.
Qed.

Lemma comparator_positive (x y : num) :
  (x - y >? zero) = true -> (y <=? x) = true.
Proof.
  unfold gtb, zero. destruct x, y; simpl in *; try discriminate;
    try reflexivity; intros H; qbool; lra.
Qed.

Lemma insertByTime_sorted (a : anchor) (l : list anchor) :
  is_NaN (time a) = false ->
  Forall (fun b => is_NaN (time b) = false) l ->
  sortedByTime l = true -> sortedByTime (insertByTime a l) = true.
Proof.
  intros Ha Hl. induction l as [|b l IH]; intros Hs; [reflexivity|].
  inversion Hl as [|? ? Hb Hl']; subst. cbn [insertByTime].
  destruct (time a - time b >? zero) eqn:E.
  - pose proof (comparator_positive _ _ E) as Hba.
    specialize (IH Hl').
    destruct l as [|c l].
    + cbn. rewrite Hba. reflexivity.
    + cbn [sortedByTime sortedFrom] in Hs. apply andb_true_iff in Hs.
      destruct Hs as [Hbc Hs]. specialize (IH Hs).
      cbn [insertByTime] in IH |- *.
      destruct (time a - time c >? zero) eqn:E'.
      * cbn [sortedByTime sortedFrom] in IH |- *. rewrite Hbc. exact IH.
      * cbn [sortedByTime sortedFrom] in IH |- *. rewrite Hba. exact IH.
  - cbn [sortedByTime sortedFrom] in Hs |- *.
    rewrite (comparator_not_positive _ _ Ha Hb E). exact Hs.
Qed.

Lemma insertByTime_not_NaN (a : anchor) (l : list anchor) :
  is_NaN (time a) = false ->
  Forall (fun b => is_NaN (time b) = false) l ->
  Forall (fun b => is_NaN (time b) = false) (insertByTime a l).
Proof.
  intros Ha Hl. induction Hl as [|b l Hb Hl IH]; cbn [insertByTime].
  - repeat constructor. exact Ha.
  - destruct (time a - time b >? zero); repeat constructor; assumption.
Qed.

(** The sort of [loadData] leaves the anchors sorted ascending by time. *)
Lemma sortByTime_sorted (l : list anchor) :
  Forall (fun b => is_NaN (time b) = false) l ->
  sortedByTime (sortByTime l) = true /\
  Forall (fun b => is_NaN (time b) = false) (sortByTime l).
Proof.
  induction 1 as [|a l Ha Hl [IH1 IH2]]; cbn [sortByTime fold_right].
  - split; [reflexivity|constructor].
  - split.
    + apply insertByTime_sorted; assumption.
    + apply insertByTime_not_NaN; assumption.
Qed.

(** The anchors that [loadData] stores. *)
Lemma loadData_timePoints
    (Qsqrt : Q -> Q) (map_distance : point -> point -> num)
    (st : state) (data : projectData) :
  let route := map (fun c => (snd c, fst c)) (coordinates data) in
  let cum := buildCumulativeDist map_distance route in
  let sorted :=
    sortByTime
      (map (fun p =>
              {| time := lp_time p;
                 lat := fst (lp_position p);
                 lon := snd (lp_position p);
                 dist := findNearestDistanceOnRoute Qsqrt route cum
                           (fst (lp_position p), snd (lp_position p)) |})
           (or_empty (linkedPoints data))) in
  timePoints (loadData Qsqrt map_distance st data)
  = match or_empty (data_landmarks data), sorted with
    | lm0 :: _, tp0 :: rest =>
        {| time := lm_time lm0; lat := lat tp0; lon := lon tp0;
           dist := near_dist (findNearestPointOnRoute Qsqrt route cum
                                                      (lm_lat lm0, lm_lon lm0)) |}
        :: rest
    | _, _ => sorted
    end.
Proof.
  intros route cum sorted. unfold loadData.
  match goal with
  | |- context [let '(_, _) := ?X in _] => destruct X
  end.
  reflexivity.
Qed.

(** Without landmarks [loadData] leaves the sorted anchors as they are. *)
Lemma loadData_sorted_without_landmarks
    (Qsqrt : Q -> Q) (map_distance : point -> point -> num)
    (st : state) (data : projectData) :
  or_empty (data_landmarks data) = [] ->
  Forall (fun p => is_NaN (lp_time p) = false) (or_empty (linkedPoints data)) ->
  sortedByTime (timePoints (loadData Qsqrt map_distance st data)) = true.
Proof.
  intros Hlm Hlp. rewrite loadData_timePoints, Hlm.
  apply sortByTime_sorted. apply Forall_map. cbn [time]. exact Hlp.
Qed.

(* ================================================================== *)
(** * More on the two interpolation functions *)
(* ================================================================== *)

(* ------------------------------------------------------------------ *)
(** ** Outside the anchors' distances *)

Lemma nondecreasingFrom_last (f : anchor -> num) (rest : list anchor) :
  forall prev, nondecreasingFrom f prev rest = true -> is_NaN (f prev) = false ->
    (f prev <=? f (last rest prev)) = true.
Proof.
  induction rest as [|next rest IH]; intros prev Hs Hn.
  - apply leb_refl. exact Hn.
  - cbn [nondecreasingFrom] in Hs. apply andb_true_iff in Hs. destruct Hs as [Hle Hs].
    rewrite last_shift. eapply leb_trans; [exact Hle|].
    apply IH; [exact Hs | exact (leb_not_NaN_r _ _ Hle)].
Qed.

Lemma increasingFrom_nondecreasing (f : anchor -> num) (rest : list anchor) :
  forall prev, increasingFrom f prev rest = true -> nondecreasingFrom f prev rest = true.
Proof.
  induction rest as [|next rest IH]; intros prev H; [reflexivity|].
  cbn [increasingFrom nondecreasingFrom] in *. apply andb_true_iff in H.
  destruct H as [H1 H2]. rewrite (ltb_leb _ _ H1), (IH _ H2). reflexivity.
Qed.

(** Below the first distance and above the last one no pair brackets. *)
Lemma scanDist_below (rest : list anchor) :
  forall prev d, nondecreasingFrom dist prev rest = true ->
    (d <? dist prev) = true -> scanDist prev rest d = None.
Proof.
  induction rest as [|next rest IH]; intros prev d Hs Hd; [reflexivity|].
  cbn [nondecreasingFrom] in Hs. apply andb_true_iff in Hs. destruct Hs as [Hle Hs].
  cbn [scanDist]. rewrite (ltb_not_geb _ _ Hd). cbn [andb].
  apply IH; [exact Hs|]. exact (ltb_leb_trans _ _ _ Hd Hle).
Qed.

Lemma leb_ltb_trans (x y z : num) :
  (x <=? y) = true -> (y <? z) = true -> (x <? z) = true.
Proof. intros; num_order. Qed.

Lemma scanDist_above (rest : list anchor) :
  forall prev d, nondecreasingFrom dist prev rest = true ->
    is_NaN (dist prev) = false ->
    (dist (last rest prev) <? d) = true -> scanDist prev rest d = None.
Proof.
  induction rest as [|next rest IH]; intros prev d Hs Hn Hd; [reflexivity|].
  rewrite last_shift in Hd.
  cbn [nondecreasingFrom] in Hs. apply andb_true_iff in Hs. destruct Hs as [Hle Hs].
  pose proof (nondecreasingFrom_last dist rest next Hs (leb_not_NaN_r _ _ Hle)) as Hnl.
  cbn [scanDist].
  assert (E : (d <=? dist next) = false).
  { exact (ltb_not_geb _ _ (leb_ltb_trans _ _ _ Hnl Hd)). }
  rewrite E, andb_false_r. apply IH; [exact Hs| |exact Hd].
  exact (leb_not_NaN_r _ _ Hle).
Qed.

(** X3.  Outside the anchors' distances [distanceToTime] clamps, as
    [interpolateDistanceForTime] does outside their times: for at least
    two anchors with non-decreasing distances it returns the first
    anchor's time below the first distance and the last anchor's time
    above the last distance.  No pair brackets such a distance, so no
    arithmetic takes part. *)
Theorem distanceToTime_clamps
    (first : anchor) (rest : list anchor) (d : num)
    (Hlen : rest <> [])
    (Hdist : nonDecreasing dist (first :: rest) = true) :
  ((d <? dist first) = true -> distanceToTime (first :: rest) d = time first) /\
  ((d >? dist (last rest first)) = true ->
   distanceToTime (first :: rest) d = time (last rest first)).
Proof.
  cbn [nonDecreasing] in Hdist.
  destruct rest as [|next rest'] eqn:Er; [congruence|]. rewrite <- Er in *.
  assert (Hn : is_NaN (dist first) = false).
  { rewrite Er in Hdist. cbn [nondecreasingFrom] in Hdist.
    apply andb_true_iff in Hdist. exact (leb_not_NaN_l _ _ (proj1 Hdist)). }
  split; intros Hd.
  - pose proof (scanDist_below rest first d Hdist Hd) as Hs.
    rewrite Er in *. unfold distanceToTime. rewrite Hs, Hd. reflexivity.
  - unfold gtb in Hd.
    pose proof (scanDist_above rest first d Hdist Hn Hd) as Hs.
    pose proof (nondecreasingFrom_last dist rest first Hdist Hn) as Hfl.
    assert (Hb : (d <? dist first) = false)
      by exact (leb_not_gtb _ _ (ltb_leb _ _ (leb_ltb_trans _ _ _ Hfl Hd))).
    rewrite Er in *. unfold distanceToTime. rewrite Hs, Hb.
    unfold gtb. rewrite Hd. reflexivity.
Qed.

Lemma distanceToTime_clamps_witness :
  ((Fin 200000 <? Fin 0) = true -> distanceToTime scenarioAnchors (Fin 200000) = Fin 0) /\
  ((Fin 200000 >? Fin 100000) = true ->
   distanceToTime scenarioAnchors (Fin 200000) = Fin 10).
Proof.
  apply (distanceToTime_clamps
           {| time := Fin 0; lat := Fin 0; lon := Fin 0; dist := Fin 0 |}
           [ {| time := Fin 10; lat := Fin 1; lon := Fin 0; dist := Fin 100000 |} ]
           (Fin 200000)); [discriminate|reflexivity].
Defined.

(* ------------------------------------------------------------------ *)
(** ** The round trip from time to distance and back, rounded *)

(** Where the exact scan finds no pair, the rounded scan finds none:
    the tests are the same. *)
Lemma scanDist_fl_none (round : Q -> num) (rest : list anchor) :
  forall prev x,
    scanDist prev rest x = None -> scanDist_fl round prev rest x = None.
Proof.
  induction rest as [|next rest IH]; intros prev x H; [reflexivity|].
  cbn [scanDist scanDist_fl] in *.
  destruct ((x >=? dist prev) && (x <=? dist next)); [discriminate|].
  apply IH. exact H.
Qed.

Section RoundTripBack.

Variable round : Q -> num.
Variables u eta big : Q.
Hypothesis Hround : roundsWithin round u eta big.
Hypothesis Hu : (0 <= u /\ u <= 1 # 16)%Q.
Hypothesis Heta : (0 <= eta /\ eta <= u)%Q.
Variable g : Q.
Hypothesis Hg : (0 < g)%Q.
Hypothesis Hetag : (eta <= u * g)%Q.

(** The rounded [distanceToTime] against the exact one at the same
    finite distance. *)
Lemma distanceToTime_fl_error (T D : Q) (first : anchor) (rest : list anchor) (x : Q) :
  (2 * D <= big)%Q -> (5 * T + 3 <= big)%Q ->
  rest <> [] ->
  forallb finiteAnchor (first :: rest) = true ->
  gapsFrom dist g first rest = true ->
  magnitudeWithin dist D (first :: rest) = true ->
  magnitudeWithin time T (first :: rest) = true ->
  exists r e : Q,
    distanceToTime_fl round (first :: rest) (Fin x) = Fin r /\
    distanceToTime (first :: rest) (Fin x) = Fin e /\
    (Qabs (r - e) <= 32 * (u * T + eta))%Q.
Proof.
  intros HbigD HbigT Hne Hfin Hgap HmD HmT.
  pose proof (forallb_last finiteAnchor rest first Hfin) as Hfl.
  pose proof Hfin as Hfin0.
  cbn [forallb] in Hfin0. apply andb_true_iff in Hfin0. destruct Hfin0 as [Hff _].
  finite_anchor Hff ft fd Eft Efd. finite_anchor Hfl zt zd Ezt Ezd.
  assert (HT0 : (0 <= T)%Q).
  { unfold magnitudeWithin in HmT. cbn [forallb] in HmT.
    apply andb_true_iff in HmT. destruct HmT as [H _]. rewrite Eft in H.
    apply magnitude_Fin in H. lra. }
  assert (Hzero : forall y : Q, (Qabs (y - y) <= 32 * (u * T + eta))%Q).
  { intros y. apply Qabs_le_iff. destruct Hu, Heta. split; nra. }
  pose proof (increasingFrom_nondecreasing dist rest first
                (gapsFrom_increasing dist g rest Hg first Hgap)) as Hnd.
  destruct rest as [|next rest'] eqn:Er; [congruence|]. rewrite <- Er in *.
  destruct (Qlt_le_dec x fd) as [Hlow|Hlow].
  { assert (Hb : (Fin x <? dist first) = true)
      by (rewrite Efd; autorewrite with num_fin; qbool; exact Hlow).
    pose proof (scanDist_below rest first (Fin x) Hnd Hb) as Hn.
    pose proof (scanDist_fl_none round rest first (Fin x) Hn) as Hn'.
    exists ft, ft. rewrite Er in *.
    unfold distanceToTime_fl, distanceToTime. rewrite Hn, Hn', Hb, Eft. auto. }
  destruct (Qlt_le_dec zd x) as [Hhigh|Hhigh].
  { assert (Hb : (dist (last rest first) <? Fin x) = true)
      by (rewrite Ezd; autorewrite with num_fin; qbool; exact Hhigh).
    assert (Hb' : (Fin x <? dist first) = false)
      by (rewrite Efd; autorewrite with num_fin; qbool; exact Hlow).
    pose proof (scanDist_above rest first (Fin x) Hnd
                  ltac:(rewrite Efd; reflexivity) Hb) as Hn.
    pose proof (scanDist_fl_none round rest first (Fin x) Hn) as Hn'.
    exists zt, zt. rewrite Er in *.
    unfold distanceToTime_fl, distanceToTime. rewrite Hn, Hn', Hb'.
    unfold gtb. rewrite Hb, Ezt. auto. }
  destruct (scanDist_fl_error round u eta big Hround Hu Heta g Hg Hetag D T
              rest first x) as (r & e & H1 & H2 & H3); try assumption.
  - rewrite Efd. autorewrite with num_fin. qbool. exact Hlow.
  - rewrite Ezd. autorewrite with num_fin. qbool. exact Hhigh.
  - exists r, e. rewrite Er in *.
    unfold distanceToTime_fl, distanceToTime. rewrite H1, H2. auto.
Qed.

End RoundTripBack.

(** The exact [distanceToTime] moves by at most [L] times the distance
    from a distance [dq] within the anchors' range, [L] bounding the
    time per unit of distance between consecutive anchors. *)
Lemma distanceToTime_lipschitz (L : Q) (first : anchor) (rest : list anchor) (x dq : Q) :
  rest <> [] ->
  forallb finiteAnchor (first :: rest) = true ->
  increasingFrom dist first rest = true ->
  slopesFrom L (swapAnchor first) (map swapAnchor rest) = true ->
  (dist first <=? Fin dq) = true ->
  (Fin dq <=? dist (last rest first)) = true ->
  exists e q : Q,
    distanceToTime (first :: rest) (Fin x) = Fin e /\
    scanDist first rest (Fin dq) = Some (Fin q) /\
    (0 <= L)%Q /\
    (Qabs (e - q) <= L * Qabs (x - dq))%Q.
Proof.
  intros Hne Hfin Hdist Hslope Hlo Hhi.
  pose proof (forallb_last finiteAnchor rest first Hfin) as Hfl.
  pose proof Hfin as Hfin0.
  cbn [forallb] in Hfin0. apply andb_true_iff in Hfin0. destruct Hfin0 as [Hff _].
  finite_anchor Hff ft fd Eft Efd. finite_anchor Hfl zt zd Ezt Ezd.
  pose proof (increasingFrom_last dist rest first Hdist Hne) as Hfz.
  pose proof (increasingFrom_nondecreasing dist rest first Hdist) as Hnd.
  rewrite Efd in Hfz, Hlo. rewrite Ezd in Hfz, Hhi.
  autorewrite with num_fin in Hfz, Hlo, Hhi. qbool.
  assert (Hlip : forall a b : Q, (fd <= a)%Q -> (a <= b)%Q -> (b <= zd)%Q ->
            exists r r' : Q,
              scanDist first rest (Fin a) = Some (Fin r) /\
              scanDist first rest (Fin b) = Some (Fin r') /\
              (Qabs (r' - r) <= L * (b - a))%Q /\
              ((a == fd)%Q -> (r == ft)%Q) /\ ((b == zd)%Q -> (r' == zt)%Q)).
  { intros a b Ha Hab Hb.
    destruct (scanTime_lipschitz L (map swapAnchor rest) (swapAnchor first) a b)
      as (r & r' & H1 & H2 & H3 & H4 & H5).
    - intros E. apply map_eq_nil in E. contradiction.
    - change (swapAnchor first :: map swapAnchor rest)
        with (map swapAnchor (first :: rest)).
      rewrite forallb_finite_swap. exact Hfin.
    - rewrite increasingFrom_swap. exact Hdist.
    - exact Hslope.
    - cbn [swapAnchor time]. rewrite Efd. autorewrite with num_fin. qbool. exact Ha.
    - exact Hab.
    - rewrite last_map_swap. cbn [swapAnchor time]. rewrite Ezd.
      autorewrite with num_fin. qbool. exact Hb.
    - rewrite last_map_swap in H5. cbn [swapAnchor time dist] in H4, H5.
      rewrite Eft, Efd in H4. rewrite Ezt, Ezd in H5. cbn [num_eq] in H4, H5.
      rewrite <- !scanDist_swap in *.
      exists r, r'. auto. }
  assert (HL : (0 <= L)%Q).
  { destruct (Hlip fd zd) as (r & r' & _ & _ & H & _); try lra.
    pose proof (Qabs_nonneg (r' - r)). nra. }
  destruct (Hlip dq dq) as (q & q' & Hq & _); try lra.
  assert (Hsame : forall y z : Q,
            scanDist first rest (Fin dq) = Some (Fin y) ->
            scanDist first rest (Fin dq) = Some (Fin z) -> y = z)
    by (intros y z Hy Hz; congruence).
  destruct rest as [|next rest'] eqn:Er; [congruence|]. rewrite <- Er in *.
  destruct (Qlt_le_dec x fd) as [Hlow|Hlow].
  { (* below the first distance *)
    assert (Hb : (Fin x <? dist first) = true)
      by (rewrite Efd; autorewrite with num_fin; qbool; exact Hlow).
    pose proof (scanDist_below rest first (Fin x) Hnd Hb) as Hn.
    destruct (Hlip fd dq) as (r & r' & H1 & H2 & H3 & H4 & _); try lra.
    rewrite (Hsame _ _ H2 Hq) in *. specialize (H4 ltac:(reflexivity)).
    exists ft, q. split; [|repeat split; try assumption].
    - rewrite Er in *. unfold distanceToTime. rewrite Hn, Hb, Eft. reflexivity.
    - apply Qabs_le_iff in H3. apply Qabs_le_iff.
      rewrite (Qabs_neg (x - dq)) by lra. rewrite H4 in H3. split; nra. }
  destruct (Qlt_le_dec zd x) as [Hhigh|Hhigh].
  { (* above the last distance *)
    assert (Hb : (dist (last rest first) <? Fin x) = true)
      by (rewrite Ezd; autorewrite with num_fin; qbool; exact Hhigh).
    assert (Hb' : (Fin x <? dist first) = false)
      by (rewrite Efd; autorewrite with num_fin; qbool; exact Hlow).
    pose proof (scanDist_above rest first (Fin x) Hnd
                  ltac:(rewrite Efd; reflexivity) Hb) as Hn.
    destruct (Hlip dq zd) as (r & r' & H1 & H2 & H3 & _ & H5); try lra.
    rewrite (Hsame _ _ H1 Hq) in *. specialize (H5 ltac:(reflexivity)).
    exists zt, q. split; [|repeat split; try assumption].
    - rewrite Er in *. unfold distanceToTime. rewrite Hn, Hb'.
      unfold gtb. rewrite Hb, Ezt. reflexivity.
    - apply Qabs_le_iff in H3. apply Qabs_le_iff.
      rewrite (Qabs_pos (x - dq)) by lra. rewrite H5 in H3. split; nra. }
  destruct (Qlt_le_dec x dq) as [Hs|Hs].
  - destruct (Hlip x dq) as (r & r' & H1 & H2 & H3 & _); try lra.
    rewrite (Hsame _ _ H2 Hq) in *.
    exists r, q. split; [|repeat split; try assumption].
    + rewrite Er in *. unfold distanceToTime. rewrite H1. reflexivity.
    + apply Qabs_le_iff in H3. apply Qabs_le_iff.
      rewrite (Qabs_neg (x - dq)) by lra. split; lra.
  - destruct (Hlip dq x) as (r & r' & H1 & H2 & H3 & _); try lra.
    rewrite (Hsame _ _ H1 Hq) in *.
    exists r', q. split; [|repeat split; try assumption].
    + rewrite Er in *. unfold distanceToTime. rewrite H2. reflexivity.
    + apply Qabs_le_iff in H3. apply Qabs_le_iff.
      rewrite (Qabs_pos (x - dq)) by lra. split; lra.
Qed.

(** The round trip the other way under any rounding with relative error
    [u] and absolute error [eta] on results up to [big]. *)
Lemma rounded_round_trip_from_time
    (round : Q -> num) (u eta big g T D L : Q)
    (first : anchor) (rest : list anchor) (t : Q)
    (Hround : roundsWithin round u eta big)
    (Hu : (0 <= u /\ u <= 1 # 16)%Q)
    (Heta : (0 <= eta /\ eta <= u)%Q)
    (Hg : (0 < g)%Q) (Hetag : (eta <= u * g)%Q)
    (HbigT : (5 * T + 3 <= big)%Q) (HbigD : (5 * D + 3 <= big)%Q)
    (Hlen : (2 <= length (first :: rest))%nat)
    (Hfin : forallb finiteAnchor (first :: rest) = true)
    (Htime : gapsAtLeast time g (first :: rest) = true)
    (Hdist : gapsAtLeast dist g (first :: rest) = true)
    (HT : magnitudeWithin time T (first :: rest) = true)
    (HD : magnitudeWithin dist D (first :: rest) = true)
    (HL : slopesWithin L (map swapAnchor (first :: rest)) = true)
    (Hlo : (time first <? Fin t) = true)
    (Hhi : (Fin t <? time (last rest first)) = true) :
  exists d r : Q,
    interpolateDistanceForTime_fl round (first :: rest) (Fin t) = Normal (Fin d) /\
    distanceToTime_fl round (first :: rest) (Fin d) = Fin r /\
    (Qabs (r - t) <= 32 * (u * (T + L * D) + eta * (1 + L)))%Q.
Proof.
  cbn [gapsAtLeast slopesWithin map] in Htime, Hdist, HL.
  pose proof (gapsFrom_increasing time g rest Hg first Htime) as Hti.
  pose proof (gapsFrom_increasing dist g rest Hg first Hdist) as Hdi.
  assert (Hne : rest <> []) by (intros ->; simpl in Hlen; lia).
  assert (HT0 : (0 <= T)%Q /\ (0 <= D)%Q).
  { pose proof Hfin as Hfin0.
    cbn [forallb] in Hfin0. apply andb_true_iff in Hfin0. destruct Hfin0 as [Hff _].
    finite_anchor Hff ft fd Eft Efd.
    unfold magnitudeWithin in HT, HD. cbn [forallb] in HT, HD.
    apply andb_true_iff in HT, HD. destruct HT as [H1 _], HD as [H2 _].
    rewrite Eft in H1. rewrite Efd in H2.
    apply magnitude_Fin in H1, H2. split; lra. }
  destruct HT0 as [HT0 HD0].
  (* the exact round trip, on the anchors with time and distance exchanged *)
  destruct (scan_round_trip (map swapAnchor rest) (swapAnchor first) t)
    as (dq & rq & Hst & Hdlo & Hdhi & _ & Hsd & Hrq).
  { change (swapAnchor first :: map swapAnchor rest)
      with (map swapAnchor (first :: rest)).
    rewrite forallb_finite_swap. exact Hfin. }
  { rewrite increasingFrom_swap. exact Hdi. }
  { rewrite increasingFrom_swap. exact Hti. }
  { exact Hlo. }
  { rewrite last_map_swap. apply ltb_leb. exact Hhi. }
  rewrite <- scanTime_swap in Hst. rewrite <- scanDist_swap in Hsd.
  rewrite last_map_swap in Hdhi. cbn [swapAnchor time] in Hdlo, Hdhi.
  (* the distance at time [t], rounded, and the exact one *)
  destruct (interpolate_fl_error round u eta big Hround Hu Heta g Hg Hetag T D
              first rest t) as (d & x & Hd & Hx & Herr);
    try assumption; try lra.
  assert (Hx' : interpolateDistanceForTime (first :: rest) (Fin t) = Normal (Fin dq)).
  { unfold interpolateDistanceForTime. cbn [idx nth_error prop bind at_last].
    rewrite (ltb_not_geb _ _ Hlo : (Fin t <=? time first) = false).
    rewrite (ltb_not_geb _ _ Hhi).
    destruct rest as [|next rest']; [congruence|].
    change (length (first :: next :: rest') <? 2)%nat with false. cbv iota.
    rewrite Hst. reflexivity. }
  rewrite Hx in Hx'. injection Hx' as ->.
  (* the time at that distance, rounded, and the exact one *)
  destruct (distanceToTime_fl_error round u eta big Hround Hu Heta g Hg Hetag T D
              first rest d) as (r & e & Hr & He & Herr2);
    try assumption; try lra.
  destruct (distanceToTime_lipschitz L first rest d dq Hne Hfin Hdi HL
              (ltb_leb _ _ Hdlo) Hdhi) as (e' & q & He' & Hq & HL0 & Hlip).
  rewrite He in He'. injection He' as <-.
  rewrite Hsd in Hq. injection Hq as <-.
  exists d, r. split; [exact Hd|]. split; [exact Hr|].
  assert (Hstep : (L * Qabs (d - dq) <= L * (32 * (u * D + eta)))%Q) by nra.
  apply Qabs_le_iff in Herr2, Hlip. apply Qabs_le_iff. split; lra.
Qed.

(** X1.  The round trip from time to distance and back in binary64.
    For at least two anchors with finite times of magnitude at most [T]
    and distances of magnitude at most [D], consecutive times and
    consecutive distances at least [g] apart for a [g] not below the
    smallest normal value, the time changing by at most [L] per unit of
    distance, and every [t] strictly between the first and the last
    time: the distance at time [t] and the time at that distance are
    finite numbers, and the latter is [t] up to
    [32 * (2^-53 * (T + L * D) + 2^-1075 * (1 + L))]. *)
Theorem time_distance_round_trip
    (g T D L : Q) (first : anchor) (rest : list anchor) (t : Q)
    (Hg : (binary64_normal <= g)%Q)
    (HbigT : (5 * T + 3 <= binary64_max)%Q) (HbigD : (5 * D + 3 <= binary64_max)%Q)
    (Hlen : (2 <= length (first :: rest))%nat)
    (Hfin : forallb finiteAnchor (first :: rest) = true)
    (Htime : gapsAtLeast time g (first :: rest) = true)
    (Hdist : gapsAtLeast dist g (first :: rest) = true)
    (HT : magnitudeWithin time T (first :: rest) = true)
    (HD : magnitudeWithin dist D (first :: rest) = true)
    (HL : slopesWithin L (map swapAnchor (first :: rest)) = true)
    (Hlo : (time first <? Fin t) = true)
    (Hhi : (Fin t <? time (last rest first)) = true) :
  exists d r : Q,
    interpolateDistanceForTime_fl binary64 (first :: rest) (Fin t) = Normal (Fin d) /\
    distanceToTime_fl binary64 (first :: rest) (Fin d) = Fin r /\
    (Qabs (r - t)
     <= 32 * (binary64_u * (T + L * D) + binary64_eta * (1 + L)))%Q.
Proof.
  destruct (binary64_errors g Hg) as (Hu & Heta & Hg0 & Hetag).
  exact (rounded_round_trip_from_time binary64 binary64_u binary64_eta binary64_max
           g T D L first rest t binary64_roundsWithin Hu Heta Hg0 Hetag
           HbigT HbigD Hlen Hfin Htime Hdist HT HD HL Hlo Hhi).
Qed.

Lemma time_distance_round_trip_witness :
  exists d r : Q,
    interpolateDistanceForTime_fl binary64 scenarioAnchors (Fin 4) = Normal (Fin d) /\
    distanceToTime_fl binary64 scenarioAnchors (Fin d) = Fin r /\
    (Qabs (r - 4)
     <= 32 * (binary64_u * (10 + (1 # 10000) * 100000)
              + binary64_eta * (1 + (1 # 10000))))%Q.
Proof.
  apply (time_distance_round_trip 10 10 100000 (1 # 10000)
           {| time := Fin 0; lat := Fin 0; lon := Fin 0; dist := Fin 0 |}
           [ {| time := Fin 10; lat := Fin 1; lon := Fin 0; dist := Fin 100000 |} ]
           4);
    first [ reflexivity | simpl; lia | vm_compute; discriminate ].
Defined.

(* ------------------------------------------------------------------ *)
(** ** The rounding error of one call *)

(** X29.  [interpolateDistanceForTime] in binary64 against the exact
    interpolation.  For anchors with finite times of magnitude at most
    [T], consecutive times at least [g] apart for a [g] not below the
    smallest normal value, and distances of magnitude at most [D], at
    every finite time the function returns a finite number, and it
    differs from the exactly interpolated distance by at most
    [32 * (2^-53 * D + 2^-1075)]. *)
Theorem interpolateDistanceForTime_rounding_error
    (g T D : Q) (first : anchor) (rest : list anchor) (t : Q)
    (Hg : (binary64_normal <= g)%Q)
    (HbigT : (2 * T <= binary64_max)%Q) (HbigD : (5 * D + 3 <= binary64_max)%Q)
    (Hfin : forallb finiteAnchor (first :: rest) = true)
    (Htime : gapsAtLeast time g (first :: rest) = true)
    (HT : magnitudeWithin time T (first :: rest) = true)
    (HD : magnitudeWithin dist D (first :: rest) = true) :
  exists r e : Q,
    interpolateDistanceForTime_fl binary64 (first :: rest) (Fin t) = Normal (Fin r) /\
    interpolateDistanceForTime (first :: rest) (Fin t) = Normal (Fin e) /\
    (Qabs (r - e) <= 32 * (binary64_u * D + binary64_eta))%Q.
Proof.
  destruct (binary64_errors g Hg) as (Hu & Heta & Hg0 & Hetag).
  exact (interpolate_fl_error binary64 binary64_u binary64_eta binary64_max
           binary64_roundsWithin Hu Heta g Hg0 Hetag T D first rest t
           HbigT HbigD Hfin Htime HT HD).
Qed.

Lemma interpolateDistanceForTime_rounding_error_witness :
  exists r e : Q,
    interpolateDistanceForTime_fl binary64 scenarioAnchors (Fin (1 # 3))
    = Normal (Fin r) /\
    interpolateDistanceForTime scenarioAnchors (Fin (1 # 3)) = Normal (Fin e) /\
    (Qabs (r - e) <= 32 * (binary64_u * 100000 + binary64_eta))%Q.
Proof.
  apply (interpolateDistanceForTime_rounding_error 10 10 100000
           {| time := Fin 0; lat := Fin 0; lon := Fin 0; dist := Fin 0 |}
           [ {| time := Fin 10; lat := Fin 1; lon := Fin 0; dist := Fin 100000 |} ]
           (1 # 3));
    first [ reflexivity | vm_compute; discriminate ].
Defined.

(** X30.  [distanceToTime] in binary64 against the exact interpolation.
    For at least two anchors with finite distances of magnitude at most
    [D], consecutive distances at least [g] apart for a [g] not below
    the smallest normal value, and times of magnitude at most [T], at
    every finite distance the function returns a finite number, and it
    differs from the exactly interpolated time by at most
    [32 * (2^-53 * T + 2^-1075)]. *)
Theorem distanceToTime_rounding_error
    (g T D : Q) (first : anchor) (rest : list anchor) (d : Q)
    (Hg : (binary64_normal <= g)%Q)
    (HbigD : (2 * D <= binary64_max)%Q) (HbigT : (5 * T + 3 <= binary64_max)%Q)
    (Hlen : rest <> [])
    (Hfin : forallb finiteAnchor (first :: rest) = true)
    (Hdist : gapsAtLeast dist g (first :: rest) = true)
    (HD : magnitudeWithin dist D (first :: rest) = true)
    (HT : magnitudeWithin time T (first :: rest) = true) :
  exists r e : Q,
    distanceToTime_fl binary64 (first :: rest) (Fin d) = Fin r /\
    distanceToTime (first :: rest) (Fin d) = Fin e /\
    (Qabs (r - e) <= 32 * (binary64_u * T + binary64_eta))%Q.
Proof.
  destruct (binary64_errors g Hg) as (Hu & Heta & Hg0 & Hetag).
  exact (distanceToTime_fl_error binary64 binary64_u binary64_eta binary64_max
           binary64_roundsWithin Hu Heta g Hg0 Hetag T D first rest d
           HbigD HbigT Hlen Hfin Hdist HD HT).
Qed.

Lemma distanceToTime_rounding_error_witness :
  exists r e : Q,
    distanceToTime_fl binary64 scenarioAnchors (Fin (1 # 3)) = Fin r /\
    distanceToTime scenarioAnchors (Fin (1 # 3)) = Fin e /\
    (Qabs (r - e) <= 32 * (binary64_u * 10 + binary64_eta))%Q.
Proof.
  apply (distanceToTime_rounding_error 10 10 100000
           {| time := Fin 0; lat := Fin 0; lon := Fin 0; dist := Fin 0 |}
           [ {| time := Fin 10; lat := Fin 1; lon := Fin 0; dist := Fin 100000 |} ]
           (1 # 3));
    first [ reflexivity | vm_compute; discriminate | discriminate ].
Defined.

(* ------------------------------------------------------------------ *)
(** ** Errors and degenerate anchors *)

Lemma interpolate_throws_iff (tps : list anchor) (t : num) :
  interpolateDistanceForTime tps t = Throw <-> tps = [].
Proof.
  split.
  - destruct tps as [|first rest]; [reflexivity|]. intros H. exfalso. revert H.
    unfold interpolateDistanceForTime. cbn [idx nth_error prop bind at_last].
    destruct (t <=? time first); [discriminate|].
    destruct (t >=? time (last rest first)); [discriminate|].
    destruct (length (first :: rest) <? 2)%nat; [discriminate|].
    destruct (scanTime first rest t); [discriminate|].
    destruct (t <? time first); [discriminate|].
    destruct (t >? time (last rest first)); discriminate.
  - intros ->. reflexivity.
Qed.

(** X6.  [interpolateDistanceForTime] throws exactly on the empty anchor
    list: on every non-empty list it returns a number for every query. *)
Theorem interpolateDistanceForTime_throws_iff_empty
    (tps : list anchor) (t : num) :
  interpolateDistanceForTime tps t = Throw <-> tps = [].
Proof. exact (interpolate_throws_iff tps t). Qed.

(** X7.  When the first two anchors lie at the same finite distance, the
    time at that distance is [NaN]: the first pair brackets it and the
    interpolation divides zero by zero. *)
Theorem distanceToTime_leading_plateau
    (first next : anchor) (rest : list anchor) (d : num)
    (Hff : finiteAnchor first = true) (Hfn : finiteAnchor next = true)
    (Hsame : dist first === dist next) (Hd : d === dist first) :
  distanceToTime (first :: next :: rest) d = NaN.
Proof.
  finite_anchor Hff pt pd Ept Epd. finite_anchor Hfn nt nd Ent End'.
  rewrite Epd, End' in Hsame. rewrite Epd in Hd.
  destruct d as [| |dq|]; simpl in Hd; try contradiction. simpl in Hsame.
  unfold distanceToTime. cbn [scanDist]. rewrite Ept, Epd, Ent, End'.
  autorewrite with num_fin.
  assert (E1 : Qle_bool pd dq = true) by (qbool; lra).
  assert (E2 : Qle_bool dq nd = true) by (qbool; lra).
  rewrite E1, E2. cbn [andb]. unfold div.
  assert (E3 : Qeq_bool (nd - pd) 0 = true) by (qbool; lra).
  assert (E4 : Qeq_bool (dq - pd) 0 = true) by (qbool; lra).
  rewrite E3, E4. reflexivity.
Qed.

Lemma distanceToTime_leading_plateau_witness :
  distanceToTime
    [ {| time := Fin 0; lat := Fin 0; lon := Fin 0; dist := Fin 40 |};
      {| time := Fin 8; lat := Fin 0; lon := Fin 0; dist := Fin 40 |};
      {| time := Fin 20; lat := Fin 1; lon := Fin 0; dist := Fin 90 |} ] (Fin 40)
  = NaN.
Proof.
  apply distanceToTime_leading_plateau; reflexivity.
Defined.

(* ================================================================== *)
(** * More on the projection onto the route *)
(* ================================================================== *)

Section NearestPoint.

Variable Qsqrt : Q -> Q.
Variable route : list point.
Variable cum : list num.
Variable p : point.

(** The two projection loops keep the same nearest distance and the same
    cumulative distance. *)
Lemma nearest_folds_agree (l : list nat) :
  forall nd bp bc,
    fold_left (nearestDistanceStep Qsqrt route cum p) l (nd, bc)
    = (fst (fst (fold_left (nearestPointStep Qsqrt route cum p) l (nd, bp, bc))),
       snd (fold_left (nearestPointStep Qsqrt route cum p) l (nd, bp, bc))).
Proof.
  induction l as [|i l IH]; intros nd bp bc; [reflexivity|].
  cbn [fold_left]. unfold nearestDistanceStep at 2, nearestPointStep at 2 4.
  destruct (seg_dist _ <? nd); apply IH.
Qed.

(** The loop of [findNearestPointOnRoute] holds a point of the route. *)
Lemma nearestPoint_onRoute :
  onRoute route cum (near_point (findNearestPointOnRoute Qsqrt route cum p))
          (near_dist (findNearestPointOnRoute Qsqrt route cum p)).
Proof.
  unfold findNearestPointOnRoute.
  assert (H : let acc := fold_left (nearestPointStep Qsqrt route cum p)
                                  (seq 1 (length route - 1)) (PInf, idx route 0, zero) in
              onRoute route cum (snd (fst acc)) (snd acc)).
  { apply (fold_left_seq_invariant
             (fun (_ : nat) acc => onRoute route cum (snd (fst acc)) (snd acc))
             (nearestPointStep Qsqrt route cum p) (length route - 1) 1
             (PInf, idx route 0, zero)).
    - left. split; reflexivity.
    - intros i [[nd bp] bc] Hi Hinv. unfold nearestPointStep.
      destruct (seg_dist _ <? nd) eqn:Hcmp; [|exact Hinv].
      destruct (seg_frac_unit Qsqrt _ _ _ _ Hcmp) as (f & Hf & Hf01).
      right. exists i, f. cbn [fst snd]. rewrite Hf.
      repeat split; try tauto; lia. }
  destruct (fold_left _ _ _) as [[nd bp] bc]. exact H.
Qed.

End NearestPoint.

Lemma near_dist_agree
    (Qsqrt : Q -> Q) (route : list point) (cum : list num) (p : point) :
  near_dist (findNearestPointOnRoute Qsqrt route cum p)
  = findNearestDistanceOnRoute Qsqrt route cum p.
Proof.
  unfold findNearestPointOnRoute, findNearestDistanceOnRoute.
  rewrite (nearest_folds_agree Qsqrt route cum p _ PInf (idx route 0) zero).
  destruct (fold_left _ _ _) as [[nd bp] bc]. reflexivity.
Qed.

(** X8.  [findNearestPointOnRoute] and [findNearestDistanceOnRoute] return
    the same cumulative distance, for every route, table and point. *)
Theorem findNearestPointOnRoute_same_distance
    (Qsqrt : Q -> Q) (route : list point) (cum : list num) (p : point) :
  near_dist (findNearestPointOnRoute Qsqrt route cum p)
  = findNearestDistanceOnRoute Qsqrt route cum p.
Proof. exact (near_dist_agree Qsqrt route cum p). Qed.


(* ------------------------------------------------------------------ *)
(** ** Tables without segments of length zero *)

Lemma strictCumulative_lt (cum : list num) :
  strictCumulative cum ->
  forall j i, (i < j < length cum)%nat ->
    exists a b, num_at cum i = Fin a /\ num_at cum j = Fin b /\ (a < b)%Q.
Proof.
  intros [_ Hs]. induction j as [|j IH]; intros i Hij; [lia|].
  destruct (Hs j ltac:(lia)) as (a & b & Ha & Hb & Hab).
  destruct (Nat.eq_dec i j) as [->|Hne].
  - exists a, b. auto.
  - destruct (IH i ltac:(lia)) as (a' & b' & Ha' & Hb' & Hab').
    rewrite Ha in Hb'. injection Hb' as <-.
    exists a', b. repeat split; auto. lra.
Qed.

Lemma strictCumulative_finite (cum : list num) :
  strictCumulative cum ->
  forall i, (i < length cum)%nat -> exists a, num_at cum i = Fin a /\ (0 <= a)%Q.
Proof.
  intros Hs i Hi. destruct i as [|i].
  - destruct Hs as [H0 _]. exists 0%Q. split; [exact H0|lra].
  - destruct (strictCumulative_lt cum Hs (S i) 0%nat ltac:(lia)) as (a & b & Ha & Hb & Hab).
    destruct Hs as [H0 _]. rewrite H0 in Ha. injection Ha as <-.
    exists b. split; [exact Hb|lra].
Qed.

Lemma strictCumulative_ok (cum : list num) :
  strictCumulative cum -> cumulativeOK cum.
Proof.
  intros Hs i j Hij.
  destruct (strictCumulative_finite cum Hs i ltac:(lia)) as (a & Ha & Ha0).
  destruct (Nat.eq_dec i j) as [->|Hne].
  - exists a, a. repeat split; auto; lra.
  - destruct (strictCumulative_lt cum Hs j i ltac:(lia)) as (a' & b & Ha' & Hb & Hab).
    rewrite Ha in Ha'. injection Ha' as <-.
    exists a, b. repeat split; auto; lra.
Qed.

Lemma finite_route_at (route : list point) (i : nat) :
  Forall (fun q => finitePoint q = true) route -> (i < length route)%nat ->
  exists x0 x1, pt_at route i = (Fin x0, Fin x1) /\ idx route i = Some (Fin x0, Fin x1).
Proof.
  intros Hr Hi. rewrite Forall_forall in Hr.
  assert (Hin : In (pt_at route i) route) by (apply nth_In; exact Hi).
  specialize (Hr _ Hin). unfold finitePoint in Hr. apply andb_true_iff in Hr.
  destruct Hr as [H0 H1]. destruct (pt_at route i) as [u v] eqn:E. cbn [fst snd] in *.
  destruct (is_finite_Fin _ H0) as [x0 ->]. destruct (is_finite_Fin _ H1) as [x1 ->].
  exists x0, x1. split; [reflexivity|].
  unfold idx. rewrite (nth_error_nth' route (NaN, NaN) Hi). unfold pt_at in E.
  rewrite E. reflexivity.
Qed.


(** X13.  Past the total length [getPositionAtDistance] returns the last
    vertex of the route, for every route of at least two vertices and
    every table of finite non-decreasing entries. *)
Theorem getPositionAtDistance_past_end
    (route : list point) (cum : list num) (d total : num)
    (Hlen : (2 <= length route)%nat) (Hok : cumulativeOK cum)
    (Htotal : at_last cum = Some total) (Hd : (d >? total) = true) :
  getPositionAtDistance route cum d = Normal (at_last route).
Proof.
  apply getPositionAtDistance_beyond_end; try assumption.
  intros total' Ht. rewrite Htotal in Ht. injection Ht as <-. exact Hd.
Qed.

Lemma scenarioTable_strict : strictCumulative scenarioTable.
Proof.
  split; [reflexivity|]. intros i Hi.
  assert (Hi' : (i = 0 \/ i = 1)%nat) by (vm_compute in Hi; lia).
  destruct Hi' as [-> | ->]; eexists; eexists;
    (split; [vm_compute; reflexivity|]); (split; [vm_compute; reflexivity|]);
    vm_compute; reflexivity.
Qed.

Lemma scenarioRoute_finite : Forall (fun q => finitePoint q = true) scenarioRoute.
Proof. repeat constructor. Qed.


Lemma getPositionAtDistance_past_end_witness :
  getPositionAtDistance scenarioRoute scenarioTable (Fin 300000)
  = Normal (Some (Fin 2, Fin 0)).
Proof.
  apply (getPositionAtDistance_past_end scenarioRoute scenarioTable
           (Fin 300000) (Fin 222640));
    [simpl; lia | exact (strictCumulative_ok _ scenarioTable_strict) | | reflexivity].
  vm_compute. reflexivity.
Defined.

(* ------------------------------------------------------------------ *)
(** ** The rounding error of the position *)

Lemma gappedCumulative_strict (g : Q) (cum : list num) :
  (0 < g)%Q -> gappedCumulative g cum -> strictCumulative cum.
Proof.
  intros Hg [H0 H]. split; [exact H0|]. intros i Hi.
  destruct (H i Hi) as (a & b & Ha & Hb & Hab). exists a, b. repeat split; auto. lra.
Qed.

Lemma pointWithin_at (C : Q) (route : list point) (i : nat) :
  Forall (fun q => pointWithin C q = true) route -> (i < length route)%nat ->
  exists x0 x1, idx route i = Some (Fin x0, Fin x1) /\
    (- C <= x0 /\ x0 <= C)%Q /\ (- C <= x1 /\ x1 <= C)%Q.
Proof.
  intros Hr Hi. rewrite Forall_forall in Hr.
  assert (Hin : In (pt_at route i) route) by (apply nth_In; exact Hi).
  specialize (Hr _ Hin). unfold pointWithin in Hr. apply andb_true_iff in Hr.
  destruct Hr as [H0 H1]. destruct (pt_at route i) as [v w] eqn:E. cbn [fst snd] in *.
  destruct v as [| |x0|]; try discriminate. destruct w as [| |x1|]; try discriminate.
  apply magnitude_Fin in H0, H1.
  exists x0, x1. split; [|split; assumption].
  unfold idx. rewrite (nth_error_nth' route (NaN, NaN) Hi). unfold pt_at in E.
  rewrite E. reflexivity.
Qed.

(** What the rounded [getPositionAtDistance] computes on the segment
    that the loop stops at. *)
Lemma getPositionAtDistance_fl_segment (round : Q -> num)
    (route : list point) (cum : list num)
    (k : nat) (dq a b x0 x1 y0 y1 : Q) :
  (1 <= k)%nat -> (k < length cum)%nat -> (k < length route)%nat ->
  (forall j, (1 <= j < k)%nat -> (num_at cum j <? Fin dq) = true) ->
  (num_at cum k <? Fin dq) = false ->
  num_at cum (k - 1) = Fin a -> num_at cum k = Fin b ->
  idx route (k - 1) = Some (Fin x0, Fin x1) ->
  idx route k = Some (Fin y0, Fin y1) ->
  let frac := div_fl round (sub_fl round (Fin dq) (Fin a)) (sub_fl round (Fin b) (Fin a)) in
  getPositionAtDistance_fl round route cum (Fin dq)
  = Normal (Some (add_fl round (Fin x0) (mul_fl round frac (sub_fl round (Fin y0) (Fin x0))),
                  add_fl round (Fin x1) (mul_fl round frac (sub_fl round (Fin y1) (Fin x1))))).
Proof.
  intros Hk1 Hkc Hkr Hbefore Hat Ha Hb Hp Hn frac.
  unfold getPositionAtDistance_fl.
  destruct (length route <? 2)%nat eqn:E; [apply Nat.ltb_lt in E; lia|].
  destruct (scanCumulative_spec cum (Fin dq) (length cum) 1) as (H1 & H2 & H3 & H4); [lia|].
  set (k' := scanCumulative cum (Fin dq) 1 (length cum)) in *.
  assert (Hk : k' = k).
  { destruct (Nat.lt_trichotomy k' k) as [Hlt|[Heq|Hgt]]; [|exact Heq|].
    - rewrite Hbefore in H3 by lia. specialize (H3 ltac:(lia)). discriminate.
    - rewrite H4 in Hat by lia. discriminate. }
  rewrite Hk. destruct (length cum <=? k)%nat eqn:Ek; [apply Nat.leb_le in Ek; lia|].
  rewrite Hp, Hn, Ha, Hb. cbn [prop bind fst snd]. reflexivity.
Qed.

Section PositionError.

Variable round : Q -> num.
Variables u eta big : Q.
Hypothesis Hround : roundsWithin round u eta big.
Hypothesis Hu : (0 <= u /\ u <= 1 # 16)%Q.
Hypothesis Heta : (0 <= eta /\ eta <= u)%Q.
Variable g : Q.
Hypothesis Hg : (0 < g)%Q.
Hypothesis Hetag : (eta <= u * g)%Q.

(** The rounded [getPositionAtDistance] against the exact one, within
    the length of the route. *)
Lemma getPositionAtDistance_fl_error
    (C : Q) (route : list point) (cum : list num) (d total : Q) :
  (2 * total <= big)%Q -> (5 * C + 3 <= big)%Q ->
  (2 <= length route)%nat -> length cum = length route ->
  Forall (fun q => pointWithin C q = true) route ->
  gappedCumulative g cum ->
  at_last cum = Some (Fin total) ->
  (0 <= d /\ d <= total)%Q ->
  exists r0 r1 e0 e1 : Q,
    getPositionAtDistance_fl round route cum (Fin d) = Normal (Some (Fin r0, Fin r1)) /\
    getPositionAtDistance route cum (Fin d) = Normal (Some (Fin e0, Fin e1)) /\
    (Qabs (r0 - e0) <= 32 * (u * C + eta))%Q /\
    (Qabs (r1 - e1) <= 32 * (u * C + eta))%Q.
Proof.
  intros HbigP HbigC Hlen Hcl Hroute Hgap Htotal Hd.
  pose proof (gappedCumulative_strict g cum Hg Hgap) as Hs.
  pose proof (strictCumulative_lt cum Hs) as Hlt.
  assert (Hne : cum <> []) by (intros E; rewrite E in Hcl; simpl in Hcl; lia).
  rewrite (at_last_nth cum NaN Hne) in Htotal. injection Htotal as Htotal.
  destruct (scanCumulative_spec cum (Fin d) (length cum) 1) as (H1 & H2 & H3 & H4); [lia|].
  set (k := scanCumulative cum (Fin d) 1 (length cum)) in *.
  assert (Hk : (k < length cum)%nat).
  { destruct (Nat.lt_ge_cases k (length cum)) as [Hlt'|Hge]; [exact Hlt'|exfalso].
    specialize (H4 (length cum - 1)%nat ltac:(lia)).
    unfold num_at in H4. rewrite Htotal in H4. autorewrite with num_fin in H4.
    qbool. lra. }
  specialize (H3 Hk).
  destruct (pointWithin_at C route (k - 1) Hroute ltac:(lia)) as (x0 & x1 & P0 & B0 & B1).
  destruct (pointWithin_at C route k Hroute ltac:(lia)) as (y0 & y1 & P1 & B2 & B3).
  destruct Hgap as [H0 Hgap].
  destruct (Hgap (k - 1)%nat ltac:(lia)) as (ca & cb & Ha & Hb & Hab).
  replace (S (k - 1)) with k in Hb by lia.
  pose proof H3 as H3'. rewrite Hb in H3'. autorewrite with num_fin in H3'. qbool.
  assert (Hlow : (0 <= ca /\ ca <= d)%Q).
  { destruct (Nat.eq_dec k 1) as [E|E].
    - rewrite E in Ha. cbn [Nat.sub] in Ha.
      rewrite H0 in Ha. injection Ha as <-. lra.
    - destruct (strictCumulative_finite cum Hs (k - 1)%nat ltac:(lia)) as (a' & Ha' & Ha0).
      rewrite Ha in Ha'. injection Ha' as <-.
      specialize (H4 (k - 1)%nat ltac:(lia)). rewrite Ha in H4.
      autorewrite with num_fin in H4. qbool. lra. }
  assert (Hhigh : (cb <= total)%Q).
  { destruct (Nat.eq_dec k (length cum - 1)) as [E|E].
    - unfold num_at in Hb. rewrite E in Hb. rewrite Htotal in Hb.
      injection Hb as <-. lra.
    - destruct (Hlt (length cum - 1)%nat k ltac:(lia)) as (a' & b' & Ha' & Hb' & Hab').
      rewrite Hb in Ha'. injection Ha' as <-.
      unfold num_at in Hb'. rewrite Htotal in Hb'. injection Hb' as <-. lra. }
  destruct (lerp_fl_error round u eta big Hround Hu Heta g total C ca cb d x0 y0)
    as (r0 & Hr0 & He0); try assumption; try lra.
  destruct (lerp_fl_error round u eta big Hround Hu Heta g total C ca cb d x1 y1)
    as (r1 & Hr1 & He1); try assumption; try lra.
  exists r0, r1. eexists. eexists. split; [|split; [|split; [exact He0|exact He1]]].
  - rewrite (getPositionAtDistance_fl_segment round route cum k d ca cb x0 x1 y0 y1);
      try assumption; try lia.
    cbv zeta. rewrite Hr0, Hr1. reflexivity.
  - apply (getPositionAtDistance_segment route cum k d ca cb x0 x1 y0 y1);
      try assumption; try lia. lra.
Qed.

End PositionError.

(** X31.  [getPositionAtDistance] in binary64 against the exact point of
    the route.  On a route of at least two vertices with finite
    coordinates of magnitude at most [C], with a table of the same
    length that starts at 0 and grows by at least [g] from entry to
    entry, [g] not below the smallest normal value, and for every
    distance between 0 and the total length: the function returns a
    pair of finite numbers, each within [32 * (2^-53 * C + 2^-1075)] of
    the coordinate interpolated exactly. *)
Theorem getPositionAtDistance_rounding_error
    (g C : Q) (route : list point) (cum : list num) (d total : Q)
    (Hg : (binary64_normal <= g)%Q)
    (HbigP : (2 * total <= binary64_max)%Q) (HbigC : (5 * C + 3 <= binary64_max)%Q)
    (Hlen : (2 <= length route)%nat) (Hcl : length cum = length route)
    (Hroute : Forall (fun q => pointWithin C q = true) route)
    (Hs : gappedCumulative g cum)
    (Htotal : at_last cum = Some (Fin total))
    (Hd : (0 <= d /\ d <= total)%Q) :
  exists r0 r1 e0 e1 : Q,
    getPositionAtDistance_fl binary64 route cum (Fin d) = Normal (Some (Fin r0, Fin r1)) /\
    getPositionAtDistance route cum (Fin d) = Normal (Some (Fin e0, Fin e1)) /\
    (Qabs (r0 - e0) <= 32 * (binary64_u * C + binary64_eta))%Q /\
    (Qabs (r1 - e1) <= 32 * (binary64_u * C + binary64_eta))%Q.
Proof.
  destruct (binary64_errors g Hg) as (Hu & Heta & Hg0 & Hetag).
  exact (getPositionAtDistance_fl_error binary64 binary64_u binary64_eta binary64_max
           binary64_roundsWithin Hu Heta g Hg0 Hetag C route cum d total
           HbigP HbigC Hlen Hcl Hroute Hs Htotal Hd).
Qed.

Lemma scenarioTable_gapped : gappedCumulative 111320 scenarioTable.
Proof.
  split; [reflexivity|]. intros i Hi. simpl in Hi.
  destruct i as [|[|i]]; [| |lia].
  - exists 0%Q, 111320%Q. repeat split; lra.
  - exists 111320%Q, 222640%Q. repeat split; lra.
Qed.

Lemma getPositionAtDistance_rounding_error_witness :
  exists r0 r1 e0 e1 : Q,
    getPositionAtDistance_fl binary64 scenarioRoute scenarioTable (Fin (100000 # 3))
    = Normal (Some (Fin r0, Fin r1)) /\
    getPositionAtDistance scenarioRoute scenarioTable (Fin (100000 # 3))
    = Normal (Some (Fin e0, Fin e1)) /\
    (Qabs (r0 - e0) <= 32 * (binary64_u * 2 + binary64_eta))%Q /\
    (Qabs (r1 - e1) <= 32 * (binary64_u * 2 + binary64_eta))%Q.
Proof.
  apply (getPositionAtDistance_rounding_error 111320 2 scenarioRoute scenarioTable
           (100000 # 3) 222640);
    first [ reflexivity | simpl; lia | vm_compute; discriminate
          | exact scenarioTable_gapped
          | split; vm_compute; discriminate
          | repeat constructor ].
Defined.

(* ------------------------------------------------------------------ *)
(** ** The projection onto one segment *)

Lemma seg_dist_degenerate (Qsqrt : Q -> Q) (p a b : point) :
  finitePoint p = true -> finitePoint a = true -> finitePoint b = true ->
  point_eq a b ->
  seg_dist (pointToSegmentDistance Qsqrt p a b) = NaN.
Proof.
  intros Hp Ha Hb [H0 H1]. unfold finitePoint in *.
  apply andb_true_iff in Hp. apply andb_true_iff in Ha. apply andb_true_iff in Hb.
  destruct p as [y x], a as [y1 x1], b as [y2 x2]. cbn [fst snd] in *.
  destruct Hp as [Hy Hx]. destruct Ha as [Hy1 Hx1]. destruct Hb as [Hy2 Hx2].
  destruct (is_finite_Fin _ Hy) as [qy ->]. destruct (is_finite_Fin _ Hx) as [qx ->].
  destruct (is_finite_Fin _ Hy1) as [qy1 ->]. destruct (is_finite_Fin _ Hx1) as [qx1 ->].
  destruct (is_finite_Fin _ Hy2) as [qy2 ->]. destruct (is_finite_Fin _ Hx2) as [qx2 ->].
  cbn [num_eq] in H0, H1.
  unfold pointToSegmentDistance. cbn [seg_dist fst snd]. autorewrite with num_fin.
  unfold div at 1 2.
  assert (E1 : Qeq_bool ((qx2 - qx1) * (qx2 - qx1) + (qy2 - qy1) * (qy2 - qy1)) 0 = true).
  { qbool. rewrite H0, H1. ring. }
  assert (E2 : Qeq_bool ((qx - qx1) * (qx2 - qx1) + (qy - qy1) * (qy2 - qy1)) 0 = true).
  { qbool. rewrite H0, H1. ring. }
  rewrite E1, E2. reflexivity.
Qed.

(** X15.  A segment whose two end points coincide is never the nearest
    one: on a route whose consecutive vertices all coincide, every finite
    point projects to the first vertex at distance 0. *)
Theorem findNearestPointOnRoute_stalled
    (Qsqrt : Q -> Q) (route : list point) (cum : list num) (p : point)
    (Hp : finitePoint p = true)
    (Hroute : Forall (fun q => finitePoint q = true) route)
    (Hsame : forall i, (S i < length route)%nat ->
               point_eq (pt_at route i) (pt_at route (S i))) :
  findNearestPointOnRoute Qsqrt route cum p
  = {| near_point := idx route 0; near_dist := zero |}.
Proof.
  unfold findNearestPointOnRoute.
  assert (H : fold_left (nearestPointStep Qsqrt route cum p)
                        (seq 1 (length route - 1)) (PInf, idx route 0, zero)
              = (PInf, idx route 0, zero)).
  { apply (fold_left_seq_invariant
             (fun (_ : nat) acc => acc = (PInf, idx route 0, zero))
             (nearestPointStep Qsqrt route cum p) (length route - 1) 1
             (PInf, idx route 0, zero)); [reflexivity|].
    intros i acc Hi ->. unfold nearestPointStep.
    rewrite seg_dist_degenerate; [reflexivity| | | |].
    - destruct p; exact Hp.
    - destruct (finite_route_at route (i - 1) Hroute ltac:(lia)) as (u & v & -> & _).
      reflexivity.
    - destruct (finite_route_at route i Hroute ltac:(lia)) as (u & v & -> & _).
      reflexivity.
    - replace i with (S (i - 1)) at 2 by lia. apply Hsame. lia. }
  rewrite H. reflexivity.
Qed.

Lemma findNearestPointOnRoute_stalled_witness :
  findNearestPointOnRoute QsqrtDigits stalledRoute [zero; zero] (Fin 1, Fin 1)
  = {| near_point := Some (Fin 0, Fin 0); near_dist := zero |}.
Proof.
  apply (findNearestPointOnRoute_stalled QsqrtDigits stalledRoute [zero; zero]
           (Fin 1, Fin 1)); [reflexivity | repeat constructor |].
  intros i Hi. assert (i = 0%nat) by (simpl in Hi; lia). subst i.
  split; reflexivity.
Defined.

(* ================================================================== *)
(** * More on loading *)
(* ================================================================== *)

Section Table.

Variable map_distance : point -> point -> num.
Variable route : list point.

Lemma buildCumulativeDist_steps :
  let cum := buildCumulativeDist map_distance route in
  length cum = S (length route - 1) /\
  num_at cum 0 = zero /\
  forall i, (1 <= i < S (length route - 1))%nat ->
    num_at cum i
    = num_at cum (i - 1) + map_distance (pt_at route (i - 1)) (pt_at route i).
Proof.
  unfold buildCumulativeDist.
  apply (fold_left_seq_invariant
           (fun n acc =>
              length acc = n /\ num_at acc 0 = zero /\
              forall i, (1 <= i < n)%nat ->
                num_at acc i
                = num_at acc (i - 1)
                  + map_distance (pt_at route (i - 1)) (pt_at route i))
           (pushCumulative map_distance route) (length route - 1) 1 [zero]).
  - split; [reflexivity|]. split; [reflexivity|]. intros i Hi. lia.
  - intros n acc Hn (Hlen & H0 & Hstep). unfold pushCumulative.
    split; [rewrite length_app; simpl; lia|]. unfold num_at in *. split.
    + rewrite app_nth1 by lia. exact H0.
    + intros i Hi. destruct (Nat.eq_dec i n) as [->|Hne].
      * rewrite (app_nth2 acc _ NaN) by lia. rewrite Hlen, Nat.sub_diag. cbn [nth].
        rewrite app_nth1 by lia. reflexivity.
      * rewrite !app_nth1 by lia. apply Hstep. lia.
Qed.

End Table.

(** X16.  The cumulative distance table that [loadData] builds has one
    entry per vertex of the route (a single entry for an empty route),
    starts with 0, and every further entry is the entry before it plus
    the distance between the two vertices. *)
Theorem buildCumulativeDist_table
    (map_distance : point -> point -> num) (route : list point) :
  let cum := buildCumulativeDist map_distance route in
  length cum = Nat.max 1 (length route) /\
  num_at cum 0 = zero /\
  forall i, (1 <= i < length route)%nat ->
    num_at cum i
    = num_at cum (i - 1) + map_distance (pt_at route (i - 1)) (pt_at route i).
Proof.
  destruct (buildCumulativeDist_steps map_distance route) as (H1 & H2 & H3).
  split; [rewrite H1; lia|]. split; [exact H2|].
  intros i Hi. apply H3. lia.
Qed.

(** X17.  When the distance between finite points is finite and not
    negative, the cumulative distance table of a route of finite points
    has finite, non-negative, non-decreasing entries. *)
Theorem buildCumulativeDist_nondecreasing
    (map_distance : point -> point -> num) (route : list point)
    (Hdistance : distanceOK map_distance)
    (Hroute : Forall (fun q => finitePoint q = true) route) :
  forall i j, (i <= j < length (buildCumulativeDist map_distance route))%nat ->
    exists a b,
      num_at (buildCumulativeDist map_distance route) i = Fin a /\
      num_at (buildCumulativeDist map_distance route) j = Fin b /\
      (0 <= a <= b)%Q.
Proof.
  exact (proj2 (buildCumulativeDist_ok map_distance Hdistance route Hroute)).
Qed.

Lemma buildCumulativeDist_nondecreasing_witness :
  exists a b,
    num_at (buildCumulativeDist flatDistance scenarioRoute) 1 = Fin a /\
    num_at (buildCumulativeDist flatDistance scenarioRoute) 2 = Fin b /\
    (0 <= a <= b)%Q.
Proof.
  apply (buildCumulativeDist_nondecreasing flatDistance scenarioRoute
           flatDistance_ok scenarioRoute_finite).
  vm_compute. lia.
Defined.

(* ------------------------------------------------------------------ *)
(** ** The anchors that [loadData] stores *)

Lemma insertByTime_perm (a : anchor) (l : list anchor) :
  Permutation (a :: l) (insertByTime a l).
Proof.
  induction l as [|b l IH]; [reflexivity|]. cbn [insertByTime].
  destruct (time a - time b >? zero); [|reflexivity].
  rewrite perm_swap. apply perm_skip. exact IH.
Qed.

Lemma sortByTime_perm (l : list anchor) : Permutation l (sortByTime l).
Proof.
  induction l as [|a l IH]; [reflexivity|]. cbn [sortByTime fold_right].
  rewrite <- insertByTime_perm. apply perm_skip. exact IH.
Qed.

Lemma comparator_of_leb (x y : num) :
  (x <=? y) = true -> (x - y >? zero) = false.
Proof.
  unfold gtb, zero. destruct x, y; simpl; try discriminate; try reflexivity.
  intros H. qbool. lra.
Qed.

Lemma sortByTime_sorted_id (l : list anchor) :
  sortedByTime l = true -> sortByTime l = l.
Proof.
  induction l as [|a l IH]; intros Hs; [reflexivity|].
  cbn [sortByTime fold_right]. fold (sortByTime l).
  destruct l as [|b l]; [reflexivity|].
  cbn [sortedByTime sortedFrom] in Hs. apply andb_true_iff in Hs. destruct Hs as [Hab Hs].
  rewrite IH by exact Hs. cbn [insertByTime].
  rewrite (comparator_of_leb _ _ Hab). reflexivity.
Qed.

Section Anchors.

Variable Qsqrt : Q -> Q.
Variable map_distance : point -> point -> num.
Variable st : state.
Variable data : projectData.

Let route := routeOf data.
Let cum := buildCumulativeDist map_distance (routeOf data).
Let anchors := map (anchorOfLinkedPoint Qsqrt route cum) (or_empty (linkedPoints data)).

Lemma loadData_anchors :
  timePoints (loadData Qsqrt map_distance st data)
  = match or_empty (data_landmarks data), sortByTime anchors with
    | lm0 :: _, tp0 :: rest =>
        {| time := lm_time lm0; lat := lat tp0; lon := lon tp0;
           dist := near_dist (findNearestPointOnRoute Qsqrt route cum
                                                      (lm_lat lm0, lm_lon lm0)) |}
        :: rest
    | _, _ => sortByTime anchors
    end.
Proof. exact (loadData_timePoints Qsqrt map_distance st data). Qed.

Lemma anchors_not_NaN :
  Forall (fun p => is_NaN (lp_time p) = false) (or_empty (linkedPoints data)) ->
  Forall (fun b => is_NaN (time b) = false) anchors.
Proof. intros H. unfold anchors. apply Forall_map. cbn [time anchorOfLinkedPoint]. exact H. Qed.

(** X18.  Without landmarks, the anchors that [loadData] stores are the
    anchors of the linked points, each exactly once, sorted ascending by
    time. *)
Theorem loadData_sorts_linked_points
    (Hlm : or_empty (data_landmarks data) = [])
    (Htimes : Forall (fun p => is_NaN (lp_time p) = false) (or_empty (linkedPoints data))) :
  Permutation
    (map (anchorOfLinkedPoint Qsqrt (routeOf data)
            (buildCumulativeDist map_distance (routeOf data)))
         (or_empty (linkedPoints data)))
    (timePoints (loadData Qsqrt map_distance st data)) /\
  sortedByTime (timePoints (loadData Qsqrt map_distance st data)) = true.
Proof.
  rewrite loadData_anchors, Hlm. split.
  - apply sortByTime_perm.
  - apply sortByTime_sorted. exact (anchors_not_NaN Htimes).
Qed.

(** X19.  Linked points that already come in ascending order of time are
    stored in that order, ties included, when there are no landmarks. *)
Theorem loadData_keeps_sorted_order
    (Hlm : or_empty (data_landmarks data) = [])
    (Hsorted : sortedByTime
                 (map (anchorOfLinkedPoint Qsqrt (routeOf data)
                         (buildCumulativeDist map_distance (routeOf data)))
                      (or_empty (linkedPoints data))) = true) :
  timePoints (loadData Qsqrt map_distance st data)
  = map (anchorOfLinkedPoint Qsqrt (routeOf data)
           (buildCumulativeDist map_distance (routeOf data)))
        (or_empty (linkedPoints data)).
Proof.
  rewrite loadData_anchors, Hlm. apply sortByTime_sorted_id. exact Hsorted.
Qed.

(** X20.  With a landmark and at least one linked point, [loadData] keeps
    one anchor per linked point; the first anchor takes the time of the
    first landmark and the distance of its projection, the others stay in
    ascending order; and the whole list is sorted ascending exactly when
    the landmark's time is at most the time of the second anchor. *)
Theorem loadData_first_anchor_override
    (lm0 : landmark) (lms : list landmark)
    (Hlm : data_landmarks data = Some (lm0 :: lms))
    (Hne : or_empty (linkedPoints data) <> [])
    (Htimes : Forall (fun p => is_NaN (lp_time p) = false) (or_empty (linkedPoints data))) :
  let tps := timePoints (loadData Qsqrt map_distance st data) in
  length tps = length (or_empty (linkedPoints data)) /\
  exists tp0 rest,
    tps = tp0 :: rest /\
    time tp0 = lm_time lm0 /\
    dist tp0 = near_dist (findNearestPointOnRoute Qsqrt (routeOf data)
                            (buildCumulativeDist map_distance (routeOf data))
                            (lm_lat lm0, lm_lon lm0)) /\
    sortedByTime rest = true /\
    (sortedByTime tps = true <->
     match rest with
     | [] => True
     | tp1 :: _ => (lm_time lm0 <=? time tp1) = true
     end).
Proof.
  intros tps. unfold tps. rewrite loadData_anchors, Hlm. cbn [or_empty].
  pose proof (sortByTime_perm anchors) as Hperm.
  destruct (sortByTime_sorted anchors (anchors_not_NaN Htimes)) as [Hs _].
  assert (Hlen : length (sortByTime anchors) = length (or_empty (linkedPoints data))).
  { rewrite <- (Permutation_length Hperm). unfold anchors. apply length_map. }
  destruct (sortByTime anchors) as [|tp0 rest].
  - exfalso. destruct (or_empty (linkedPoints data)); [congruence|discriminate].
  - split; [exact Hlen|]. eexists. eexists. split; [reflexivity|].
    cbn [time dist]. split; [reflexivity|]. split; [reflexivity|].
    cbn [sortedByTime] in Hs. destruct rest as [|tp1 rest'].
    + split; [reflexivity|]. cbn. tauto.
    + cbn [sortedFrom] in Hs. apply andb_true_iff in Hs. destruct Hs as [_ Hs].
      split; [exact Hs|]. cbn [sortedByTime sortedFrom time]. rewrite Hs, andb_true_r.
      tauto.
Qed.

End Anchors.

Lemma loadData_sorts_linked_points_witness :
  sortedByTime (timePoints (loadData QsqrtDigits flatDistance initialState unsortedData))
  = true.
Proof.
  apply (loadData_sorts_linked_points QsqrtDigits flatDistance initialState unsortedData
           eq_refl).
  repeat constructor.
Defined.

Lemma loadData_keeps_sorted_order_witness :
  map time (timePoints (loadData QsqrtDigits flatDistance initialState orderedData))
  = [Fin 0; Fin 10; Fin 20].
Proof.
  rewrite (loadData_keeps_sorted_order QsqrtDigits flatDistance initialState orderedData
             eq_refl eq_refl).
  reflexivity.
Defined.

Lemma loadData_first_anchor_override_witness :
  length (timePoints (loadData QsqrtDigits flatDistance initialState lateLandmarkData))
  = 3%nat.
Proof.
  refine (proj1 (loadData_first_anchor_override QsqrtDigits flatDistance initialState
                   lateLandmarkData _ _ eq_refl _ _)).
  - discriminate.
  - repeat constructor.
Defined.

(* ------------------------------------------------------------------ *)
(** ** The distances that [loadData] stores *)

Lemma projection_in_range (Qsqrt : Q -> Q) (route : list point) (cum : list num)
    (p : point) (total : Q) :
  cumulativeOK cum -> length cum = S (length route - 1) ->
  num_at cum (length cum - 1) = Fin total ->
  exists r, findNearestDistanceOnRoute Qsqrt route cum p = Fin r /\ (0 <= r <= total)%Q.
Proof.
  intros Hok Hlen Htot. rewrite <- near_dist_agree.
  destruct (nearestPoint_onRoute Qsqrt route cum p) as [[_ ->] | (i & f & Hi & Hf & _ & ->)].
  - destruct (Hok (length cum - 1)%nat (length cum - 1)%nat) as (a & b & Ha & _ & Hab);
      [lia|].
    rewrite Htot in Ha. injection Ha as <-. exists 0%Q. split; [reflexivity|lra].
  - destruct (Hok (i - 1)%nat i) as (a & b & Ha & Hb & Hab); [lia|].
    destruct (Hok i (length cum - 1)%nat) as (b' & t' & Hb' & Ht' & Hbt); [lia|].
    rewrite Hb in Hb'. injection Hb' as <-. rewrite Htot in Ht'. injection Ht' as <-.
    rewrite Ha, Hb. autorewrite with num_fin. eexists. split; [reflexivity|]. nra.
Qed.

Section LoadedFields.

Variable Qsqrt : Q -> Q.
Variable map_distance : point -> point -> num.
Variable st : state.
Variable data : projectData.

Lemma loadData_routeCoords :
  routeCoords (loadData Qsqrt map_distance st data) = routeOf data.
Proof.
  unfold loadData.
  match goal with |- context [let '(_, _) := ?X in _] => destruct X end.
  reflexivity.
Qed.

Lemma loadData_cumulativeDist :
  cumulativeDist (loadData Qsqrt map_distance st data)
  = buildCumulativeDist map_distance (routeOf data).
Proof.
  unfold loadData.
  match goal with |- context [let '(_, _) := ?X in _] => destruct X end.
  reflexivity.
Qed.

Lemma loadData_landmarks :
  landmarks (loadData Qsqrt map_distance st data) = or_empty (data_landmarks data).
Proof.
  unfold loadData.
  match goal with |- context [let '(_, _) := ?X in _] => destruct X end.
  reflexivity.
Qed.

Lemma loadData_initialDist :
  let route := routeOf data in
  let cum := buildCumulativeDist map_distance route in
  initialDist (loadData Qsqrt map_distance st data)
  = match startPosition data with
    | Some sp => findNearestDistanceOnRoute Qsqrt route cum (fst sp, snd sp)
    | None =>
        match or_empty (data_landmarks data) with
        | lm0 :: _ => findNearestDistanceOnRoute Qsqrt route cum (lm_lat lm0, lm_lon lm0)
        | [] =>
            match timePoints (loadData Qsqrt map_distance st data) with
            | tp0 :: _ => dist tp0
            | [] => zero
            end
        end
    end.
Proof.
  intros route cum. rewrite (loadData_timePoints Qsqrt map_distance st data).
  unfold loadData. fold (routeOf data). fold route. fold cum.
  destruct (startPosition data) as [sp|]; [reflexivity|].
  destruct (or_empty (data_landmarks data)) as [|lm0 lms].
  - destruct (sortByTime _) as [|tp0 rest]; reflexivity.
  - reflexivity.
Qed.

Lemma loadData_carries :
  marker (loadData Qsqrt map_distance st data) = marker st /\
  player (loadData Qsqrt map_distance st data) = player st /\
  autoPanEnabled (loadData Qsqrt map_distance st data) = autoPanEnabled st /\
  mapCenter (loadData Qsqrt map_distance st data) = mapCenter st /\
  labelDisplay (loadData Qsqrt map_distance st data) = labelDisplay st.
Proof.
  unfold loadData.
  match goal with |- context [let '(_, _) := ?X in _] => destruct X end.
  repeat split.
Qed.

End LoadedFields.

Lemma routeOf_finite (data : projectData) :
  Forall (fun q => finitePoint q = true) (coordinates data) ->
  Forall (fun q => finitePoint q = true) (routeOf data).
Proof.
  intros H. unfold routeOf. apply Forall_map.
  eapply Forall_impl; [|exact H]. intros [u v] Hq. unfold finitePoint in *.
  cbn [fst snd] in *. rewrite andb_comm. exact Hq.
Qed.

(** X21.  After [loadData] of a project with finite coordinates, under a
    distance that is finite and not negative, every stored distance lies
    on the route: the distance of every anchor and [initialDist] are
    finite numbers between 0 and the last entry of the cumulative
    distance table. *)
Theorem loadData_distances_in_range
    (Qsqrt : Q -> Q) (map_distance : point -> point -> num)
    (st : state) (data : projectData)
    (Hdistance : distanceOK map_distance)
    (Hcoords : Forall (fun q => finitePoint q = true) (coordinates data)) :
  let st' := loadData Qsqrt map_distance st data in
  exists total,
    at_last (cumulativeDist st') = Some (Fin total) /\
    (forall a, In a (timePoints st') ->
       exists r, dist a = Fin r /\ (0 <= r <= total)%Q) /\
    (exists r, initialDist st' = Fin r /\ (0 <= r <= total)%Q).
Proof.
  intros st'. unfold st'.
  pose proof (routeOf_finite data Hcoords) as Hroute.
  destruct (buildCumulativeDist_ok map_distance Hdistance (routeOf data) Hroute)
    as [Hlen Hok].
  set (route := routeOf data) in *.
  set (cum := buildCumulativeDist map_distance route) in *.
  assert (Hne : cum <> []) by (intros E; rewrite E in Hlen; simpl in Hlen; lia).
  destruct (Hok (length cum - 1)%nat (length cum - 1)%nat) as (total & ? & Htot & _ & Htpos);
    [lia|].
  assert (Hproj : forall p, exists r,
             findNearestDistanceOnRoute Qsqrt route cum p = Fin r /\ (0 <= r <= total)%Q).
  { intros p. apply projection_in_range; assumption. }
  assert (Hanchors : forall a, In a (timePoints (loadData Qsqrt map_distance st data)) ->
             exists r, dist a = Fin r /\ (0 <= r <= total)%Q).
  { intros a. rewrite (loadData_timePoints Qsqrt map_distance st data).
    fold (routeOf data). fold route. fold cum.
    set (anchors := map _ (or_empty (linkedPoints data))).
    assert (Hsorted : forall b, In b (sortByTime anchors) ->
               exists r, dist b = Fin r /\ (0 <= r <= total)%Q).
    { intros b Hb. apply (Permutation_in _ (Permutation_sym (sortByTime_perm anchors))) in Hb.
      unfold anchors in Hb. apply in_map_iff in Hb. destruct Hb as (lp & <- & _).
      cbn [dist]. apply Hproj. }
    destruct (or_empty (data_landmarks data)) as [|lm0 lms]; [exact (Hsorted a)|].
    destruct (sortByTime anchors) as [|tp0 rest]; [intros []|].
    intros [<- | Hin].
    - cbn [dist]. rewrite near_dist_agree. apply Hproj.
    - apply Hsorted. right. exact Hin. }
  exists total. split; [|split].
  - rewrite loadData_cumulativeDist. fold route. fold cum.
    rewrite (at_last_nth cum NaN Hne). f_equal. exact Htot.
  - exact Hanchors.
  - rewrite loadData_initialDist. fold route. fold cum.
    destruct (startPosition data) as [sp|]; [apply Hproj|].
    destruct (or_empty (data_landmarks data)) as [|lm0 lms]; [|apply Hproj].
    destruct (timePoints (loadData Qsqrt map_distance st data)) as [|tp0 rest] eqn:E.
    + exists 0%Q. split; [reflexivity|lra].
    + apply Hanchors. left. reflexivity.
Qed.

Lemma loadData_distances_in_range_witness :
  let st' := loadData QsqrtDigits flatDistance initialState lateLandmarkData in
  exists total,
    at_last (cumulativeDist st') = Some (Fin total) /\
    (forall a, In a (timePoints st') ->
       exists r, dist a = Fin r /\ (0 <= r <= total)%Q) /\
    (exists r, initialDist st' = Fin r /\ (0 <= r <= total)%Q).
Proof.
  apply (loadData_distances_in_range QsqrtDigits flatDistance initialState
           lateLandmarkData flatDistance_ok).
  repeat constructor.
Defined.

(* ================================================================== *)
(** * More on the frames *)
(* ================================================================== *)

Lemma loadData_timePoints_empty
    (Qsqrt : Q -> Q) (map_distance : point -> point -> num)
    (st : state) (data : projectData) :
  timePoints (loadData Qsqrt map_distance st data) = []
  <-> or_empty (linkedPoints data) = [].
Proof.
  rewrite loadData_timePoints.
  set (anchors := map _ (or_empty (linkedPoints data))).
  assert (Hlen : length (sortByTime anchors) = length (or_empty (linkedPoints data))).
  { rewrite <- (Permutation_length (sortByTime_perm anchors)). unfold anchors.
    apply length_map. }
  destruct (or_empty (data_landmarks data)) as [|lm0 lms];
    destruct (sortByTime anchors) as [|tp0 rest];
    destruct (or_empty (linkedPoints data)); simpl in Hlen;
    split; intros H; try reflexivity; try discriminate.
Qed.

Section Frames.

Variable Qsqrt : Q -> Q.
Variable map_distance : point -> point -> num.

(** X22.  After loading a project and setting up the visualization, the
    distance step of a frame of [syncMarker] throws exactly when the
    project has no linked points and the hold before the first landmark
    does not apply: there is no landmark, or the playback time is not
    before the first landmark's time.  On a non-empty route the frame
    then throws before it moves the marker, and the loop is not
    scheduled again. *)
Theorem syncMarker_throws_without_linked_points
    (st0 : state) (data : projectData) (t : num)
    (Hplayer : player st0 = true)
    (Hroute : coordinates data <> []) :
  let st := setupVisualization Qsqrt (loadData Qsqrt map_distance st0 data) in
  let noHold := match or_empty (data_landmarks data) with
                | [] => True
                | lm0 :: _ => (t <? lm_time lm0) = false
                end in
  (syncDistance st t = Throw <-> or_empty (linkedPoints data) = [] /\ noHold) /\
  (or_empty (linkedPoints data) = [] -> noHold -> syncMarker st t = Throw).
Proof.
  intros st noHold.
  pose proof (loadData_timePoints_empty Qsqrt map_distance st0 data) as Hempty.
  pose proof (loadData_routeCoords Qsqrt map_distance st0 data) as Hr.
  pose proof (loadData_landmarks Qsqrt map_distance st0 data) as Hl.
  destruct (loadData_carries Qsqrt map_distance st0 data) as (_ & Hp & _).
  set (st1 := loadData Qsqrt map_distance st0 data) in *.
  assert (Hst : routeCoords st = routeOf data /\
                landmarks st = or_empty (data_landmarks data) /\
                timePoints st = timePoints st1 /\
                player st = true /\ exists m, marker st = Some m).
  { unfold st, setupVisualization. destruct (landmarks st1);
      cbn [routeCoords landmarks timePoints player marker];
      rewrite <- ?Hl; repeat split; try congruence; eexists; reflexivity. }
  destruct Hst as (Sr & Sl & St & Sp & m & Sm).
  assert (Hne : exists p0 r, routeOf data = p0 :: r).
  { unfold routeOf. destruct (coordinates data) as [|c cs]; [congruence|].
    eexists. eexists. reflexivity. }
  destruct Hne as (p0 & r & Hroute').
  assert (Hsync : syncDistance st t = Throw <->
            or_empty (linkedPoints data) = [] /\ noHold).
  { unfold syncDistance, noHold. rewrite Sl, St.
    destruct (or_empty (data_landmarks data)) as [|lm0 lms].
    - rewrite interpolate_throws_iff, Hempty. tauto.
    - cbn [typeof_number andb]. destruct (t <? lm_time lm0).
      + split; [discriminate|]. intros [_ H]. discriminate.
      + rewrite interpolate_throws_iff, Hempty. tauto. }
  split; [exact Hsync|].
  intros Hlinked Hhold.
  unfold syncMarker. rewrite Sp, Sm, Sr, Hroute'.
  rewrite (proj2 Hsync (conj Hlinked Hhold)). reflexivity.
Qed.

End Frames.

Lemma syncMarker_throws_without_linked_points_witness :
  syncMarker
    (setupVisualization QsqrtDigits
       (loadData QsqrtDigits flatDistance readyState startPositionData))
    (Fin 6)
  = Throw.
Proof.
  apply (proj2 (syncMarker_throws_without_linked_points QsqrtDigits flatDistance
                  readyState startPositionData (Fin 6) eq_refl ltac:(discriminate)));
    reflexivity.
Defined.

(* ------------------------------------------------------------------ *)
(** ** What the start position does not reach *)

Lemma updateLabel_forget (st : state) (t : num) :
  updateLabel (forgetInitialPos st) t = forgetInitialPos (updateLabel st t).
Proof.
  destruct st as [rc cd tp lm idist ipos mk pl ap mc [box|]]; reflexivity.
Qed.

Lemma syncMarker_forget (st : state) (t : num) :
  syncMarker (forgetInitialPos st) t = cmap forgetInitialPos (syncMarker st t).
Proof.
  unfold syncMarker.
  change (player (forgetInitialPos st)) with (player st).
  change (marker (forgetInitialPos st)) with (marker st).
  change (routeCoords (forgetInitialPos st)) with (routeCoords st).
  change (cumulativeDist (forgetInitialPos st)) with (cumulativeDist st).
  change (syncDistance (forgetInitialPos st) t) with (syncDistance st t).
  destruct (player st); [|reflexivity].
  destruct (marker st); [|reflexivity].
  destruct (routeCoords st); [reflexivity|].
  destruct (syncDistance st t) as [d|]; [|reflexivity]. cbn [bind].
  destruct (getPositionAtDistance _ _ d) as [pos|]; [|reflexivity]. cbn [bind cmap].
  f_equal. rewrite <- updateLabel_forget. reflexivity.
Qed.

Lemma runFrames_forget (ts : list num) :
  forall st,
    cmap forgetInitialPos (runFrames (forgetInitialPos st) ts)
    = cmap forgetInitialPos (runFrames st ts).
Proof.
  induction ts as [|t ts IH]; intros st; cbn [runFrames]; [reflexivity|].
  rewrite syncMarker_forget.
  destruct (syncMarker st t) as [st'|]; [|reflexivity]. cbn [cmap bind]. apply IH.
Qed.

Lemma setupVisualization_forget (Qsqrt : Q -> Q) (s1 s2 : state) :
  routeCoords s1 = routeCoords s2 -> cumulativeDist s1 = cumulativeDist s2 ->
  timePoints s1 = timePoints s2 -> landmarks s1 = landmarks s2 ->
  player s1 = player s2 -> autoPanEnabled s1 = autoPanEnabled s2 ->
  labelDisplay s1 = labelDisplay s2 ->
  forgetInitialPos (setupVisualization Qsqrt s1)
  = forgetInitialPos (setupVisualization Qsqrt s2).
Proof.
  intros H1 H2 H3 H4 H5 H6 H7. unfold setupVisualization, forgetInitialPos.
  rewrite H1, H2, H3, H4, H5, H6, H7. destruct (landmarks s2); reflexivity.
Qed.

(** X25.  The start position of the project never reaches the display:
    two projects that differ only in their start position give, after
    loading, setup and any number of frames, the same state but for the
    stored [initialPos], and a frame throws for one exactly when it
    throws for the other. *)
Theorem startPosition_never_displayed
    (Qsqrt : Q -> Q) (map_distance : point -> point -> num)
    (st0 : state) (data : projectData) (sp sp' : option point) (ts : list num) :
  cmap forgetInitialPos
    (runFrames (setupVisualization Qsqrt
                  (loadData Qsqrt map_distance st0 (withStartPosition data sp))) ts)
  = cmap forgetInitialPos
      (runFrames (setupVisualization Qsqrt
                    (loadData Qsqrt map_distance st0 (withStartPosition data sp'))) ts).
Proof.
  rewrite <- (runFrames_forget ts (setupVisualization Qsqrt
                (loadData Qsqrt map_distance st0 (withStartPosition data sp)))).
  rewrite <- (runFrames_forget ts (setupVisualization Qsqrt
                (loadData Qsqrt map_distance st0 (withStartPosition data sp')))).
  f_equal. f_equal.
  destruct (loadData_carries Qsqrt map_distance st0 (withStartPosition data sp))
    as (_ & P1 & A1 & _ & L1).
  destruct (loadData_carries Qsqrt map_distance st0 (withStartPosition data sp'))
    as (_ & P2 & A2 & _ & L2).
  apply setupVisualization_forget.
  - rewrite !loadData_routeCoords. reflexivity.
  - rewrite !loadData_cumulativeDist. reflexivity.
  - rewrite !loadData_timePoints. reflexivity.
  - rewrite !loadData_landmarks. reflexivity.
  - congruence.
  - congruence.
  - congruence.
Qed.

(** X26.  When the project has a landmark and at least one linked point,
    the hold before the first landmark changes nothing: after loading and
    setup, at every playback time before the first landmark's time the
    ordinary interpolation returns the very distance that the hold uses. *)
Theorem hold_agrees_with_interpolation
    (Qsqrt : Q -> Q) (map_distance : point -> point -> num)
    (st0 : state) (data : projectData)
    (lm0 : landmark) (lms : list landmark) (t : num)
    (Hlm : data_landmarks data = Some (lm0 :: lms))
    (Hne : or_empty (linkedPoints data) <> [])
    (Ht : (t <? lm_time lm0) = true) :
  let st := setupVisualization Qsqrt (loadData Qsqrt map_distance st0 data) in
  syncDistance st t = Normal (initialDist st) /\
  interpolateDistanceForTime (timePoints st) t = Normal (initialDist st).
Proof.
  intros st.
  pose proof (loadData_timePoints Qsqrt map_distance st0 data) as Htp.
  pose proof (loadData_routeCoords Qsqrt map_distance st0 data) as Hr.
  pose proof (loadData_cumulativeDist Qsqrt map_distance st0 data) as Hc.
  pose proof (loadData_landmarks Qsqrt map_distance st0 data) as Hl.
  pose proof (proj2 (loadData_timePoints_empty Qsqrt map_distance st0 data)) as Hempty.
  cbv zeta in Htp. rewrite Hlm in Htp, Hl. cbn [or_empty] in Htp, Hl.
  set (st1 := loadData Qsqrt map_distance st0 data) in *.
  assert (Hi : initialDist st
               = near_dist (findNearestPointOnRoute Qsqrt (routeCoords st1)
                              (cumulativeDist st1) (lm_lat lm0, lm_lon lm0))).
  { unfold st, setupVisualization. rewrite Hl. reflexivity. }
  assert (Hst : landmarks st = lm0 :: lms /\ timePoints st = timePoints st1).
  { unfold st, setupVisualization. rewrite Hl. split; reflexivity. }
  destruct Hst as [Sl St]. split.
  - unfold syncDistance. rewrite Sl, Ht. reflexivity.
  - rewrite St, Hi, Hr, Hc.
    match type of Htp with
    | _ = match ?S with _ => _ end => destruct S as [|tp0 rest]
    end.
    + exfalso. apply Hne.
      destruct (loadData_timePoints_empty Qsqrt map_distance st0 data) as [H _].
      apply H. exact Htp.
    + rewrite Htp. unfold interpolateDistanceForTime.
      cbn [idx nth_error prop bind time dist].
      rewrite (ltb_leb _ _ Ht). reflexivity.
Qed.

Lemma hold_agrees_with_interpolation_witness :
  let st := setupVisualization QsqrtDigits
              (loadData QsqrtDigits flatDistance readyState lateLandmarkData) in
  syncDistance st (Fin 12) = Normal (initialDist st) /\
  interpolateDistanceForTime (timePoints st) (Fin 12) = Normal (initialDist st).
Proof.
  refine (hold_agrees_with_interpolation QsqrtDigits flatDistance readyState
            lateLandmarkData _ _ (Fin 12) eq_refl _ eq_refl).
  discriminate.
Defined.

(* ------------------------------------------------------------------ *)
(** ** What the frames leave alone *)

Lemma syncMarker_writes (st st' : state) (t : num) :
  syncMarker st t = Normal st' ->
  routeCoords st' = routeCoords st /\ cumulativeDist st' = cumulativeDist st /\
  timePoints st' = timePoints st /\ landmarks st' = landmarks st /\
  initialDist st' = initialDist st /\ initialPos st' = initialPos st /\
  autoPanEnabled st' = autoPanEnabled st /\
  (autoPanEnabled st = false -> mapCenter st' = mapCenter st).
Proof.
  unfold syncMarker.
  destruct (player st); [|intros H; injection H as <-; tauto].
  destruct (marker st) as [m|]; [|intros H; injection H as <-; tauto].
  destruct (routeCoords st) as [|p0 route] eqn:Hr; [intros H; injection H as <-; tauto|].
  destruct (syncDistance st t) as [d|]; [|discriminate]. cbn [bind].
  destruct (getPositionAtDistance _ _ d) as [pos|]; [|discriminate]. cbn [bind].
  intros H. injection H as <-. unfold updateLabel. cbn [labelDisplay].
  destruct (labelDisplay st); cbn; repeat split; try assumption;
    intros ->; reflexivity.
Qed.

(** X27.  The frames of the sync loop write the marker, the view of the
    map and the label only: after any number of frames the route, the
    cumulative distance table, the anchors, the landmarks, [initialDist]
    and [initialPos] are what they were. *)
Theorem runFrames_keeps_loaded_data (ts : list num) :
  forall st st', runFrames st ts = Normal st' ->
    routeCoords st' = routeCoords st /\ cumulativeDist st' = cumulativeDist st /\
    timePoints st' = timePoints st /\ landmarks st' = landmarks st /\
    initialDist st' = initialDist st /\ initialPos st' = initialPos st.
Proof.
  induction ts as [|t ts IH]; intros st st' H; cbn [runFrames] in H.
  - injection H as <-. tauto.
  - destruct (syncMarker st t) as [st1|] eqn:E; [|discriminate]. cbn [bind] in H.
    destruct (syncMarker_writes st st1 t E) as (H1 & H2 & H3 & H4 & H5 & H6 & _).
    destruct (IH st1 st' H) as (G1 & G2 & G3 & G4 & G5 & G6).
    repeat split; congruence.
Qed.

Lemma runFrames_keeps_loaded_data_witness :
  exists st', runFrames scenarioState [Fin 1; Fin 6] = Normal st' /\
              timePoints st' = scenarioAnchors.
Proof.
  eexists. split; [vm_compute; reflexivity|].
  refine (proj1 (proj2 (proj2
            (runFrames_keeps_loaded_data [Fin 1; Fin 6] scenarioState _ _)))).
  vm_compute. reflexivity.
Defined.

Lemma runFrames_paused (ts : list num) :
  forall st st', runFrames st ts = Normal st' -> autoPanEnabled st = false ->
    mapCenter st' = mapCenter st /\ autoPanEnabled st' = false.
Proof.
  induction ts as [|t ts IH]; intros st st' H Hp; cbn [runFrames] in H.
  - injection H as <-. tauto.
  - destruct (syncMarker st t) as [st1|] eqn:E; [|discriminate]. cbn [bind] in H.
    destruct (syncMarker_writes st st1 t E) as (_ & _ & _ & _ & _ & _ & H7 & H8).
    destruct (IH st1 st' H) as (G1 & G2); [congruence|].
    split; [rewrite G1; apply H8; exact Hp | exact G2].
Qed.

(** X28.  After the player reports a pause, the frames no longer move the
    view of the map, however many follow; after it reports playing, every
    frame that moves the marker centres the map on it. *)
Theorem autoPan_follows_player_state (st : state) :
  (forall ts st', runFrames (onStateChange st PAUSED) ts = Normal st' ->
     mapCenter st' = mapCenter st) /\
  (forall t st' m, syncMarker (onStateChange st PLAYING) t = Normal st' ->
     player st = true -> marker st = Some m -> routeCoords st <> [] ->
     marker st' = Some (mapCenter st')).
Proof.
  split.
  - intros ts st' H.
    destruct (runFrames_paused ts _ _ H eq_refl) as [H1 _]. exact H1.
  - intros t st' m H Hp Hm Hr. revert H. unfold syncMarker, onStateChange.
    cbn [player marker routeCoords cumulativeDist autoPanEnabled].
    rewrite Hp, Hm. destruct (routeCoords st) as [|p0 route] eqn:Er; [congruence|].
    match goal with |- context [syncDistance ?s t] => destruct (syncDistance s t) as [d|] end;
      [|discriminate].
    cbn [bind]. destruct (getPositionAtDistance _ _ d) as [pos|]; [|discriminate].
    cbn [bind]. intros H. injection H as <-. unfold updateLabel. cbn [labelDisplay].
    destruct (labelDisplay st); reflexivity.
Qed.
